(** * textClust: a shallow embedding of river/cluster/textclust.py

    The development follows the Python module function by function.

    Modelling conventions.
    - Python numbers (int and float alike) that take part in float arithmetic
      are real numbers [R]; [math.sqrt], [math.log], [pow(2, y)] and
      [round(x, 10)] are the real functions they approximate.  Rounding
      error, overflow and NaN of binary64 are outside the model.
      [math.inf] is a separate constructor ([xreal]).  Where a property
      depends on rounding, the distance is modelled a second time on
      binary64 numbers ([binary64], Rocq's primitive floats).
    - Counters and identifiers are [Z]; lengths are [nat].
    - A Python [dict] is an association list in insertion order
      ([dict K V]); assignment to a present key keeps its position, assignment
      to a new key appends, [del] removes.
    - [mc.tf[k]["tf"]] is the one-entry box around a number; [tf] maps a term
      directly to that number.
    - [realtime] is [None] from the constructor on (lines 145, 175-176) and is
      only copied around: the attribute and the parameter are left out.
    - The distance selectors [micro_distance] and [macro_distance] are fixed to
      [tfidf_cosine_distance], the only name [distances.dist] resolves.
    - Mutation is explicit state passing: a method returns the new object(s).
      A raised exception is [Raise e]; the state left behind by a raising
      call is not modelled.  Loops whose trip count is not structural take
      fuel, set by the caller from the length of the data; [OutOfFuel] is the
      outcome of an exhausted loop and is shown not to occur. *)

From Stdlib Require Import Floats.
From Stdlib Require Import Reals Lra Lia ZArith List String Bool Arith Permutation.
Import ListNotations.

#[local] Open Scope R_scope.

(** ** Outcomes of a call *)

Inductive exn : Set :=
| TypeError | KeyError | ValueError | IndexError | AttributeError.

Inductive result (A : Type) : Type :=
| Ok (a : A)
| Raise (e : exn)
| OutOfFuel.

Arguments Ok {A} a.
Arguments Raise {A} e.
Arguments OutOfFuel {A}.

Definition bind {A B : Type} (c : result A) (k : A -> result B) : result B :=
  match c with
  | Ok a => k a
  | Raise e => Raise e
  | OutOfFuel => OutOfFuel
  end.

Notation "x <- c ;; k" := (bind c (fun x => k))
  (at level 61, c at next level, right associativity).
Notation "' p <- c ;; k" := (bind c (fun x => let 'p := x in k))
  (at level 61, p pattern, c at next level, right associativity).

(** ** Numbers *)

Definition Rltb (x y : R) : bool := if Rlt_dec x y then true else false.
Definition Rleb (x y : R) : bool := if Rle_dec x y then true else false.
Definition Reqb (x y : R) : bool := if Req_dec_T x y then true else false.

(** [math.inf] and [float("inf")] next to the finite numbers. *)
Inductive xreal : Type :=
| Finite (r : R)
| Inf.

(** [x < m] for a finite [x]. *)
Definition xltb (x : R) (m : xreal) : bool :=
  match m with
  | Finite r => Rltb x r
  | Inf => true
  end.

(** [math.sqrt]: a [ValueError] on a negative argument. *)
Definition math_sqrt (x : R) : result R :=
  if Rltb x 0 then Raise ValueError else Ok (sqrt x).

(** [math.log]: a [ValueError] unless the argument is positive. *)
Definition math_log (x : R) : result R :=
  if Rltb 0 x then Ok (ln x) else Raise ValueError.

(** [pow(2, y)] and [2 ** y]. *)
Definition pow2 (y : R) : R := Rpower 2 y.

(** Rounding to the nearest integer, ties to even. *)
Definition round_half_even (x : R) : Z :=
  let f := Zfloor x in
  let r := x - IZR f in
  if Rltb r (1/2) then f
  else if Rltb (1/2) r then (f + 1)%Z
  else if Z.even f then f else (f + 1)%Z.

(** [round(x, 10)]. *)
Definition round10 (x : R) : R :=
  IZR (round_half_even (x * 10 ^ 10)) / 10 ^ 10.

(** ** Dictionaries *)

Class Key (K : Type) := {
  key_eqb : K -> K -> bool;
  key_eqb_eq : forall a b, key_eqb a b = true <-> a = b
}.

#[export] Instance string_Key : Key string :=
  {| key_eqb := String.eqb; key_eqb_eq := String.eqb_eq |}.

#[export] Instance Z_Key : Key Z :=
  {| key_eqb := Z.eqb; key_eqb_eq := Z.eqb_eq |}.

Definition dict (K V : Type) : Type := list (K * V).

Section Dict.
Context {K V : Type} `{Key K}.

(** [d.get(k)]: the value at [k], if any. *)
Fixpoint dict_get (d : dict K V) (k : K) : option V :=
  match d with
  | [] => None
  | (k', v) :: d' => if key_eqb k k' then Some v else dict_get d' k
  end.

(** [k in d]. *)
Definition dict_mem (d : dict K V) (k : K) : bool :=
  match dict_get d k with Some _ => true | None => false end.

(** [d[k] = v]. *)
Fixpoint dict_set (d : dict K V) (k : K) (v : V) : dict K V :=
  match d with
  | [] => [(k, v)]
  | (k', v') :: d' =>
      if key_eqb k k' then (k', v) :: d' else (k', v') :: dict_set d' k v
  end.

(** [del d[k]]. *)
Fixpoint dict_del (d : dict K V) (k : K) : dict K V :=
  match d with
  | [] => []
  | (k', v') :: d' =>
      if key_eqb k k' then d' else (k', v') :: dict_del d' k
  end.

Definition dict_keys (d : dict K V) : list K := map fst d.
Definition dict_values (d : dict K V) : list V := map snd d.

(** What the type [dict] cannot say: a key occurs once. *)
Definition dict_wf (d : dict K V) : Prop := NoDup (dict_keys d).

End Dict.

(** ** class microcluster (lines 545-587) *)

Module microcluster.

Record t : Type := mk {
  id : option Z;
  weight : R;
  time : R;
  tf : dict string R;
  oldweight : R;
  deltaweight : R;
  n : Z;
  merged_ids : list (option Z)
}.

(** [__init__(self, tf, time, weight, realtime, clusterid)]. *)
Definition init (tf0 : dict string R) (time0 weight0 : R) (clusterid : option Z) : t :=
  {| id := clusterid; weight := weight0; time := time0; tf := tf0;
     oldweight := 0; deltaweight := 0; n := 1; merged_ids := [] |}.

(** The loop of lines 562-567: every entry is multiplied by the decay factor
    and deleted when the product is at most [omega]. *)
Fixpoint fade_terms (d : dict string R) (factor omega : R) : dict string R :=
  match d with
  | [] => []
  | (k, v) :: d' =>
      if Rleb (v * factor) omega then fade_terms d' factor omega
      else (k, v * factor) :: fade_terms d' factor omega
  end.

(** [fade(self, tnow, omega, fading_factor, term_fading, realtime)]. *)
Definition fade (self : t) (tnow omega fading_factor : R) (term_fading : bool) : t :=
  let factor := pow2 (- fading_factor * (tnow - time self)) in
  {| id := id self;
     weight := weight self * factor;
     time := tnow;
     tf := if term_fading then fade_terms (tf self) factor omega else tf self;
     oldweight := oldweight self;
     deltaweight := deltaweight self;
     n := n self;
     merged_ids := merged_ids self |}.

(** The loop of lines 582-587: the other cluster's entries are added to the
    entries of [self], new terms at the end. *)
Fixpoint merge_terms (mine other : dict string R) : dict string R :=
  match other with
  | [] => mine
  | (k, v) :: other' =>
      match dict_get mine k with
      | Some v0 => merge_terms (dict_set mine k (v0 + v)) other'
      | None => merge_terms (dict_set mine k v) other'
      end
  end.

(** [merge(self, microcluster, t, omega, fading_factor, term_fading,
    realtime)]: the new [self] and the other cluster as the call leaves it. *)
Definition merge (self other : t) (now omega fading_factor : R) (term_fading : bool)
  : t * t :=
  let self1 :=
    {| id := id self; weight := weight self + weight other; time := time self;
       tf := tf self; oldweight := oldweight self; deltaweight := deltaweight self;
       n := n self; merged_ids := merged_ids self |} in
  let self2 := fade self1 now omega fading_factor term_fading in
  let other' := fade other now omega fading_factor term_fading in
  ({| id := id self2; weight := weight self2; time := now;
      tf := merge_terms (tf self2) (tf other');
      oldweight := oldweight self2; deltaweight := deltaweight self2;
      n := n self2; merged_ids := merged_ids self2 |},
   other').

Definition with_n (self : t) (n' : Z) : t :=
  {| id := id self; weight := weight self; time := time self; tf := tf self;
     oldweight := oldweight self; deltaweight := deltaweight self;
     n := n'; merged_ids := merged_ids self |}.

Definition with_merged_ids (self : t) (ids : list (option Z)) : t :=
  {| id := id self; weight := weight self; time := time self; tf := tf self;
     oldweight := oldweight self; deltaweight := deltaweight self;
     n := n self; merged_ids := ids |}.

(** Lines 306-307. *)
Definition snapshot (self : t) : t :=
  {| id := id self; weight := weight self; time := time self; tf := tf self;
     oldweight := weight self; deltaweight := weight self - oldweight self;
     n := n self; merged_ids := merged_ids self |}.

End microcluster.

(** ** class distances (lines 590-618) *)

Module distances.

(** First loop of [tfidf_cosine_distance] (lines 604-608): the dot product
    and the squared length of the first vector, over its terms known to
    [idf]. *)
Fixpoint dot_and_len (a b idf : dict string R) (sum tfidflen : R) : R * R :=
  match a with
  | [] => (sum, tfidflen)
  | (k, v) :: a' =>
      match dict_get idf k with
      | Some i =>
          let sum' :=
            match dict_get b k with
            | Some w => sum + (v * i) * (w * i)
            | None => sum
            end in
          dot_and_len a' b idf sum' (tfidflen + v * i * v * i)
      | None => dot_and_len a' b idf sum tfidflen
      end
  end.

(** Second loop (lines 610-613): the squared length of the second vector;
    [idf[k]] raises [KeyError] for a term without entry. *)
Fixpoint micro_len (b idf : dict string R) (microtfidflen : R) : result R :=
  match b with
  | [] => Ok microtfidflen
  | (k, w) :: b' =>
      match dict_get idf k with
      | Some i => micro_len b' idf (microtfidflen + w * i * w * i)
      | None => Raise KeyError
      end
  end.

Definition tfidf_cosine_distance (mc other : microcluster.t) (idf : dict string R)
  : result R :=
  let '(sum, tfidflen) :=
    dot_and_len (microcluster.tf mc) (microcluster.tf other) idf 0 0 in
  tfidflen <- math_sqrt tfidflen ;;
  microtfidflen <- micro_len (microcluster.tf other) idf 0 ;;
  microtfidflen <- math_sqrt microtfidflen ;;
  if Reqb tfidflen 0 || Reqb microtfidflen 0 then Ok 1
  else Ok (round10 (1 - sum / (tfidflen * microtfidflen))).

(** [dist(self, m1, m2, idf)] with [self.type = "tfidf_cosine_distance"]. *)
Definition dist (m1 m2 : microcluster.t) (idf : dict string R) : result R :=
  tfidf_cosine_distance m1 m2 idf.

End distances.

(** ** The distance on binary64 numbers (lines 600-618)

    The same lines with Python's floats as they are: IEEE 754 binary64 with
    round-to-nearest-even, which is what Rocq's primitive floats compute.
    Term weights are floats (an [int] weight below 2^53 converts exactly in
    its first product with an idf value, which is always a float). *)

Module binary64.

(** [math.sqrt]: a [ValueError] on a negative argument; NaN and infinity
    pass. *)
Definition math_sqrt (x : float) : result float :=
  if PrimFloat.ltb x 0 then Raise ValueError else Ok (PrimFloat.sqrt x).

Definition pow10_10 : Z := 10000000000%Z.

(** The integer nearest to [m * 2^e * 10^10], ties to even. *)
Definition round_scaled (m : positive) (e : Z) : Z :=
  match e with
  | Zneg pe =>
      let num := (Zpos m * pow10_10)%Z in
      let den := Z.pow_pos 2 pe in
      let q := (num / den)%Z in
      let r := (num mod den)%Z in
      if (2 * r <? den)%Z then q
      else if (den <? 2 * r)%Z then (q + 1)%Z
      else if Z.even q then q else (q + 1)%Z
  | _ => (Zpos m * 2 ^ e * pow10_10)%Z
  end.

(** [round(x, 10)] on a float: the exact value of [x] is rounded to ten
    decimals, ties to even, and the decimal is converted back to the nearest
    float; the sign is kept, and zeros, infinities and NaN are returned as
    they are.  (The result cannot overflow: a float of magnitude 2^53 or
    more is an integer and is returned unchanged.) *)
Definition round10 (x : float) : float :=
  match Prim2SF x with
  | S754_finite s m e =>
      match round_scaled m e with
      | Zpos n =>
          SF2Prim (SFdiv prec emax (S754_finite s n 0)
                     (S754_finite false (Z.to_pos pow10_10) 0))
      | _ => if s then (-0)%float else 0%float
      end
  | _ => x
  end.

(** First loop (lines 604-608). *)
Fixpoint dot_and_len (a b idf : dict string float) (sum tfidflen : float) : float * float :=
  match a with
  | [] => (sum, tfidflen)
  | (k, v) :: a' =>
      match dict_get idf k with
      | Some i =>
          let sum' :=
            match dict_get b k with
            | Some w => (sum + (v * i) * (w * i))%float
            | None => sum
            end in
          dot_and_len a' b idf sum' (tfidflen + v * i * v * i)%float
      | None => dot_and_len a' b idf sum tfidflen
      end
  end.

(** Second loop (lines 610-613). *)
Fixpoint micro_len (b idf : dict string float) (microtfidflen : float) : result float :=
  match b with
  | [] => Ok microtfidflen
  | (k, w) :: b' =>
      match dict_get idf k with
      | Some i => micro_len b' idf (microtfidflen + w * i * w * i)%float
      | None => Raise KeyError
      end
  end.

(** [tfidf_cosine_distance] on the term vectors of the two clusters. *)
Definition tfidf_cosine_distance (mc other idf : dict string float) : result float :=
  let '(sum, tfidflen) := dot_and_len mc other idf 0%float 0%float in
  tfidflen <- math_sqrt tfidflen ;;
  microtfidflen <- micro_len other idf 0%float ;;
  microtfidflen <- math_sqrt microtfidflen ;;
  if PrimFloat.eqb tfidflen 0 || PrimFloat.eqb microtfidflen 0 then Ok 1%float
  else Ok (round10 (1 - sum / (tfidflen * microtfidflen))%float).

(** Every term of the vector has an entry in the weighting. *)
Definition covered (a idf : dict string float) : Prop :=
  forall k, In k (dict_keys a) -> dict_get idf k <> None.




End binary64.

(** ** class TextClust (lines 13-536) *)

(** The constructor's parameters (lines 109-135), fixed for the life of the
    object. *)
Record params : Type := mk_params {
  radius : R;
  fading_factor : R;
  tgap : R;
  term_fading : bool;
  real_time_fading : bool;
  num_macro : Z;
  min_weight : R;
  auto_r : bool;
  auto_merge : bool;
  sigma : R
}.

(** Line 142. *)
Definition omega (p : params) : R := pow2 (-1 * fading_factor p * tgap p).

(** The attributes the methods assign (lines 139-150). *)
Record TextClust : Type := mk_TextClust {
  t : option R;
  last_cleanup : option R;
  n : Z;
  micro_clusters : dict Z microcluster.t;
  microToMacro : option (dict Z Z);
  _clusterId : Z;
  _up_to_date : bool;
  _dist_mean : R;
  _num_merged_obs : Z
}.

(** The object [__init__] returns. *)
Definition init : TextClust :=
  {| t := None; last_cleanup := Some 0; n := 1%Z; micro_clusters := [];
     microToMacro := None; _clusterId := 0%Z; _up_to_date := false;
     _dist_mean := 0; _num_merged_obs := 0%Z |}.

Definition with_micro_clusters (self : TextClust) (m : dict Z microcluster.t) : TextClust :=
  {| t := t self; last_cleanup := last_cleanup self; n := n self;
     micro_clusters := m; microToMacro := microToMacro self;
     _clusterId := _clusterId self; _up_to_date := _up_to_date self;
     _dist_mean := _dist_mean self; _num_merged_obs := _num_merged_obs self |}.

Definition with_clock (self : TextClust) (now : option R) : TextClust :=
  {| t := now; last_cleanup := last_cleanup self; n := n self;
     micro_clusters := micro_clusters self; microToMacro := microToMacro self;
     _clusterId := _clusterId self; _up_to_date := false;
     _dist_mean := _dist_mean self; _num_merged_obs := _num_merged_obs self |}.

Definition with_last_cleanup (self : TextClust) (lc : option R) : TextClust :=
  {| t := t self; last_cleanup := lc; n := n self;
     micro_clusters := micro_clusters self; microToMacro := microToMacro self;
     _clusterId := _clusterId self; _up_to_date := _up_to_date self;
     _dist_mean := _dist_mean self; _num_merged_obs := _num_merged_obs self |}.

Definition with_n (self : TextClust) (n' : Z) : TextClust :=
  {| t := t self; last_cleanup := last_cleanup self; n := n';
     micro_clusters := micro_clusters self; microToMacro := microToMacro self;
     _clusterId := _clusterId self; _up_to_date := _up_to_date self;
     _dist_mean := _dist_mean self; _num_merged_obs := _num_merged_obs self |}.

Definition with_macro (self : TextClust) (m : dict Z Z) : TextClust :=
  {| t := t self; last_cleanup := last_cleanup self; n := n self;
     micro_clusters := micro_clusters self; microToMacro := Some m;
     _clusterId := _clusterId self; _up_to_date := true;
     _dist_mean := _dist_mean self; _num_merged_obs := _num_merged_obs self |}.

(** Lines 314-315. *)
Definition reset_merged (self : TextClust) : TextClust :=
  {| t := t self; last_cleanup := last_cleanup self; n := n self;
     micro_clusters := micro_clusters self; microToMacro := microToMacro self;
     _clusterId := _clusterId self; _up_to_date := _up_to_date self;
     _dist_mean := 0; _num_merged_obs := 0%Z |}.

(** *** _calculateIDF (lines 270-280) *)

(** Lines 273-277 for one micro-cluster. *)
Fixpoint count_terms (terms : dict string R) (res : dict string Z) : dict string Z :=
  match terms with
  | [] => res
  | (k, _) :: terms' =>
      match dict_get res k with
      | None => count_terms terms' (dict_set res k 1%Z)
      | Some c => count_terms terms' (dict_set res k (c + 1)%Z)
      end
  end.

(** Lines 272-277. *)
Fixpoint document_frequency (micros : list microcluster.t) (res : dict string Z)
  : dict string Z :=
  match micros with
  | [] => res
  | micro :: micros' =>
      document_frequency micros' (count_terms (microcluster.tf micro) res)
  end.

(** Lines 278-279: [len_micros / result[k]] has a count, at least 1, as its
    divisor. *)
Fixpoint idf_of_counts (len_micros : nat) (res : dict string Z) : result (dict string R) :=
  match res with
  | [] => Ok []
  | (k, c) :: res' =>
      l <- math_log (IZR (Z.of_nat len_micros) / IZR c) ;;
      rest <- idf_of_counts len_micros res' ;;
      Ok ((k, 1 + l) :: rest)
  end.

Definition _calculateIDF (micros : list microcluster.t) : result (dict string R) :=
  idf_of_counts (List.length micros) (document_frequency micros []).

(** *** _get_closest_mc (lines 229-267) *)

(** The loop variables of lines 233-238. *)
Record scan : Type := mk_scan {
  min_dist : R;
  smallest_key : option Z;
  sumdist : R;
  squaresum : R;
  counter : nat
}.

(** Lines 241-251. *)
Fixpoint closest_scan (mc : microcluster.t) (idf : dict string R)
    (micros : dict Z microcluster.t) (s : scan) : result scan :=
  match micros with
  | [] => Ok s
  | (key, micro) :: micros' =>
      d <- distances.dist mc micro idf ;;
      closest_scan mc idf micros'
        {| min_dist := if Rltb d (min_dist s) then d else min_dist s;
           smallest_key := if Rltb d (min_dist s) then Some key else smallest_key s;
           sumdist := sumdist s + d;
           squaresum := squaresum s + d ^ 2;
           counter := S (counter s) |}
  end.

(** Lines 254-265; [counter - 1] is a divisor only under [counter > 1]. *)
Definition choose_cluster (p : params) (s : scan) : result (option Z) :=
  if auto_r p then
    if (1 <? counter s)%nat then
      let mu := (sumdist s - min_dist s) / (INR (counter s) - 1) in
      sd <- math_sqrt (squaresum s / (INR (counter s) - 1) - mu ^ 2) ;;
      let threshold := mu - sigma p * sd in
      Ok (if Rltb (min_dist s) threshold then smallest_key s else None)
    else Ok None
  else
    Ok (if Rltb (min_dist s) (radius p) then smallest_key s else None).

Definition _get_closest_mc (p : params) (self : TextClust) (mc : microcluster.t)
    (idf : dict string R) : result (option Z * R) :=
  s <- closest_scan mc idf (micro_clusters self)
         {| min_dist := 1; smallest_key := None; sumdist := 0; squaresum := 0;
            counter := 0 |} ;;
  clusterId <- choose_cluster p s ;;
  Ok (clusterId, min_dist s).

(** *** _updateweights (lines 283-293) *)

Definition evicted (p : params) (micro : microcluster.t) : bool :=
  Rleb (microcluster.weight micro) (omega p)
  || (List.length (microcluster.tf micro) =? 0)%nat.

Fixpoint fade_all (p : params) (now : R) (micros : dict Z microcluster.t)
  : dict Z microcluster.t :=
  match micros with
  | [] => []
  | (key, micro) :: micros' =>
      (key, microcluster.fade micro now (omega p) (fading_factor p) (term_fading p))
        :: fade_all p now micros'
  end.

Fixpoint evict_all (p : params) (micros : dict Z microcluster.t) : dict Z microcluster.t :=
  match micros with
  | [] => []
  | (key, micro) :: micros' =>
      if evicted p micro then evict_all p micros'
      else (key, micro) :: evict_all p micros'
  end.

(** With no micro-cluster the first loop never reads [self.t]; with one, a
    clock that is still [None] makes [tnow - self.time] a [TypeError]. *)
Definition _updateweights (p : params) (self : TextClust) : result TextClust :=
  match micro_clusters self with
  | [] => Ok self
  | _ :: _ =>
      match t self with
      | None => Raise TypeError
      | Some now =>
          Ok (with_micro_clusters self (evict_all p (fade_all p now (micro_clusters self))))
      end
  end.

(** *** _mergemicroclusters (lines 318-354) *)

(** Lines 323-326. *)
Definition merge_threshold (p : params) (self : TextClust) : R :=
  if auto_r p then _dist_mean self / (IZR (_num_merged_obs self) + 1)
  else radius p.

(** The inner loop (lines 330-353) for the cluster at index [i]: [rest] are
    the clusters behind it.  A cluster closer than the threshold is merged
    into [ci] and deleted, the others are kept in order.  [now] is [self.t];
    the merge reads it in [fade]. *)
Fixpoint merge_row (p : params) (now : option R) (idf : dict string R) (threshold : R)
    (ci : microcluster.t) (rest : dict Z microcluster.t)
  : result (microcluster.t * dict Z microcluster.t) :=
  match rest with
  | [] => Ok (ci, [])
  | (kj, cj) :: rest' =>
      m_dist <- distances.dist ci cj idf ;;
      if Rltb m_dist threshold then
        match now with
        | None => Raise TypeError
        | Some tnow =>
            let '(ci', cj') :=
              microcluster.merge ci cj tnow (omega p) (fading_factor p) (term_fading p) in
            merge_row p now idf threshold
              (microcluster.with_merged_ids ci'
                 (microcluster.merged_ids ci' ++ [microcluster.id cj']))
              rest'
        end
      else
        '(ci', kept) <- merge_row p now idf threshold ci rest' ;;
        Ok (ci', (kj, cj) :: kept)
  end.

(** The outer loop (lines 328-354): index [i] walks over the clusters that
    are left.  [fuel] bounds the number of rounds. *)
Fixpoint merge_pass (fuel : nat) (p : params) (now : option R) (idf : dict string R)
    (threshold : R) (micros : dict Z microcluster.t) : result (dict Z microcluster.t) :=
  match micros with
  | [] => Ok []
  | (ki, ci) :: rest =>
      match fuel with
      | O => OutOfFuel
      | S fuel' =>
          '(ci', kept) <- merge_row p now idf threshold ci rest ;;
          rest' <- merge_pass fuel' p now idf threshold kept ;;
          Ok ((ki, ci') :: rest')
      end
  end.

Definition _mergemicroclusters (p : params) (self : TextClust) : result TextClust :=
  idf <- _calculateIDF (dict_values (micro_clusters self)) ;;
  let threshold := merge_threshold p self in
  micros <- merge_pass (List.length (micro_clusters self)) p (t self) idf threshold
              (micro_clusters self) ;;
  Ok (with_micro_clusters self micros).

(** *** _cleanup (lines 296-315) *)

Definition snapshot_all (micros : dict Z microcluster.t) : dict Z microcluster.t :=
  map (fun kv => (fst kv, microcluster.snapshot (snd kv))) micros.

Definition _cleanup (p : params) (self : TextClust) : result TextClust :=
  let self := with_last_cleanup self (t self) in
  self <- _updateweights p self ;;
  let self := with_micro_clusters self (snapshot_all (micro_clusters self)) in
  self <- (if auto_merge p then _mergemicroclusters p self else Ok self) ;;
  Ok (reset_merged self).

(** *** learn_one (lines 156-212) *)

(** Lines 190-197: the merge path. *)
Definition merge_into (p : params) (self : TextClust) (clusterId : Z)
    (target' : microcluster.t) (d : R) : TextClust :=
  {| t := t self; last_cleanup := last_cleanup self; n := n self;
     micro_clusters := dict_set (micro_clusters self) clusterId target';
     microToMacro := microToMacro self;
     _clusterId := _clusterId self; _up_to_date := _up_to_date self;
     _dist_mean := _dist_mean self + d;
     _num_merged_obs := (_num_merged_obs self + 1)%Z |}.

(** Lines 201-204: the create path. *)
Definition create_new (self : TextClust) (mc : microcluster.t) (d : R) : TextClust :=
  {| t := t self; last_cleanup := last_cleanup self; n := n self;
     micro_clusters := dict_set (micro_clusters self) (_clusterId self) mc;
     microToMacro := microToMacro self;
     _clusterId := (_clusterId self + 1)%Z; _up_to_date := _up_to_date self;
     _dist_mean := _dist_mean self + d;
     _num_merged_obs := _num_merged_obs self |}.

(** Lines 181-186: the transient cluster and its nearest stored cluster. *)
Definition closest_to (p : params) (self : TextClust) (x : dict string R) (now : R)
  : result (option Z * R) :=
  let mc := microcluster.init x now 1 (Some (_clusterId self)) in
  idf <- _calculateIDF (dict_values (micro_clusters self)) ;;
  _get_closest_mc p self mc idf.

(** Lines 181-204, the body of [if len(ngrams) > 0]. *)
Definition ingest (p : params) (self : TextClust) (x : dict string R) (now : R)
  : result (TextClust * option Z) :=
  let mc := microcluster.init x now 1 (Some (_clusterId self)) in
  '(clusterId, d) <- closest_to p self x now ;;
  match clusterId with
  | Some cid =>
      match dict_get (micro_clusters self) cid with
      | None => Raise KeyError
      | Some target =>
          let target1 := microcluster.with_n target (microcluster.n target + 1)%Z in
          let '(target2, _) :=
            microcluster.merge target1 mc now (omega p) (fading_factor p) (term_fading p) in
          Ok (merge_into p self cid target2 d, Some cid)
      end
  | None => Ok (create_new self mc d, Some (_clusterId self))
  end.

(** Line 207. *)
Definition cleanup_due (p : params) (self : TextClust) (now : R) : bool :=
  match last_cleanup self with
  | None => true
  | Some lc => Rleb (tgap p) (now - lc)
  end.

(** Lines 157-204: everything before the cleanup check.  Under real-time
    fading a call without timestamp ends in a [TypeError] on every path
    ([None - self.last_cleanup] at line 207 at the latest). *)
Definition learn_one_ingest (p : params) (self : TextClust) (x : dict string R)
    (t' : option R) : result (TextClust * R * option Z) :=
  let self := with_clock self (if real_time_fading p then t' else Some (IZR (n self))) in
  match t self with
  | None => Raise TypeError
  | Some now =>
      '(self, clusterId) <-
        (if (0 <? List.length x)%nat then ingest p self x now else Ok (self, None)) ;;
      Ok (self, now, clusterId)
  end.

Definition learn_one (p : params) (self : TextClust) (x : dict string R) (t' : option R)
  : result (TextClust * option Z) :=
  '(self, now, clusterId) <- learn_one_ingest p self x t' ;;
  self <- (if cleanup_due p self now then _cleanup p self else Ok self) ;;
  Ok (with_n self (n self + 1)%Z, clusterId).

(** *** _get_distance_matrix (lines 357-375) *)

(** The data frame [distances]: a number for every column label and row
    label, [distm[c][r]] being column [c], row [r].  It is indexed only by the
    labels it was built with. *)
Definition DataFrame : Type := Z -> Z -> R.

(** [pd.DataFrame(np.zeros(...))]. *)
Definition df_zeros : DataFrame := fun _ _ => 0.

(** [distances.loc[row, col] = v]. *)
Definition df_set (dm : DataFrame) (row col : Z) (v : R) : DataFrame :=
  fun c r => if (Z.eqb r row && Z.eqb c col)%bool then v else dm c r.

(** Lines 369-373 for one row. *)
Fixpoint fill_row (idf : dict string R) (row : Z) (crow : microcluster.t)
    (cols : dict Z microcluster.t) (dm : DataFrame) : result DataFrame :=
  match cols with
  | [] => Ok dm
  | (col, ccol) :: cols' =>
      d <- distances.dist crow ccol idf ;;
      fill_row idf row crow cols' (df_set (df_set dm row col d) col row d)
  end.

(** Lines 368-373. *)
Fixpoint fill_matrix (idf : dict string R) (clusters : dict Z microcluster.t)
    (dm : DataFrame) : result DataFrame :=
  match clusters with
  | [] => Ok dm
  | (row, crow) :: rest =>
      dm' <- fill_row idf row crow rest dm ;;
      fill_matrix idf rest dm'
  end.

Definition _get_distance_matrix (clusters : dict Z microcluster.t) : result DataFrame :=
  idf <- _calculateIDF (dict_values clusters) ;;
  fill_matrix idf clusters df_zeros.

(** *** _agglomerative_clustering (lines 379-410) *)

(** Lines 400-404: [min_dist] and [min_pair] over the members of two sets. *)
Definition member_scan (distm : DataFrame) (i j : nat) (gi gj : list Z)
    (s : xreal * option (nat * nat)) : xreal * option (nat * nat) :=
  fold_left
    (fun s c_i =>
       fold_left
         (fun s c_j =>
            if xltb (distm c_i c_j) (fst s)
            then (Finite (distm c_i c_j), Some (i, j)) else s)
         gj s)
    gi s.

(** Lines 393-404: [range(0, len - 1)] and [range(i + 1, len)]. *)
Definition closest_pair (distm : DataFrame) (clusters : list (list Z))
  : xreal * option (nat * nat) :=
  let len := List.length clusters in
  fold_left
    (fun s i =>
       fold_left
         (fun s j => member_scan distm i j (nth i clusters []) (nth j clusters []) s)
         (seq (i + 1) (len - (i + 1))) s)
    (seq 0 (len - 1)) (Inf, None).

(** [l[i] = v] for an index in range. *)
Fixpoint list_set {A : Type} (l : list A) (i : nat) (v : A) : list A :=
  match l, i with
  | [], _ => []
  | _ :: l', O => v :: l'
  | a :: l', S i' => a :: list_set l' i' v
  end.

(** [del l[j]] for an index in range. *)
Fixpoint list_del {A : Type} (l : list A) (j : nat) : list A :=
  match l, j with
  | [], _ => []
  | _ :: l', O => l'
  | a :: l', S j' => a :: list_del l' j'
  end.

(** Lines 407-408. *)
Definition merge_sets (clusters : list (list Z)) (i j : nat) : list (list Z) :=
  list_del (list_set clusters i (nth i clusters [] ++ nth j clusters [])) j.

(** The loop of lines 392-408; an empty [min_pair] makes [min_pair[0]] an
    [IndexError]. *)
Fixpoint agglomerate (fuel : nat) (distm : DataFrame) (clusters : list (list Z)) (k : Z)
  : result (list (list Z)) :=
  if (Z.of_nat (List.length clusters) =? k)%Z then Ok clusters
  else
    match fuel with
    | O => OutOfFuel
    | S fuel' =>
        match snd (closest_pair distm clusters) with
        | None => Raise IndexError
        | Some (i, j) => agglomerate fuel' distm (merge_sets clusters i j) k
        end
    end.

Definition _agglomerative_clustering (micros : dict Z microcluster.t) (k : Z)
  : result (list (list Z)) :=
  distm <- _get_distance_matrix micros ;;
  let clusters := map (fun i => [i]) (dict_keys micros) in
  agglomerate (S (List.length micros)) distm clusters k.

(** *** updateMacroClusters (lines 412-438) *)

(** Line 422. *)
Fixpoint qualifying (p : params) (micros : dict Z microcluster.t) : dict Z microcluster.t :=
  match micros with
  | [] => []
  | (key, value) :: micros' =>
      if Rltb (min_weight p) (microcluster.weight value)
      then (key, value) :: qualifying p micros'
      else qualifying p micros'
  end.

(** Lines 435-436. *)
Fixpoint assign_set (m : dict Z Z) (members : list Z) (i : Z) : dict Z Z :=
  match members with
  | [] => m
  | x :: members' => assign_set (dict_set m x i) members' i
  end.

(** Lines 434-436, from index [i] on. *)
Fixpoint assign_sets (m : dict Z Z) (assigned : list (list Z)) (i : Z) : dict Z Z :=
  match assigned with
  | [] => m
  | g :: assigned' => assign_sets (assign_set m g i) assigned' (i + 1)%Z
  end.

Definition updateMacroClusters (p : params) (self : TextClust) : result TextClust :=
  if _up_to_date self then Ok self
  else
    self <- _updateweights p self ;;
    let micros := qualifying p (micro_clusters self) in
    let numClusters := Z.min (num_macro p) (Z.of_nat (List.length micros)) in
    if (1 <? List.length micros)%nat then
      assigned_clusters <- _agglomerative_clustering micros numClusters ;;
      Ok (with_macro self (assign_sets [] assigned_clusters 0%Z))
    else Ok self.

(** *** get_macroclusters (lines 441-460) *)

(** [range(numClusters)]. *)
Definition range (numClusters : Z) : list Z :=
  map Z.of_nat (seq 0 (Z.to_nat numClusters)).

(** Lines 449-458: each micro-cluster is merged into the accumulator of its
    macro-cluster; the merge fades the stored micro-cluster as well. *)
Fixpoint merge_macros (p : params) (now : R) (items : dict Z Z)
    (macros micros : dict Z microcluster.t)
  : result (dict Z microcluster.t * dict Z microcluster.t) :=
  match items with
  | [] => Ok (macros, micros)
  | (key, value) :: items' =>
      match dict_get macros value with
      | None => Raise KeyError
      | Some macro =>
          match dict_get micros key with
          | None => Raise KeyError
          | Some micro =>
              let '(macro', micro') :=
                microcluster.merge macro micro now (omega p) (fading_factor p)
                  (term_fading p) in
              merge_macros p now items'
                (dict_set macros value
                   (microcluster.with_merged_ids macro'
                      (microcluster.merged_ids macro' ++ [microcluster.id micro'])))
                (dict_set micros key micro')
          end
      end
  end.

(** [self.microToMacro.items()] is an [AttributeError] while the attribute
    is [None].  The accumulators take their time from [self.t]; in a state
    with micro-clusters and no clock, which no sequence of calls produces,
    the model raises the [TypeError] of their first fade when they are
    created. *)
Definition get_macroclusters (p : params) (self : TextClust)
  : result (TextClust * dict Z microcluster.t) :=
  self <- updateMacroClusters p self ;;
  let numClusters := Z.min (num_macro p) (Z.of_nat (List.length (micro_clusters self))) in
  match microToMacro self with
  | None => Raise AttributeError
  | Some items =>
      match t self, (0 <? numClusters)%Z with
      | None, true => Raise TypeError
      | now, _ =>
          let tnow := match now with Some r => r | None => 0 end in
          let macros :=
            map (fun x => (x, microcluster.init [] tnow 0 (Some x))) (range numClusters) in
          '(macros', micros') <- merge_macros p tnow items macros (micro_clusters self) ;;
          Ok (with_micro_clusters self micros', macros')
      end
  end.

(** *** get_assignment (lines 501-536) and predict_one (lines 216-226) *)

(** Lines 520-525. *)
Fixpoint nearest (p : params) (mc : microcluster.t) (idf : dict string R)
    (micros : dict Z microcluster.t) (dist : xreal) (closest : option Z)
  : result (xreal * option Z) :=
  match micros with
  | [] => Ok (dist, closest)
  | (key, micro) :: micros' =>
      if Rltb (min_weight p) (microcluster.weight micro) then
        cur_dist <- distances.dist mc micro idf ;;
        if xltb cur_dist dist
        then nearest p mc idf micros' (Finite cur_dist) (Some key)
        else nearest p mc idf micros' dist closest
      else nearest p mc idf micros' dist closest
  end.

(** The truth value of [assignment] at line 536: [None] and [0] are false. *)
Definition truthy (assignment : option Z) : bool :=
  match assignment with
  | None => false
  | Some z => negb (z =? 0)%Z
  end.

(** Line 536 after [updateMacroClusters]: [None[...]] is a [TypeError], a
    missing key a [KeyError]. *)
Definition macro_of (self : TextClust) (assignment : option Z) : result (option Z) :=
  match assignment with
  | Some a =>
      if truthy assignment then
        match microToMacro self with
        | None => Raise TypeError
        | Some m =>
            match dict_get m a with
            | None => Raise KeyError
            | Some i => Ok (Some i)
            end
        end
      else Ok None
  | None => Ok None
  end.

Definition get_assignment (p : params) (self : TextClust) (x : dict string R)
    (type : string) : result (TextClust * option Z) :=
  self <- _updateweights p self ;;
  idf <- _calculateIDF (dict_values (micro_clusters self)) ;;
  if (0 <? List.length x)%nat then
    let mc := microcluster.init x 1 1 None in
    '(_, closest) <- nearest p mc idf (micro_clusters self) Inf None ;;
    let assignment := closest in
    if String.eqb type "micro" then Ok (self, assignment)
    else
      self <- updateMacroClusters p self ;;
      r <- macro_of self assignment ;;
      Ok (self, r)
  else Ok (self, None).

Definition predict_one (p : params) (self : TextClust) (x : dict string R)
    (type : string) : result (TextClust * option Z) :=
  get_assignment p self x type.

(** ** Closed forms of the loops of [tfidf_cosine_distance]

    Used to state what the loops compute; the functions above are the
    code. *)

(** The contribution of one term of the first vector to the dot product. *)
Definition dot_term (b idf : dict string R) (k : string) (v : R) : R :=
  match dict_get idf k, dict_get b k with
  | Some i, Some w => (v * i) * (w * i)
  | _, _ => 0
  end.

(** The contribution of one term to the squared length of its vector,
    zero for a term unknown to [idf]. *)
Definition len_term (idf : dict string R) (k : string) (v : R) : R :=
  match dict_get idf k with
  | Some i => v * i * v * i
  | None => 0
  end.

Fixpoint dot (a b idf : dict string R) : R :=
  match a with
  | [] => 0
  | (k, v) :: a' => dot_term b idf k v + dot a' b idf
  end.

Fixpoint sq_len (a idf : dict string R) : R :=
  match a with
  | [] => 0
  | (k, v) :: a' => len_term idf k v + sq_len a' idf
  end.

(** The length of a term vector under a rarity weighting. *)
Definition norm (a idf : dict string R) : R := sqrt (sq_len a idf).

(** Every term of the vector has an entry in [idf]. *)
Definition covered (a idf : dict string R) : Prop :=
  forall k, In k (dict_keys a) -> dict_get idf k <> None.

(** No weight of the vector is negative. *)
Definition nonneg (a : dict string R) : Prop :=
  forall k v, In (k, v) a -> 0 <= v.

(** Every recorded document frequency is at least one. *)
Definition counts_positive (res : dict string Z) : Prop :=
  forall k c, In (k, c) res -> (1 <= c)%Z.

(** ** Invariants of the agglomerative scan *)

(** The scan has recorded a pair. *)
Definition pair_found (s : xreal * option (nat * nat)) : Prop := snd s <> None.

(** A recorded pair is a pair of indices [i < j] of the list of sets. *)
Definition pair_valid (len : nat) (s : xreal * option (nat * nat)) : Prop :=
  forall i j, snd s = Some (i, j) -> (i < j < len)%nat.

(** No set is empty. *)
Definition nonempty_sets (clusters : list (list Z)) : Prop :=
  Forall (fun g => g <> []) clusters.

(** ** The statistics of the adaptive merge threshold

    What a run of [learn_one] calls measures between two cleanups. *)

(** One for an observation that was merged into a stored cluster, zero for
    one that created a cluster. *)
Definition merged_flag (closest : option Z) : Z :=
  match closest with
  | Some _ => 1%Z
  | None => 0%Z
  end.

(** The entry of one call: nothing for an empty observation, else the
    minimum distance and the cluster chosen by [_get_closest_mc]. *)
Definition ingestion_entry (p : params) (self : TextClust) (x : dict string R) (now : R)
    (entry : list (R * option Z)) : Prop :=
  (x = [] /\ entry = [])
  \/ (x <> [] /\ exists closest d,
         closest_to p (with_clock self (Some now)) x now = Ok (closest, d)
         /\ entry = [(d, closest)]).

(** [quiet_run p self log self']: calls of the public methods lead from
    [self] to [self'] without running a cleanup, and the ingestions among
    them have the entries [log].  A step is a call of [learn_one] whose
    cleanup check fails, or a query between two ingestions: [predict_one]
    or [get_assignment] (the same call), [get_macroclusters] or
    [updateMacroClusters]. *)
Inductive quiet_run (p : params) : TextClust -> list (R * option Z) -> TextClust -> Prop :=
| quiet_nil (self : TextClust) : quiet_run p self [] self
| quiet_cons (self self1 self' : TextClust) (x : dict string R) (t' : option R)
    (now : R) (clusterId : option Z) (entry log : list (R * option Z)) :
    learn_one_ingest p self x t' = Ok (self1, now, clusterId) ->
    cleanup_due p self1 now = false ->
    ingestion_entry p self x now entry ->
    quiet_run p (with_n self1 (n self1 + 1)%Z) log self' ->
    quiet_run p self (entry ++ log) self'
| quiet_assignment (self self1 self' : TextClust) (x : dict string R) (type : string)
    (r : option Z) (log : list (R * option Z)) :
    predict_one p self x type = Ok (self1, r) ->
    quiet_run p self1 log self' ->
    quiet_run p self log self'
| quiet_macroclusters (self self1 self' : TextClust) (macros : dict Z microcluster.t)
    (log : list (R * option Z)) :
    get_macroclusters p self = Ok (self1, macros) ->
    quiet_run p self1 log self' ->
    quiet_run p self log self'
| quiet_recluster (self self1 self' : TextClust) (log : list (R * option Z)) :
    updateMacroClusters p self = Ok self1 ->
    quiet_run p self1 log self' ->
    quiet_run p self log self'.

(** The sum of the minimum distances of a log, of merged and of created
    observations alike. *)
Fixpoint total_distance (log : list (R * option Z)) : R :=
  match log with
  | [] => 0
  | (d, _) :: log' => d + total_distance log'
  end.

(** The sum of the minimum distances of the merged observations of a log
    only: the numerator the specification gives the threshold. *)
Fixpoint merged_distance (log : list (R * option Z)) : R :=
  match log with
  | [] => 0
  | (d, Some _) :: log' => d + merged_distance log'
  | (_, None) :: log' => merged_distance log'
  end.

(** The number of merged observations of a log. *)
Fixpoint merges (log : list (R * option Z)) : Z :=
  match log with
  | [] => 0%Z
  | (_, closest) :: log' => (merged_flag closest + merges log')%Z
  end.

(** ** Example data *)

(** A cluster created at time 1 from the observation [{"a": 1}]. *)
Definition example_cluster : microcluster.t :=
  microcluster.init [("a"%string, 1)] 1 1 (Some 0%Z).

(** A cluster created at time 1 from the observation [{"x": 1}]. *)
Definition example_cluster_x : microcluster.t :=
  microcluster.init [("x"%string, 1)] 1 1 (Some 1%Z).

(** The product of the weighted values of a term in two vectors. *)
Definition dot_pair (idf : dict string R) (k : string) (v w : R) : R :=
  match dict_get idf k with
  | Some i => (v * i) * (w * i)
  | None => 0
  end.

(** The sum of [g k v w] over the terms [k] that two vectors share, [v] and
    [w] being the weights of [k] in the first and in the second. *)
Fixpoint sum_common (g : string -> R -> R -> R) (a b : dict string R) : R :=
  match a with
  | [] => 0
  | (k, v) :: a' =>
      match dict_get b k with
      | Some w => g k v w + sum_common g a' b
      | None => sum_common g a' b
      end
  end.

(** A cluster created at time 1 from the observation [{"a": 1, "b": 1}]. *)
Definition example_cluster_ab : microcluster.t :=
  microcluster.init [("a"%string, 1); ("b"%string, 1)] 1 1 (Some 2%Z).

(** A rarity weighting for the terms of the example clusters. *)
Definition example_idf : dict string R :=
  [("a"%string, 1); ("b"%string, 2); ("x"%string, 1)].

(** Two stored micro-clusters. *)
Definition example_micros : dict Z microcluster.t :=
  [(0%Z, example_cluster); (1%Z, example_cluster_x)].

(** The parameters of the end-to-end scenario: merge radius 0.9, logical
    clock, decay rate 0, [tgap] 100 and a fixed threshold; the other
    parameters are left open. *)
Definition scenario_params (term_fading0 : bool) (num_macro0 : Z) (min_weight0 : R)
    (auto_merge0 : bool) (sigma0 : R) : params :=
  {| radius := 9 / 10; fading_factor := 0; tgap := 100; term_fading := term_fading0;
     real_time_fading := false; num_macro := num_macro0; min_weight := min_weight0;
     auto_r := false; auto_merge := auto_merge0; sigma := sigma0 |}.

(** The three observations of the scenario. *)
Definition obs1 : dict string R := [("a"%string, 1); ("b"%string, 1)].
Definition obs2 : dict string R := [("a"%string, 1); ("b"%string, 1); ("c"%string, 1)].
Definition obs3 : dict string R := [("x"%string, 1); ("y"%string, 1)].

(** The states of the scenario after each observation.  With term fading
    the decay floor [omega = 2^0 = 1] deletes the terms of weight 1 in the
    merge of the second observation. *)
Definition scenario_state1 : TextClust :=
  {| t := Some 1; last_cleanup := Some 0; n := 2%Z;
     micro_clusters := [(0%Z, microcluster.mk (Some 0%Z) 1 1 obs1 0 0 1%Z [])];
     microToMacro := None; _clusterId := 1%Z; _up_to_date := false;
     _dist_mean := 1; _num_merged_obs := 0%Z |}.

Definition scenario_merged (term_fading0 : bool) : microcluster.t :=
  microcluster.mk (Some 0%Z) 2 2
    (if term_fading0 then []
     else [("a"%string, 2); ("b"%string, 2); ("c"%string, 1)])
    0 0 2%Z [].

Definition scenario_state2 (term_fading0 : bool) : TextClust :=
  {| t := Some 2; last_cleanup := Some 0; n := 3%Z;
     micro_clusters := [(0%Z, scenario_merged term_fading0)];
     microToMacro := None; _clusterId := 1%Z; _up_to_date := false;
     _dist_mean := 1; _num_merged_obs := 1%Z |}.

Definition scenario_state3 (term_fading0 : bool) : TextClust :=
  {| t := Some 3; last_cleanup := Some 0; n := 4%Z;
     micro_clusters :=
       [(0%Z, scenario_merged term_fading0);
        (1%Z, microcluster.mk (Some 1%Z) 1 3 obs3 0 0 1%Z [])];
     microToMacro := None; _clusterId := 2%Z; _up_to_date := false;
     _dist_mean := 2; _num_merged_obs := 1%Z |}.

(** The default parameters but for the merge radius 0.9, the logical clock
    and the decay rate 0. *)
Definition plain_params : params := scenario_params true 3%Z 0 true 1.

(** A caller's loop [for x in xs: model.learn_one(x)]. *)
Fixpoint learn_all (p : params) (self : TextClust) (xs : list (dict string R))
  : result TextClust :=
  match xs with
  | [] => Ok self
  | x :: xs' =>
      '(self', _) <- learn_one p self x None ;;
      learn_all p self' xs'
  end.

(** The store after the observation [{"a": 2}] under [plain_params]. *)
Definition topic_a : TextClust :=
  {| t := Some 1; last_cleanup := Some 0; n := 2%Z;
     micro_clusters :=
       [(0%Z, microcluster.mk (Some 0%Z) 1 1 [("a"%string, 2)] 0 0 1%Z [])];
     microToMacro := None; _clusterId := 1%Z; _up_to_date := false;
     _dist_mean := 1; _num_merged_obs := 0%Z |}.

(** The store after the observations [{"a": 2}], [{"b": 2}]. *)
Definition topics_a_b : TextClust :=
  {| t := Some 2; last_cleanup := Some 0; n := 3%Z;
     micro_clusters :=
       [(0%Z, microcluster.mk (Some 0%Z) 1 1 [("a"%string, 2)] 0 0 1%Z []);
        (1%Z, microcluster.mk (Some 1%Z) 1 2 [("b"%string, 2)] 0 0 1%Z [])];
     microToMacro := None; _clusterId := 2%Z; _up_to_date := false;
     _dist_mean := 2; _num_merged_obs := 0%Z |}.

(** The store after the observations [{"a": 2}], [{"b": 2}], [{"b": 2}]
    under [plain_params]: cluster 0 holds the first observation, cluster 1
    the other two. *)
Definition two_topics : TextClust :=
  {| t := Some 3; last_cleanup := Some 0; n := 4%Z;
     micro_clusters :=
       [(0%Z, microcluster.mk (Some 0%Z) 1 1 [("a"%string, 2)] 0 0 1%Z []);
        (1%Z, microcluster.mk (Some 1%Z) 2 3 [("b"%string, 4)] 0 0 2%Z [])];
     microToMacro := None; _clusterId := 2%Z; _up_to_date := false;
     _dist_mean := 2; _num_merged_obs := 1%Z |}.

(** The store after the observations [{"a": 2}], [{"a": 2}] under
    [plain_params]: both are in cluster 0. *)
Definition one_topic : TextClust :=
  {| t := Some 2; last_cleanup := Some 0; n := 3%Z;
     micro_clusters :=
       [(0%Z, microcluster.mk (Some 0%Z) 2 2 [("a"%string, 4)] 0 0 2%Z [])];
     microToMacro := None; _clusterId := 1%Z; _up_to_date := false;
     _dist_mean := 1; _num_merged_obs := 1%Z |}.

(** What [_updateweights] leaves of [two_topics]: cluster 0 has weight 1,
    which is the decay floor, and is evicted. *)
Definition two_topics_survivors : dict Z microcluster.t :=
  [(1%Z, microcluster.mk (Some 1%Z) 2 3 [("b"%string, 4)] 0 0 2%Z [])].

(** A store of two clusters of two observations each, both heavier than
    the decay floor of [plain_params], and what [_updateweights] makes of
    it at time 4. *)
Definition two_pairs : TextClust :=
  {| t := Some 4; last_cleanup := Some 0; n := 5%Z;
     micro_clusters :=
       [(0%Z, microcluster.mk (Some 0%Z) 2 2 [("a"%string, 4)] 0 0 2%Z []);
        (1%Z, microcluster.mk (Some 1%Z) 2 4 [("b"%string, 4)] 0 0 2%Z [])];
     microToMacro := None; _clusterId := 2%Z; _up_to_date := false;
     _dist_mean := 2; _num_merged_obs := 2%Z |}.

Definition two_pairs_store : dict Z microcluster.t :=
  [(0%Z, microcluster.mk (Some 0%Z) 2 4 [("a"%string, 4)] 0 0 2%Z []);
   (1%Z, microcluster.mk (Some 1%Z) 2 4 [("b"%string, 4)] 0 0 2%Z [])].

(** A store of two clusters with the same term, each of two observations,
    and what a cleanup under [plain_params] makes of it: cluster 1 is merged
    into cluster 0. *)
Definition twin_pairs : TextClust :=
  {| t := Some 4; last_cleanup := Some 0; n := 5%Z;
     micro_clusters :=
       [(0%Z, microcluster.mk (Some 0%Z) 2 2 [("a"%string, 4)] 0 0 2%Z []);
        (1%Z, microcluster.mk (Some 1%Z) 2 4 [("a"%string, 4)] 0 0 2%Z [])];
     microToMacro := None; _clusterId := 2%Z; _up_to_date := false;
     _dist_mean := 2; _num_merged_obs := 2%Z |}.

Definition twin_pairs_cleaned : TextClust :=
  {| t := Some 4; last_cleanup := Some 4; n := 5%Z;
     micro_clusters :=
       [(0%Z, microcluster.mk (Some 0%Z) 4 4 [("a"%string, 8)] 2 2 2%Z [Some 1%Z])];
     microToMacro := None; _clusterId := 2%Z; _up_to_date := false;
     _dist_mean := 0; _num_merged_obs := 0%Z |}.

(** The one cluster of [one_topic], which every fade to time 2 leaves as it
    is. *)
Definition one_topic_store : dict Z microcluster.t :=
  [(0%Z, microcluster.mk (Some 0%Z) 2 2 [("a"%string, 4)] 0 0 2%Z [])].

(** [plain_params] with adaptive thresholding. *)
Definition adaptive_params : params :=
  {| radius := 9 / 10; fading_factor := 0; tgap := 100; term_fading := true;
     real_time_fading := false; num_macro := 3%Z; min_weight := 0;
     auto_r := true; auto_merge := true; sigma := 1 |}.

(** [adaptive_params] with a cleanup at every observation. *)
Definition eager_params : params :=
  {| radius := 9 / 10; fading_factor := 0; tgap := 1; term_fading := true;
     real_time_fading := false; num_macro := 3%Z; min_weight := 0;
     auto_r := true; auto_merge := true; sigma := 1 |}.

(** The store after the observations [{"a": 2}], [{"b": 2}], [{"a": 2}]
    under [adaptive_params]: the third one was merged into cluster 0, at
    distance 0. *)
Definition adaptive_three : TextClust :=
  {| t := Some 3; last_cleanup := Some 0; n := 4%Z;
     micro_clusters :=
       [(0%Z, microcluster.mk (Some 0%Z) 2 3 [("a"%string, 4)] 0 0 2%Z []);
        (1%Z, microcluster.mk (Some 1%Z) 1 2 [("b"%string, 2)] 0 0 1%Z [])];
     microToMacro := None; _clusterId := 2%Z; _up_to_date := false;
     _dist_mean := 2; _num_merged_obs := 1%Z |}.

(** [adaptive_three] after an assignment query: cluster 1, of weight 1, is
    evicted. *)
Definition adaptive_queried : TextClust :=
  {| t := Some 3; last_cleanup := Some 0; n := 4%Z;
     micro_clusters :=
       [(0%Z, microcluster.mk (Some 0%Z) 2 3 [("a"%string, 4)] 0 0 2%Z [])];
     microToMacro := None; _clusterId := 2%Z; _up_to_date := false;
     _dist_mean := 2; _num_merged_obs := 1%Z |}.

(** A new object after the ingestion of [{"a": 2}], before the cleanup
    check of that call: cluster 0 was created, at distance 1 from nothing. *)
Definition first_created : TextClust :=
  create_new (with_clock init (Some 1))
    (microcluster.init [("a"%string, 2)] 1 1 (Some 0%Z)) 1.

(** The same object at the end of the call when no cleanup was due. *)
Definition first_learned : TextClust :=
  with_n first_created (n first_created + 1)%Z.

(** [first_learned] after the ingestion of [{"b": 2}], before the cleanup
    check: cluster 1 was created, at distance 1 from cluster 0. *)
Definition second_created : TextClust :=
  create_new (with_clock first_learned (Some 2))
    (microcluster.init [("b"%string, 2)] 2 1 (Some 1%Z)) 1.

(** ** Quantities the further properties speak about *)

(** The document frequency of a term: the number of micro-clusters whose
    term vector has it. *)
Fixpoint contains_count (micros : list microcluster.t) (k : string) : Z :=
  match micros with
  | [] => 0%Z
  | micro :: micros' =>
      ((if dict_mem (microcluster.tf micro) k then 1 else 0)
       + contains_count micros' k)%Z
  end.

(** The count a frequency table holds for a term, zero without entry. *)
Definition count_of (res : dict string Z) (k : string) : Z :=
  match dict_get res k with
  | Some c => c
  | None => 0%Z
  end.

(** What the scan of [_get_closest_mc] knows after the clusters [seen]:
    [min_dist] is the least of 1 and their distances, and [smallest_key]
    is a cluster at that distance if one is closer than 1. *)
Definition scan_inv (mc : microcluster.t) (idf : dict string R)
    (seen : dict Z microcluster.t) (s : scan) : Prop :=
  min_dist s <= 1
  /\ (forall k m d, In (k, m) seen -> distances.dist mc m idf = Ok d -> min_dist s <= d)
  /\ (smallest_key s = None -> min_dist s = 1)
  /\ (forall k, smallest_key s = Some k ->
        min_dist s < 1
        /\ exists m, In (k, m) seen /\ distances.dist mc m idf = Ok (min_dist s)).

(** A micro-cluster takes part in the assignment query and in
    reclustering. *)
Definition qualifies (p : params) (micro : microcluster.t) : bool :=
  Rltb (min_weight p) (microcluster.weight micro).

(** What the search of [get_assignment] knows after the clusters [seen]. *)
Definition nearest_inv (p : params) (mc : microcluster.t) (idf : dict string R)
    (seen : dict Z microcluster.t) (r : xreal * option Z) : Prop :=
  (snd r = None ->
     fst r = Inf /\ forall k m, In (k, m) seen -> qualifies p m = false)
  /\ (forall k, snd r = Some k ->
        exists m d, In (k, m) seen /\ qualifies p m = true
                    /\ distances.dist mc m idf = Ok d /\ fst r = Finite d
                    /\ forall k' m' d', In (k', m') seen -> qualifies p m' = true ->
                         distances.dist mc m' idf = Ok d' -> d <= d').

(** The weight of a term after the loop of lines 582-587, absent terms
    counting zero. *)
Definition weight_of (d : dict string R) (k : string) : R :=
  match dict_get d k with
  | Some v => v
  | None => 0
  end.

(** ** Invariants of the store *)

(** A stored micro-cluster as the methods keep it: it carries its key as
    id, and its term vector is a dictionary of non-negative weights. *)
Definition cluster_ok (key : Z) (m : microcluster.t) : Prop :=
  microcluster.id m = Some key
  /\ dict_wf (microcluster.tf m)
  /\ nonneg (microcluster.tf m).

(** A store whose keys are distinct and below [bound]. *)
Definition clusters_ok (bound : Z) (micros : dict Z microcluster.t) : Prop :=
  dict_wf micros
  /\ forall k m, In (k, m) micros -> cluster_ok k m /\ (k < bound)%Z.

(** The object as [learn_one] keeps it: the keys of the store are distinct,
    every key is the id of its cluster and smaller than the next id to be
    given out, and a store with clusters has a clock. *)
Definition store_ok (self : TextClust) : Prop :=
  clusters_ok (_clusterId self) (micro_clusters self)
  /\ (micro_clusters self <> [] -> t self <> None).

(** What the sums of the scan of [_get_closest_mc] satisfy when every
    distance lies in [[0, 1]]: the inequalities between the sum and the sum
    of squares that keep the variance of lines 258-259 non-negative. *)
Definition stats_inv (s : scan) : Prop :=
  0 <= min_dist s <= 1
  /\ 0 <= squaresum s
  /\ sumdist s * sumdist s <= INR (counter s) * squaresum s
  /\ (counter s = 0%nat -> sumdist s = 0 /\ min_dist s = 1)
  /\ ((1 <= counter s)%nat ->
      (sumdist s - min_dist s) * (sumdist s - min_dist s)
      <= (INR (counter s) - 1) * (squaresum s - min_dist s * min_dist s)
      /\ 0 <= squaresum s - min_dist s * min_dist s).

(** ** Weights of stores and assignments *)

(** The sum of the weights of the stored micro-clusters. *)
Definition total_weight (micros : dict Z microcluster.t) : R :=
  fold_right (fun kv acc => microcluster.weight (snd kv) + acc) 0 micros.

(** The weight of the cluster stored under a key, zero without entry. *)
Definition stored_weight (micros : dict Z microcluster.t) (key : Z) : R :=
  match dict_get micros key with
  | Some m => microcluster.weight m
  | None => 0
  end.

(** The summed weight of the micro-clusters an assignment maps to the
    macro-cluster [i]. *)
Fixpoint assigned_weight (micros : dict Z microcluster.t) (items : dict Z Z) (i : Z) : R :=
  match items with
  | [] => 0
  | (key, value) :: items' =>
      (if (value =? i)%Z then stored_weight micros key else 0)
      + assigned_weight micros items' i
  end.

(** ** What the merge pass does to the clusters *)

(** The weight of a cluster of weight [w] after the clusters [absorbed] were
    merged into it one by one at a time when all of them are faded to the
    clock: the additions of line 575, in their order. *)
Definition absorbed_weight (w : R) (absorbed : list (Z * microcluster.t)) : R :=
  fold_left (fun acc kc => acc + microcluster.weight (snd kc)) absorbed w.

(** [absorbs part km]: the stored cluster [km] is the cluster [fst part]
    after the clusters [snd part] were merged into it in that order. *)
Definition absorbs (part : (Z * microcluster.t) * list (Z * microcluster.t))
    (km : Z * microcluster.t) : Prop :=
  fst km = fst (fst part)
  /\ microcluster.id (snd km) = microcluster.id (snd (fst part))
  /\ microcluster.weight (snd km)
     = absorbed_weight (microcluster.weight (snd (fst part))) (snd part)
  /\ microcluster.merged_ids (snd km)
     = microcluster.merged_ids (snd (fst part))
       ++ map (fun kc => microcluster.id (snd kc)) (snd part).

(** ** Times of the stored clusters *)

(** No stored cluster was updated after [now]: the decay exponents
    [-fading_factor * (now - time)] of a fade to [now] are not positive when
    the fading factor is not negative. *)
Definition times_ok (now : R) (micros : dict Z microcluster.t) : Prop :=
  forall k m, In (k, m) micros -> microcluster.time m <= now.

(** * Properties *)

(** ** Comparisons and the numeric functions *)

Lemma Rltb_true x y : x < y -> Rltb x y = true.
Proof. intros Hxy; unfold Rltb; destruct (Rlt_dec x y); [reflexivity | contradiction]. Qed.

Lemma Rltb_false x y : ~ x < y -> Rltb x y = false.
Proof. intros Hxy; unfold Rltb; destruct (Rlt_dec x y); [contradiction | reflexivity]. Qed.

Lemma Rltb_lt x y : Rltb x y = true <-> x < y.
Proof. unfold Rltb; destruct (Rlt_dec x y); split; intros; congruence || assumption. Qed.

Lemma Rleb_true x y : x <= y -> Rleb x y = true.
Proof. intros Hxy; unfold Rleb; destruct (Rle_dec x y); [reflexivity | contradiction]. Qed.

Lemma Rleb_false x y : ~ x <= y -> Rleb x y = false.
Proof. intros Hxy; unfold Rleb; destruct (Rle_dec x y); [contradiction | reflexivity]. Qed.

Lemma Rleb_le x y : Rleb x y = true <-> x <= y.
Proof. unfold Rleb; destruct (Rle_dec x y); split; intros; congruence || assumption. Qed.

Lemma Reqb_true x y : x = y -> Reqb x y = true.
Proof. intros Hxy; unfold Reqb; destruct (Req_dec_T x y); [reflexivity | contradiction]. Qed.

Lemma Reqb_false x y : x <> y -> Reqb x y = false.
Proof. intros Hxy; unfold Reqb; destruct (Req_dec_T x y); [contradiction | reflexivity]. Qed.

Lemma math_sqrt_nonneg x : 0 <= x -> math_sqrt x = Ok (sqrt x).
Proof. intros Hx; unfold math_sqrt; rewrite Rltb_false by lra; reflexivity. Qed.

Lemma math_log_pos x : 0 < x -> math_log x = Ok (ln x).
Proof. intros Hx; unfold math_log; rewrite Rltb_true by assumption; reflexivity. Qed.

Lemma pow2_0 : pow2 0 = 1.
Proof. unfold pow2; apply Rpower_O; lra. Qed.

Lemma pow2_add x y : pow2 (x + y) = pow2 x * pow2 y.
Proof. unfold pow2; apply Rpower_plus. Qed.

Lemma round_half_even_IZR z : round_half_even (IZR z) = z.
Proof.
  unfold round_half_even; rewrite ZfloorZ.
  rewrite Rltb_true by lra; reflexivity.
Qed.

Lemma round_half_even_bounds x :
  (Zfloor x <= round_half_even x <= Zfloor x + 1)%Z.
Proof.
  unfold round_half_even; cbv zeta.
  destruct (Rltb _ _); [lia|]; destruct (Rltb _ _); [lia|]; destruct (Z.even _); lia.
Qed.

Lemma round_half_even_mono x y : x <= y -> (round_half_even x <= round_half_even y)%Z.
Proof.
  intros Hxy.
  pose proof (Zfloor_le x y Hxy) as Hf.
  destruct (Z.eq_dec (Zfloor x) (Zfloor y)) as [He | Hne].
  - unfold round_half_even; cbv zeta; rewrite <- He.
    destruct (Rltb (x - IZR (Zfloor x)) (1 / 2)) eqn:Hx1.
    + destruct (Rltb (y - IZR (Zfloor x)) (1 / 2)); [lia|].
      destruct (Rltb (1 / 2) (y - IZR (Zfloor x))); [lia|]; destruct (Z.even _); lia.
    + assert (Hx1' : ~ x - IZR (Zfloor x) < 1 / 2)
        by (intros Hc; apply Rltb_lt in Hc; congruence).
      rewrite (Rltb_false (y - IZR (Zfloor x)) (1 / 2)) by lra.
      destruct (Rltb (1 / 2) (x - IZR (Zfloor x))) eqn:Hx2.
      * apply Rltb_lt in Hx2. rewrite (Rltb_true (1 / 2) (y - IZR (Zfloor x))) by lra. lia.
      * destruct (Rltb (1 / 2) (y - IZR (Zfloor x))); destruct (Z.even _); lia.
  - pose proof (round_half_even_bounds x); pose proof (round_half_even_bounds y); lia.
Qed.

Lemma pow10_IZR : 10 ^ 10 = IZR 10000000000.
Proof. simpl; lra. Qed.

Lemma round10_mono x y : x <= y -> round10 x <= round10 y.
Proof.
  intros Hxy; unfold round10; rewrite pow10_IZR.
  apply Rmult_le_compat_r; [lra|].
  apply IZR_le, round_half_even_mono.
  apply Rmult_le_compat_r; lra.
Qed.

Lemma round10_0 : round10 0 = 0.
Proof.
  unfold round10; rewrite Rmult_0_l, (round_half_even_IZR 0); lra.
Qed.

Lemma round10_1 : round10 1 = 1.
Proof.
  unfold round10; rewrite pow10_IZR, Rmult_1_l, round_half_even_IZR; lra.
Qed.

Lemma round10_unit x : 0 <= x <= 1 -> 0 <= round10 x <= 1.
Proof.
  intros [H0 H1]; split.
  - rewrite <- round10_0; apply round10_mono; assumption.
  - rewrite <- round10_1; apply round10_mono; assumption.
Qed.

(** ** Fading *)

Lemma fade_weight (c : microcluster.t) (now om ff : R) (tfade : bool) :
  microcluster.weight (microcluster.fade c now om ff tfade)
  = microcluster.weight c * pow2 (- ff * (now - microcluster.time c)).
Proof. reflexivity. Qed.

Lemma fade_time (c : microcluster.t) (now om ff : R) (tfade : bool) :
  microcluster.time (microcluster.fade c now om ff tfade) = now.
Proof. reflexivity. Qed.

(** Fading twice is fading once to the later time, whatever the two times. *)
Lemma fade_fade_weight (c : microcluster.t) (now1 now2 om ff : R) (tfade : bool) :
  microcluster.weight
    (microcluster.fade (microcluster.fade c now1 om ff tfade) now2 om ff tfade)
  = microcluster.weight (microcluster.fade c now2 om ff tfade).
Proof.
  rewrite !fade_weight, fade_time, Rmult_assoc, <- pow2_add.
  f_equal; f_equal; ring.
Qed.

(** In exact arithmetic: for a micro-cluster and times [now1 < now2], both
    at or after its last update time, fading to [now1] and then to [now2]
    gives the weight that fading directly to [now2] gives: the factors
    [2^(-l(now1 - t0))] and [2^(-l(now2 - now1))] multiply to
    [2^(-l(now2 - t0))]. *)
Theorem fade_composes (c : microcluster.t) (now1 now2 om ff : R) (tfade : bool) :
  microcluster.time c <= now1 ->
  now1 < now2 ->
  microcluster.weight
    (microcluster.fade (microcluster.fade c now1 om ff tfade) now2 om ff tfade)
  = microcluster.weight (microcluster.fade c now2 om ff tfade)
  /\ pow2 (- ff * (now1 - microcluster.time c)) * pow2 (- ff * (now2 - now1))
     = pow2 (- ff * (now2 - microcluster.time c)).
Proof.
  intros _ _; split.
  - apply fade_fade_weight.
  - rewrite <- pow2_add; f_equal; ring.
Qed.

Lemma fade_composes_witness :
  microcluster.time example_cluster <= 2 /\ 2 < 3 /\
  microcluster.weight
    (microcluster.fade (microcluster.fade example_cluster 2 (1/2) 1 true) 3 (1/2) 1 true)
  = microcluster.weight (microcluster.fade example_cluster 3 (1/2) 1 true).
Proof.
  assert (H1 : microcluster.time example_cluster <= 2) by (simpl; lra).
  assert (H2 : 2 < 3) by lra.
  split; [exact H1 | split; [exact H2 |]].
  exact (proj1 (fade_composes example_cluster 2 3 (1/2) 1 true H1 H2)).
Defined.

(** ** The TF-IDF cosine distance *)

Lemma len_term_nonneg idf k v : 0 <= len_term idf k v.
Proof.
  unfold len_term; destruct (dict_get idf k) as [i|]; [|lra].
  replace (v * i * v * i) with ((v * i) * (v * i)) by ring.
  apply Rle_0_sqr.
Qed.

Lemma sq_len_nonneg a idf : 0 <= sq_len a idf.
Proof.
  induction a as [|[k v] a IH]; simpl; [lra|].
  pose proof (len_term_nonneg idf k v); lra.
Qed.

(** The first loop computes the dot product and the squared length. *)
Lemma dot_and_len_closed a b idf s l :
  distances.dot_and_len a b idf s l = (s + dot a b idf, l + sq_len a idf).
Proof.
  revert s l; induction a as [|[k v] a IH]; intros s l; simpl.
  - f_equal; lra.
  - unfold dot_term, len_term.
    destruct (dict_get idf k) as [i|].
    + destruct (dict_get b k) as [w|]; rewrite IH; f_equal; lra.
    + rewrite IH; f_equal; lra.
Qed.

(** The second loop computes the squared length when every term is known
    to [idf]. *)
Lemma micro_len_closed b idf l :
  covered b idf -> distances.micro_len b idf l = Ok (l + sq_len b idf).
Proof.
  revert l; induction b as [|[k w] b IH]; intros l Hc; simpl.
  - f_equal; lra.
  - unfold len_term.
    destruct (dict_get idf k) as [i|] eqn:Hk.
    + rewrite IH.
      * f_equal; lra.
      * intros k' Hin; apply Hc; simpl; auto.
    + exfalso; apply (Hc k); simpl; auto.
Qed.

(** It raises [KeyError] at the first term that [idf] does not know. *)
Lemma micro_len_uncovered b idf l :
  ~ covered b idf -> distances.micro_len b idf l = Raise KeyError.
Proof.
  revert l; induction b as [|[k w] b IH]; intros l Hc; simpl.
  - exfalso; apply Hc; intros k [].
  - destruct (dict_get idf k) as [i|] eqn:Hk; [|reflexivity].
    apply IH; intros Hb; apply Hc.
    intros k' [<- | Hin]; [simpl; congruence | apply Hb, Hin].
Qed.

(** The value of the distance when the second vector is covered. *)
Lemma tfidf_cosine_distance_closed mc other idf :
  covered (microcluster.tf other) idf ->
  distances.tfidf_cosine_distance mc other idf =
  Ok (if Reqb (norm (microcluster.tf mc) idf) 0
         || Reqb (norm (microcluster.tf other) idf) 0
      then 1
      else round10 (1 - dot (microcluster.tf mc) (microcluster.tf other) idf
                        / (norm (microcluster.tf mc) idf
                           * norm (microcluster.tf other) idf))).
Proof.
  intros Hc; unfold distances.tfidf_cosine_distance, norm.
  rewrite dot_and_len_closed, !Rplus_0_l.
  rewrite math_sqrt_nonneg by apply sq_len_nonneg; simpl.
  rewrite micro_len_closed by assumption; simpl.
  rewrite Rplus_0_l, math_sqrt_nonneg by apply sq_len_nonneg; simpl.
  destruct (_ || _); reflexivity.
Qed.

(** The distance returns when the second vector is covered. *)
Lemma distance_total mc other idf :
  covered (microcluster.tf other) idf ->
  exists d : R, distances.tfidf_cosine_distance mc other idf = Ok d.
Proof.
  intros Hc; rewrite tfidf_cosine_distance_closed by assumption; eauto.
Qed.

(** C5, as the code has it.  The distance is a total function of two term
    vectors and a rarity weighting that has an entry for every term of the
    second vector: it returns a number. *)
Theorem tfidf_cosine_distance_total (mc other : microcluster.t) (idf : dict string R) :
  covered (microcluster.tf other) idf ->
  exists d : R, distances.tfidf_cosine_distance mc other idf = Ok d.
Proof.
  intros Hc; rewrite tfidf_cosine_distance_closed by assumption; eauto.
Qed.

(** C5 as stated fails: with [{"x": 1}] as second vector and an empty
    rarity weighting the second loop raises [KeyError]. *)
Lemma tfidf_cosine_distance_key_error :
  nonneg (microcluster.tf example_cluster) /\
  nonneg (microcluster.tf example_cluster_x) /\
  distances.tfidf_cosine_distance example_cluster example_cluster_x [] = Raise KeyError.
Proof.
  split; [|split].
  - intros k v [Hin | []]; inversion Hin; lra.
  - intros k v [Hin | []]; inversion Hin; lra.
  - unfold distances.tfidf_cosine_distance; simpl.
    rewrite math_sqrt_nonneg by lra; reflexivity.
Qed.

Lemma tfidf_cosine_distance_total_witness :
  covered (microcluster.tf example_cluster) [("a"%string, 1)] /\
  exists d : R,
    distances.tfidf_cosine_distance example_cluster_x example_cluster [("a"%string, 1)]
    = Ok d.
Proof.
  assert (Hc : covered (microcluster.tf example_cluster) [("a"%string, 1)]).
  { intros k [<- | []]; simpl; discriminate. }
  split; [exact Hc|].
  exact (tfidf_cosine_distance_total example_cluster_x example_cluster _ Hc).
Defined.

(** *** Dictionary lookups *)

Section DictFacts.
Context {K V : Type} `{Key K}.

Lemma key_eqb_refl (k : K) : key_eqb k k = true.
Proof. apply key_eqb_eq; reflexivity. Qed.

Lemma key_eqb_neq (a b : K) : a <> b -> key_eqb a b = false.
Proof.
  intros Hab; destruct (key_eqb a b) eqn:E; [|reflexivity].
  apply key_eqb_eq in E; contradiction.
Qed.

Lemma dict_get_not_in (d : dict K V) (k : K) :
  ~ In k (dict_keys d) -> dict_get d k = None.
Proof.
  induction d as [|[k' v'] d IH]; simpl; intros Hn; [reflexivity|].
  rewrite key_eqb_neq by (intros ->; apply Hn; auto).
  apply IH; intros Hin; apply Hn; auto.
Qed.

Lemma dict_get_in_keys (d : dict K V) (k : K) (v : V) :
  dict_get d k = Some v -> In k (dict_keys d).
Proof.
  induction d as [|[k' v'] d IH]; simpl; [discriminate|].
  destruct (key_eqb k k') eqn:E; intros Hg.
  - apply key_eqb_eq in E; auto.
  - right; apply IH, Hg.
Qed.

Lemma dict_get_some_in (d : dict K V) (k : K) (v : V) :
  dict_get d k = Some v -> In (k, v) d.
Proof.
  induction d as [|[k' v'] d IH]; simpl; [discriminate|].
  destruct (key_eqb k k') eqn:E; intros Hg.
  - apply key_eqb_eq in E; left; congruence.
  - right; apply IH, Hg.
Qed.

Lemma dict_get_in (d : dict K V) (k : K) (v : V) :
  dict_wf d -> In (k, v) d -> dict_get d k = Some v.
Proof.
  unfold dict_wf; induction d as [|[k' v'] d IH]; simpl; intros Hnd Hin; [contradiction|].
  inversion Hnd as [|? ? Hnot Hnd']; subst.
  destruct Hin as [Heq | Hin].
  - inversion Heq; subst; rewrite key_eqb_refl; reflexivity.
  - rewrite key_eqb_neq; [apply IH; assumption|].
    intros ->; apply Hnot.
    change (In k' (map fst d)); apply (in_map fst) in Hin; exact Hin.
Qed.

Lemma dict_keys_in (d : dict K V) (k : K) :
  In k (dict_keys d) -> exists v, dict_get d k = Some v.
Proof.
  induction d as [|[k' v'] d IH]; simpl; [contradiction|].
  intros Hin; destruct (key_eqb k k') eqn:E; [eauto|].
  destruct Hin as [-> | Hin]; [rewrite key_eqb_refl in E; discriminate | auto].
Qed.

Lemma dict_get_del_other (d : dict K V) (k k' : K) :
  k' <> k -> dict_get (dict_del d k) k' = dict_get d k'.
Proof.
  intros Hne; induction d as [|[k0 v0] d IH]; simpl; [reflexivity|].
  destruct (key_eqb k k0) eqn:E1.
  - apply key_eqb_eq in E1; subst k0.
    rewrite key_eqb_neq by assumption; reflexivity.
  - simpl; destruct (key_eqb k' k0); [reflexivity | apply IH].
Qed.

End DictFacts.

(** *** Sums over the common terms of two vectors *)

(** [sum_common g a b]: the sum of [g k v w] over the terms [k] of [a],
    with weight [v], that [b] has too, with weight [w]. *)
Lemma dot_as_sum a b idf : dot a b idf = sum_common (dot_pair idf) a b.
Proof.
  induction a as [|[k v] a IH]; simpl; [reflexivity|].
  rewrite IH; unfold dot_term, dot_pair.
  destruct (dict_get idf k), (dict_get b k); lra.
Qed.

Lemma sum_common_skip g a b k w :
  ~ In k (dict_keys a) -> sum_common g a ((k, w) :: b) = sum_common g a b.
Proof.
  induction a as [|[k' v'] a IH]; cbn [sum_common dict_get dict_del dict_keys map fst In]; intros Hn; [reflexivity|].
  rewrite key_eqb_neq by (intros ->; apply Hn; auto).
  rewrite IH; [reflexivity | intros Hin; apply Hn; auto].
Qed.

Lemma sum_common_cons_r g a b k w :
  dict_wf a ->
  sum_common g a ((k, w) :: b)
  = match dict_get a k with
    | Some v => g k v w + sum_common g (dict_del a k) b
    | None => sum_common g a b
    end.
Proof.
  unfold dict_wf; induction a as [|[k' v'] a IH]; cbn [sum_common dict_get dict_del dict_keys map fst In]; intros Hnd; [reflexivity|].
  inversion Hnd as [|? ? Hnot Hnd']; subst.
  destruct (key_eqb k' k) eqn:E.
  - apply key_eqb_eq in E; subst k'.
    rewrite key_eqb_refl, sum_common_skip by assumption; reflexivity.
  - assert (E' : key_eqb k k' = false).
    { apply key_eqb_neq; intros ->; rewrite key_eqb_refl in E; discriminate. }
    rewrite E', IH by assumption.
    destruct (dict_get a k); cbn [sum_common]; destruct (dict_get b k'); lra.
Qed.

Lemma dict_del_keys_incl (a : dict string R) k k' :
  In k' (dict_keys (dict_del a k)) -> In k' (dict_keys a).
Proof.
  induction a as [|[k0 v0] a IH]; cbn [sum_common dict_get dict_del dict_keys map fst In]; [auto|].
  destruct (key_eqb k k0); cbn [sum_common dict_get dict_del dict_keys map fst In]; intuition.
Qed.

Lemma dict_del_wf (a : dict string R) k : dict_wf a -> dict_wf (dict_del a k).
Proof.
  unfold dict_wf; induction a as [|[k0 v0] a IH]; cbn [sum_common dict_get dict_del dict_keys map fst In]; intros Hnd; [constructor|].
  inversion Hnd as [|? ? Hnot Hnd']; subst.
  destruct (key_eqb k k0); [assumption|].
  cbn [sum_common dict_get dict_del dict_keys map fst In]; constructor; [|apply IH; assumption].
  intros Hin; apply Hnot, (dict_del_keys_incl a k), Hin.
Qed.

Lemma sum_common_del_r g a b k :
  ~ In k (dict_keys a) -> sum_common g a (dict_del b k) = sum_common g a b.
Proof.
  induction a as [|[k' v'] a IH]; cbn [sum_common dict_keys map fst In]; intros Hn;
    [reflexivity|].
  rewrite IH by (intros Hin; apply Hn; auto).
  rewrite dict_get_del_other by (intros ->; apply Hn; auto).
  reflexivity.
Qed.

(** Summing over the first vector or over the second is the same. *)
Lemma sum_common_sym g a b :
  dict_wf a -> dict_wf b ->
  sum_common g a b = sum_common (fun k w v => g k v w) b a.
Proof.
  intros Ha; revert b; unfold dict_wf in Ha.
  induction a as [|[k v] a IH]; intros b Hb; cbn [sum_common dict_get dict_del dict_keys map fst In].
  - clear; induction b as [|[k w] b IHb]; cbn [sum_common dict_get dict_del dict_keys map fst In]; [reflexivity | assumption].
  - inversion Ha as [|? ? Hnot Ha']; subst.
    rewrite sum_common_cons_r by assumption.
    destruct (dict_get b k) as [w|].
    + rewrite <- IH by (try assumption; apply dict_del_wf; assumption).
      rewrite sum_common_del_r by assumption; reflexivity.
    + apply IH; assumption.
Qed.

(** The dot product is symmetric. *)
Lemma dot_sym a b idf : dict_wf a -> dict_wf b -> dot a b idf = dot b a idf.
Proof.
  intros Ha Hb; rewrite !dot_as_sum, (sum_common_sym _ a b) by assumption.
  clear; induction b as [|[k w] b IH]; cbn [sum_common dict_get dict_del dict_keys map fst In]; [reflexivity|].
  rewrite IH; destruct (dict_get a k); [|reflexivity].
  f_equal; unfold dot_pair; destruct (dict_get idf k); [ring | reflexivity].
Qed.

(** *** Bounds *)

Lemma dot_self a idf : dict_wf a -> dot a a idf = sq_len a idf.
Proof.
  intros Hwf.
  assert (Hall : forall a0, (forall k v, In (k, v) a0 -> dict_get a k = Some v) ->
                            dot a0 a idf = sq_len a0 idf).
  { induction a0 as [|[k v] a0 IH]; intros Hin; cbn [dot sq_len]; [reflexivity|].
    rewrite IH by (intros k' v' Hin'; apply Hin; right; assumption).
    f_equal; unfold dot_term, len_term.
    rewrite (Hin k v) by (left; reflexivity).
    destruct (dict_get idf k); ring. }
  apply Hall; intros k v Hin; apply dict_get_in; assumption.
Qed.

Lemma dot_nonneg a b idf : nonneg a -> nonneg b -> 0 <= dot a b idf.
Proof.
  intros Ha Hb; induction a as [|[k v] a IH]; cbn [dot]; [lra|].
  assert (0 <= dot a b idf) by (apply IH; intros k' v' Hin; apply (Ha k'); right; assumption).
  assert (0 <= dot_term b idf k v); [|lra].
  unfold dot_term; destruct (dict_get idf k) as [i|]; [|lra].
  destruct (dict_get b k) as [w|] eqn:Hw; [|lra].
  apply dict_get_some_in in Hw.
  pose proof (Ha k v (or_introl eq_refl)); pose proof (Hb k w Hw).
  replace (v * i * (w * i)) with ((v * w) * (i * i)) by ring.
  apply Rmult_le_pos; [apply Rmult_le_pos; assumption | apply Rle_0_sqr].
Qed.

(** The squared length of the part of [b] that [a] shares. *)
Lemma shared_len_le a b idf :
  dict_wf a -> dict_wf b ->
  sum_common (fun k _ w => len_term idf k w) a b <= sq_len b idf.
Proof.
  intros Ha Hb; rewrite sum_common_sym by assumption.
  clear; induction b as [|[k w] b IH]; cbn [sum_common sq_len]; [lra|].
  pose proof (len_term_nonneg idf k w).
  destruct (dict_get a k); lra.
Qed.

(** [sum (t x - y)^2 >= 0], the sum being over the terms of [a]. *)
Lemma quadratic_nonneg a b idf t :
  0 <= t * t * sq_len a idf - 2 * t * dot a b idf
       + sum_common (fun k _ w => len_term idf k w) a b.
Proof.
  induction a as [|[k v] a IH]; cbn [sq_len dot sum_common]; [lra|].
  set (Y := sum_common _ a b) in *; set (X := sq_len a idf) in *.
  set (S := dot a b idf) in *.
  unfold dot_term, len_term.
  destruct (dict_get idf k) as [i|], (dict_get b k) as [w|]; try lra.
  - pose proof (Rle_0_sqr (t * (v * i) - w * i)) as Hsq; unfold Rsqr in Hsq; nra.
  - pose proof (Rle_0_sqr (t * (v * i))) as Hsq; unfold Rsqr in Hsq; nra.
Qed.

Lemma discriminant X S Y :
  0 <= X -> (forall t, 0 <= t * t * X - 2 * t * S + Y) -> S * S <= X * Y.
Proof.
  intros HX HQ.
  destruct (Req_dec X 0) as [-> | HX0].
  - destruct (Req_dec S 0) as [-> | HS0]; [lra|].
    specialize (HQ ((Y + 1) / (2 * S))).
    replace (2 * ((Y + 1) / (2 * S)) * S) with (Y + 1) in HQ by (field; assumption).
    lra.
  - specialize (HQ (S / X)).
    replace (S / X * (S / X) * X - 2 * (S / X) * S + Y)
      with ((X * Y - S * S) / X) in HQ by (field; assumption).
    assert (0 < X) by lra.
    apply (Rmult_le_compat_r X) in HQ; [|lra].
    unfold Rdiv in HQ; rewrite Rmult_assoc, Rinv_l in HQ by assumption; lra.
Qed.

(** Cauchy-Schwarz for the weighted vectors. *)
Lemma dot_le_norms a b idf :
  dict_wf a -> dict_wf b -> nonneg a -> nonneg b ->
  dot a b idf <= norm a idf * norm b idf.
Proof.
  intros Ha Hb Hna Hnb; unfold norm.
  pose proof (sq_len_nonneg a idf) as HX.
  pose proof (sq_len_nonneg b idf) as HY.
  pose proof (dot_nonneg a b idf Hna Hnb) as HS.
  pose proof (shared_len_le a b idf Ha Hb) as Hsh.
  pose proof (discriminant _ _ _ HX (quadratic_nonneg a b idf)) as Hd.
  rewrite <- sqrt_mult by assumption.
  rewrite <- (sqrt_square (dot a b idf)) by assumption.
  apply sqrt_le_1; nra.
Qed.

Lemma distance_value_unit a b idf :
  dict_wf a -> dict_wf b -> nonneg a -> nonneg b ->
  norm a idf <> 0 -> norm b idf <> 0 ->
  0 <= 1 - dot a b idf / (norm a idf * norm b idf) <= 1.
Proof.
  intros Ha Hb Hna Hnb H1 H2.
  pose proof (dot_le_norms a b idf Ha Hb Hna Hnb) as Hcs.
  pose proof (dot_nonneg a b idf Hna Hnb) as HS.
  assert (Hpos : 0 < norm a idf * norm b idf).
  { unfold norm in *.
    pose proof (sqrt_pos (sq_len a idf)); pose proof (sqrt_pos (sq_len b idf)).
    apply Rmult_lt_0_compat; lra. }
  assert (0 <= dot a b idf / (norm a idf * norm b idf) <= 1); [|lra].
  split.
  - apply Rmult_le_pos; [assumption | left; apply Rinv_0_lt_compat; assumption].
  - apply (Rmult_le_reg_r (norm a idf * norm b idf)); [assumption|].
    unfold Rdiv; rewrite Rmult_assoc, Rinv_l by lra; lra.
Qed.

(** In exact arithmetic: for term vectors [A] and [B] with non-negative
    weights whose terms all have entries in the rarity weighting, the
    distance lies in [[0, 1]], the two directions agree, and the distance of
    [A] from itself is 0 when [A] has nonzero norm under the weighting. *)
Theorem tfidf_cosine_distance_bounds_sym (A B : microcluster.t) (idf : dict string R) :
  dict_wf (microcluster.tf A) -> dict_wf (microcluster.tf B) ->
  nonneg (microcluster.tf A) -> nonneg (microcluster.tf B) ->
  covered (microcluster.tf A) idf -> covered (microcluster.tf B) idf ->
  exists dab daa : R,
    distances.tfidf_cosine_distance A B idf = Ok dab
    /\ distances.tfidf_cosine_distance B A idf = Ok dab
    /\ 0 <= dab <= 1
    /\ distances.tfidf_cosine_distance A A idf = Ok daa
    /\ (norm (microcluster.tf A) idf <> 0 -> daa = 0).
Proof.
  intros Ha Hb Hna Hnb Hca Hcb.
  rewrite !tfidf_cosine_distance_closed by assumption.
  eexists; eexists; split; [reflexivity|]; split; [|split; [|split; [reflexivity|]]].
  - rewrite orb_comm, (dot_sym _ _ idf Hb Ha), (Rmult_comm (norm (microcluster.tf B) idf)).
    reflexivity.
  - destruct (Reqb (norm (microcluster.tf A) idf) 0) eqn:E1; [simpl; lra|].
    destruct (Reqb (norm (microcluster.tf B) idf) 0) eqn:E2; [simpl; lra|].
    simpl; apply round10_unit, distance_value_unit; try assumption.
    + intros Hc; rewrite (Reqb_true _ _ Hc) in E1; discriminate.
    + intros Hc; rewrite (Reqb_true _ _ Hc) in E2; discriminate.
  - intros Hn; rewrite (Reqb_false _ _ Hn); simpl.
    rewrite dot_self by assumption.
    unfold norm in *; rewrite sqrt_sqrt by apply sq_len_nonneg.
    replace (1 - _ / _) with 0; [apply round10_0|].
    assert (sq_len (microcluster.tf A) idf <> 0)
      by (intros Hz; apply Hn; rewrite Hz; apply sqrt_0).
    field; assumption.
Qed.

Lemma tfidf_cosine_distance_bounds_sym_witness :
  exists dab daa : R,
    distances.tfidf_cosine_distance example_cluster example_cluster_ab example_idf = Ok dab
    /\ distances.tfidf_cosine_distance example_cluster_ab example_cluster example_idf = Ok dab
    /\ 0 <= dab <= 1
    /\ distances.tfidf_cosine_distance example_cluster example_cluster example_idf = Ok daa
    /\ (norm (microcluster.tf example_cluster) example_idf <> 0 -> daa = 0).
Proof.
  apply (tfidf_cosine_distance_bounds_sym example_cluster example_cluster_ab example_idf).
  - repeat constructor; simpl; intuition discriminate.
  - repeat constructor; simpl; intuition discriminate.
  - intros k v Hin; simpl in Hin.
    destruct Hin as [Hin | []]; inversion Hin; lra.
  - intros k v Hin; simpl in Hin.
    destruct Hin as [Hin | [Hin | []]]; inversion Hin; lra.
  - intros k Hin; simpl in Hin.
    destruct Hin as [<- | []]; simpl; discriminate.
  - intros k Hin; simpl in Hin.
    destruct Hin as [<- | [<- | []]]; simpl; discriminate.
Defined.

(** ** The rarity weighting *)

Section DictSet.
Context {K V : Type} `{Key K}.

Lemma dict_set_keys (d : dict K V) (k k' : K) (v : V) :
  In k' (dict_keys (dict_set d k v)) <-> k' = k \/ In k' (dict_keys d).
Proof.
  induction d as [|[k0 v0] d IH]; simpl.
  - intuition.
  - destruct (key_eqb k k0) eqn:E; simpl.
    + apply key_eqb_eq in E; subst; intuition.
    + rewrite IH; intuition.
Qed.

Lemma dict_set_in (d : dict K V) (k k' : K) (v v' : V) :
  In (k', v') (dict_set d k v) -> v' = v \/ In (k', v') d.
Proof.
  induction d as [|[k0 v0] d IH]; simpl.
  - intros [Heq | []]; inversion Heq; auto.
  - destruct (key_eqb k k0) eqn:E; simpl.
    + intros [Heq | Hin]; [inversion Heq; auto | auto].
    + intros [Heq | Hin]; [auto | destruct (IH Hin); auto].
Qed.

Lemma dict_get_set_same (d : dict K V) (k : K) (v : V) :
  dict_get (dict_set d k v) k = Some v.
Proof.
  induction d as [|[k0 v0] d IH]; simpl.
  - rewrite key_eqb_refl; reflexivity.
  - destruct (key_eqb k k0) eqn:E; simpl; rewrite E; [reflexivity | exact IH].
Qed.

Lemma dict_get_set_other (d : dict K V) (k k' : K) (v : V) :
  k' <> k -> dict_get (dict_set d k v) k' = dict_get d k'.
Proof.
  intros Hne; induction d as [|[k0 v0] d IH]; simpl.
  - rewrite key_eqb_neq by assumption; reflexivity.
  - destruct (key_eqb k k0) eqn:E; simpl.
    + apply key_eqb_eq in E; subst k0.
      rewrite key_eqb_neq by assumption; reflexivity.
    + destruct (key_eqb k' k0); [reflexivity | exact IH].
Qed.

Lemma dict_set_keys_present (d : dict K V) (k : K) (v : V) :
  In k (dict_keys d) -> dict_keys (dict_set d k v) = dict_keys d.
Proof.
  induction d as [|[k0 v0] d IH]; simpl; [contradiction|].
  destruct (key_eqb k k0) eqn:E; simpl; [reflexivity|].
  intros [-> | Hin]; [rewrite key_eqb_refl in E; discriminate|].
  f_equal; apply IH, Hin.
Qed.

Lemma dict_set_keys_absent (d : dict K V) (k : K) (v : V) :
  ~ In k (dict_keys d) -> dict_keys (dict_set d k v) = dict_keys d ++ [k].
Proof.
  induction d as [|[k0 v0] d IH]; simpl; [reflexivity|].
  intros Hn; rewrite key_eqb_neq by (intros ->; apply Hn; auto).
  simpl; f_equal; apply IH; intros Hin; apply Hn; auto.
Qed.

End DictSet.

Lemma count_terms_spec terms res :
  counts_positive res ->
  counts_positive (count_terms terms res)
  /\ forall k, In k (dict_keys terms) \/ In k (dict_keys res) ->
               In k (dict_keys (count_terms terms res)).
Proof.
  revert res; induction terms as [|[k v] terms IH]; intros res Hpos;
    cbn [count_terms].
  - split; [assumption | intros k [[] | Hin]; assumption].
  - assert (Hstep : forall c, (1 <= c)%Z -> counts_positive (dict_set res k c)).
    { intros c Hc k' c' Hin; apply dict_set_in in Hin as [-> | Hin]; eauto. }
    destruct (dict_get res k) as [c|] eqn:Hk.
    + apply dict_get_some_in, Hpos in Hk.
      destruct (IH (dict_set res k (c + 1)%Z)) as [IH1 IH2]; [apply Hstep; lia|].
      split; [assumption|].
      intros k' Hin; apply IH2; rewrite dict_set_keys.
      cbn [dict_keys map fst In] in Hin; intuition.
    + destruct (IH (dict_set res k 1%Z)) as [IH1 IH2]; [apply Hstep; lia|].
      split; [assumption|].
      intros k' Hin; apply IH2; rewrite dict_set_keys.
      cbn [dict_keys map fst In] in Hin; intuition.
Qed.

Lemma document_frequency_spec micros res :
  counts_positive res ->
  counts_positive (document_frequency micros res)
  /\ (forall k, In k (dict_keys res) -> In k (dict_keys (document_frequency micros res)))
  /\ forall micro k, In micro micros -> In k (dict_keys (microcluster.tf micro)) ->
                     In k (dict_keys (document_frequency micros res)).
Proof.
  revert res; induction micros as [|m micros IH]; intros res Hpos;
    cbn [document_frequency].
  - split; [assumption | split; [auto | intros ? ? []]].
  - destruct (count_terms_spec (microcluster.tf m) res Hpos) as [C1 C2].
    destruct (IH _ C1) as [IH1 [IH2 IH3]].
    split; [assumption | split].
    + intros k Hin; apply IH2, C2; auto.
    + intros micro k [<- | Hin] Hk; [apply IH2, C2; auto | eapply IH3; eauto].
Qed.

Lemma idf_of_counts_ok len_micros res :
  counts_positive res -> (res <> [] -> (1 <= len_micros)%nat) ->
  exists idf, idf_of_counts len_micros res = Ok idf
              /\ dict_keys idf = dict_keys res.
Proof.
  induction res as [|[k c] res IH]; intros Hpos Hlen; cbn [idf_of_counts].
  - exists []; split; reflexivity.
  - assert (Hc : (1 <= c)%Z) by (apply (Hpos k); left; reflexivity).
    assert (Hn : (1 <= len_micros)%nat) by (apply Hlen; discriminate).
    rewrite math_log_pos.
    + destruct IH as [idf [Hidf Hkeys]].
      * intros k' c' Hin; apply (Hpos k'); right; assumption.
      * intros _; assumption.
      * rewrite Hidf; cbn [bind].
        eexists; split; [reflexivity|].
        cbn [dict_keys map fst]; f_equal; exact Hkeys.
    + apply Rdiv_lt_0_compat; apply IZR_lt; lia.
Qed.

(** [_calculateIDF] returns, and the weighting has an entry for every term
    of every cluster it was computed from. *)
Lemma calculateIDF_ok micros :
  exists idf, _calculateIDF micros = Ok idf
              /\ forall micro, In micro micros -> covered (microcluster.tf micro) idf.
Proof.
  unfold _calculateIDF.
  assert (Hpos0 : counts_positive []) by (intros ? ? []).
  destruct (document_frequency_spec micros [] Hpos0) as [D1 [_ D3]].
  destruct (idf_of_counts_ok (List.length micros) _ D1) as [idf [Hidf Hkeys]].
  - destruct micros; [intros Hne; exfalso; apply Hne; reflexivity | simpl; lia].
  - exists idf; split; [assumption|].
    intros micro Hin k Hk.
    specialize (D3 micro k Hin Hk); rewrite <- Hkeys in D3.
    destruct (dict_keys_in _ _ D3) as [v Hv]; congruence.
Qed.

(** ** Agglomerative clustering *)

Lemma bind_ok {A B : Type} (c : result A) (k : A -> result B) (b : B) :
  bind c k = Ok b -> exists a, c = Ok a /\ k a = Ok b.
Proof. destruct c; simpl; intros Hb; try discriminate; eauto. Qed.

Lemma fold_left_invariant {A B : Type} (f : A -> B -> A) (P : A -> Prop) (l : list B) :
  forall a, P a -> (forall a x, In x l -> P a -> P (f a x)) -> P (fold_left f l a).
Proof.
  induction l as [|x l IH]; intros a Ha Hf; simpl; [assumption|].
  apply IH; [apply Hf; [left; reflexivity | assumption]|].
  intros a' x' Hin; apply Hf; right; assumption.
Qed.

(** The distance matrix of clusters whose terms the weighting covers. *)
Lemma fill_row_ok idf row crow cols dm :
  (forall c, In c (dict_values cols) -> covered (microcluster.tf c) idf) ->
  exists dm', fill_row idf row crow cols dm = Ok dm'.
Proof.
  revert dm; induction cols as [|[col ccol] cols IH]; intros dm Hc; cbn [fill_row].
  - eauto.
  - destruct (distance_total crow ccol idf) as [d Hd].
    + apply Hc; left; reflexivity.
    + unfold distances.dist; rewrite Hd; cbn [bind].
      apply IH; intros c Hin; apply Hc; right; assumption.
Qed.

Lemma fill_matrix_ok idf clusters dm :
  (forall c, In c (dict_values clusters) -> covered (microcluster.tf c) idf) ->
  exists dm', fill_matrix idf clusters dm = Ok dm'.
Proof.
  revert dm; induction clusters as [|[row crow] rest IH]; intros dm Hc;
    cbn [fill_matrix].
  - eauto.
  - destruct (fill_row_ok idf row crow rest dm) as [dm1 H1].
    + intros c Hin; apply Hc; right; assumption.
    + rewrite H1; cbn [bind]; apply IH.
      intros c Hin; apply Hc; right; assumption.
Qed.

Lemma get_distance_matrix_ok clusters :
  exists distm, _get_distance_matrix clusters = Ok distm.
Proof.
  unfold _get_distance_matrix.
  destruct (calculateIDF_ok (dict_values clusters)) as [idf [Hidf Hcov]].
  rewrite Hidf; cbn [bind]; apply fill_matrix_ok; assumption.
Qed.

(** *** The closest pair of sets *)

Lemma member_scan_found distm i j gi gj s :
  pair_found s -> pair_found (member_scan distm i j gi gj s).
Proof.
  intros Hs; unfold member_scan.
  apply (fold_left_invariant _ pair_found); [assumption|]; intros a c_i _ Ha.
  apply (fold_left_invariant _ pair_found); [assumption|]; intros a' c_j _ Ha'.
  destruct (xltb _ _); [discriminate | assumption].
Qed.

Lemma member_scan_valid distm len i j gi gj s :
  (i < j < len)%nat -> pair_valid len s -> pair_valid len (member_scan distm i j gi gj s).
Proof.
  intros Hij Hs; unfold member_scan.
  apply (fold_left_invariant _ (pair_valid len)); [assumption|]; intros a c_i _ Ha.
  apply (fold_left_invariant _ (pair_valid len)); [assumption|]; intros a' c_j _ Ha'.
  destruct (xltb _ _); [|assumption].
  intros i' j' Heq; inversion Heq; subst; assumption.
Qed.

Lemma member_scan_first distm i j gi gj :
  gi <> [] -> gj <> [] -> pair_found (member_scan distm i j gi gj (Inf, None)).
Proof.
  intros Hi Hj; destruct gi as [|c_i gi]; [contradiction|].
  destruct gj as [|c_j gj]; [contradiction|].
  unfold member_scan; cbn [fold_left fst xltb].
  apply (fold_left_invariant _ pair_found).
  - apply (fold_left_invariant _ pair_found); [discriminate|]; intros a' c _ Ha'.
    destruct (xltb _ _); [discriminate | assumption].
  - intros a c _ Ha.
    apply (fold_left_invariant _ pair_found).
    + destruct (xltb _ _); [discriminate | assumption].
    + intros a' c' _ Ha'.
      destruct (xltb _ _); [discriminate | assumption].
Qed.

Lemma nonempty_nth clusters i :
  nonempty_sets clusters -> (i < List.length clusters)%nat -> nth i clusters [] <> [].
Proof.
  intros Hne Hi; unfold nonempty_sets in Hne; rewrite Forall_forall in Hne.
  apply Hne, nth_In, Hi.
Qed.

(** With two sets or more the scan finds a pair of indices [i < j]. *)
Lemma closest_pair_found distm clusters :
  nonempty_sets clusters -> (2 <= List.length clusters)%nat ->
  exists i j, snd (closest_pair distm clusters) = Some (i, j)
              /\ (i < j < List.length clusters)%nat.
Proof.
  intros Hne Hlen.
  assert (Hboth : pair_found (closest_pair distm clusters)
                  /\ pair_valid (List.length clusters) (closest_pair distm clusters)).
  { unfold closest_pair.
    remember (List.length clusters) as len eqn:Elen.
    destruct len as [|[|m]]; try lia.
    replace (S (S m) - 1)%nat with (S m) by lia.
    cbn [seq fold_left].
    replace (S (S m) - (0 + 1))%nat with (S m) by lia.
    cbn [seq fold_left Nat.add].
    set (s1 := member_scan distm 0 1 (nth 0 clusters []) (nth 1 clusters []) (Inf, None)).
    assert (Hs1 : pair_found s1 /\ pair_valid (S (S m)) s1).
    { split.
      - apply member_scan_first; apply nonempty_nth; try assumption; lia.
      - apply member_scan_valid; [lia|]; intros i j Heq; discriminate. }
    assert (Hinner : forall i l s, (forall j, In j l -> (i < j < S (S m))%nat) ->
              pair_found s /\ pair_valid (S (S m)) s ->
              let s' := fold_left
                 (fun s j => member_scan distm i j (nth i clusters []) (nth j clusters []) s)
                 l s in
              pair_found s' /\ pair_valid (S (S m)) s').
    { intros i l s Hl Hs.
      apply (fold_left_invariant _ (fun s => pair_found s /\ pair_valid (S (S m)) s));
        [assumption|].
      intros a j Hj [Ha1 Ha2]; split;
        [apply member_scan_found | apply member_scan_valid]; auto. }
    apply (fold_left_invariant _ (fun s => pair_found s /\ pair_valid (S (S m)) s)).
    - apply Hinner; [|assumption].
      intros j Hj; apply in_seq in Hj; lia.
    - intros a i Hi Ha; apply in_seq in Hi.
      apply Hinner; [|assumption].
      intros j Hj; apply in_seq in Hj; lia. }
  destruct Hboth as [Hf Hv]; unfold pair_found in Hf.
  destruct (snd (closest_pair distm clusters)) as [[i j]|] eqn:E; [|contradiction].
  exists i, j; split; [reflexivity | apply Hv; assumption].
Qed.

(** *** Merging two sets *)

Lemma list_del_length {A : Type} (l : list A) (j : nat) :
  (j < List.length l)%nat -> List.length (list_del l j) = (List.length l - 1)%nat.
Proof.
  revert j; induction l as [|a l IH]; intros j Hj; simpl in *; [lia|].
  destruct j as [|j]; simpl; [lia|].
  rewrite IH by lia; lia.
Qed.

Lemma list_set_length {A : Type} (l : list A) (i : nat) (v : A) :
  List.length (list_set l i v) = List.length l.
Proof.
  revert i; induction l as [|a l IH]; intros i; simpl; [reflexivity|].
  destruct i; simpl; [reflexivity | f_equal; apply IH].
Qed.

Lemma list_del_concat (l : list (list Z)) (j : nat) :
  (j < List.length l)%nat ->
  Permutation (nth j l [] ++ List.concat (list_del l j)) (List.concat l).
Proof.
  revert j; induction l as [|a l IH]; intros j Hj; simpl in *; [lia|].
  destruct j as [|j]; simpl; [reflexivity|].
  rewrite Permutation_app_swap_app.
  apply Permutation_app_head, IH; lia.
Qed.

Lemma list_del_nonempty (l : list (list Z)) (j : nat) :
  nonempty_sets l -> nonempty_sets (list_del l j).
Proof.
  unfold nonempty_sets; revert j; induction l as [|a l IH]; intros j Hl; simpl;
    [constructor|].
  inversion Hl; subst.
  destruct j; [assumption | constructor; auto].
Qed.

Lemma list_set_nonempty (l : list (list Z)) (i : nat) (v : list Z) :
  v <> [] -> nonempty_sets l -> nonempty_sets (list_set l i v).
Proof.
  unfold nonempty_sets; intros Hv; revert i; induction l as [|a l IH]; intros i Hl;
    simpl; [constructor|].
  inversion Hl; subst.
  destruct i; constructor; auto.
Qed.

Lemma merge_sets_length clusters i j :
  (i < j < List.length clusters)%nat ->
  List.length (merge_sets clusters i j) = (List.length clusters - 1)%nat.
Proof.
  intros Hij; unfold merge_sets.
  rewrite list_del_length; rewrite list_set_length; lia.
Qed.

Lemma merge_sets_nonempty clusters i j :
  (i < j < List.length clusters)%nat ->
  nonempty_sets clusters -> nonempty_sets (merge_sets clusters i j).
Proof.
  intros Hij Hne; unfold merge_sets.
  apply list_del_nonempty, list_set_nonempty; [|assumption].
  pose proof (nonempty_nth clusters i Hne) as Hi.
  destruct (nth i clusters []); [exfalso; apply Hi; [lia | reflexivity] | discriminate].
Qed.

Lemma merge_sets_concat clusters i j :
  (i < j < List.length clusters)%nat ->
  Permutation (List.concat (merge_sets clusters i j)) (List.concat clusters).
Proof.
  unfold merge_sets; revert i j; induction clusters as [|a l IH]; intros i j Hij;
    simpl in Hij; [lia|].
  destruct j as [|j]; [lia|].
  destruct i as [|i]; cbn [nth list_set list_del List.concat].
  - rewrite <- app_assoc.
    apply Permutation_app_head, list_del_concat; lia.
  - apply Permutation_app_head, IH; lia.
Qed.

(** *** The loop *)

Lemma agglomerate_partition distm fuel : forall clusters k,
  nonempty_sets clusters ->
  (1 <= k <= Z.of_nat (List.length clusters))%Z ->
  (Z.of_nat (List.length clusters) - k <= Z.of_nat fuel)%Z ->
  exists groups,
    agglomerate fuel distm clusters k = Ok groups
    /\ Z.of_nat (List.length groups) = k
    /\ Permutation (List.concat groups) (List.concat clusters)
    /\ nonempty_sets groups.
Proof.
  induction fuel as [|fuel IH]; intros clusters k Hne Hk Hfuel.
  - assert (Heq : Z.of_nat (List.length clusters) = k) by lia.
    cbn [agglomerate]; rewrite (proj2 (Z.eqb_eq _ _) Heq).
    exists clusters; repeat split; auto.
  - cbn [agglomerate].
    destruct (Z.of_nat (List.length clusters) =? k)%Z eqn:E.
    + apply Z.eqb_eq in E; exists clusters; repeat split; auto.
    + apply Z.eqb_neq in E.
      destruct (closest_pair_found distm clusters Hne) as [i [j [Hp Hij]]]; [lia|].
      rewrite Hp.
      destruct (IH (merge_sets clusters i j) k) as [groups [Hg [Hlen [Hperm Hgne]]]].
      * apply merge_sets_nonempty; assumption.
      * rewrite merge_sets_length by assumption; lia.
      * rewrite merge_sets_length by assumption; lia.
      * exists groups; repeat split; try assumption.
        rewrite Hperm; apply merge_sets_concat; assumption.
Qed.

Lemma concat_singletons (l : list Z) : List.concat (map (fun i => [i]) l) = l.
Proof. induction l as [|a l IH]; simpl; [reflexivity | f_equal; exact IH]. Qed.

Lemma NoDup_concat_disjoint (l : list (list Z)) :
  NoDup (List.concat l) ->
  forall i j x, (i < j < List.length l)%nat ->
                In x (nth i l []) -> ~ In x (nth j l []).
Proof.
  induction l as [|a l IH]; intros Hnd i j x Hij Hi Hj; simpl in Hij; [lia|].
  destruct j as [|j]; [lia|]; simpl in Hj.
  simpl in Hnd.
  destruct i as [|i]; simpl in Hi.
  - assert (Hx : In x (List.concat l)).
    { apply in_concat; exists (nth j l []); split; [apply nth_In; lia | assumption]. }
    clear -Hnd Hi Hx.
    induction a as [|y a IHa]; simpl in *; [contradiction|].
    inversion Hnd as [|? ? Hnot Hnd']; subst.
    destruct Hi as [-> | Hi]; [apply Hnot, in_or_app; auto | auto].
  - apply NoDup_app_remove_l in Hnd.
    apply (IH Hnd i j x); [lia | assumption | assumption].
Qed.

(** C9.  For a target count [k >= 1] and [m >= k] eligible micro-clusters
    (a dictionary: the ids are distinct), the clustering step returns, with
    exactly [k] sets, whose members together are the ids of the eligible
    micro-clusters and which are pairwise disjoint. *)
Theorem agglomerative_clustering_partition (micros : dict Z microcluster.t) (k : Z) :
  dict_wf micros ->
  (1 <= k)%Z ->
  (k <= Z.of_nat (List.length micros))%Z ->
  exists groups : list (list Z),
    _agglomerative_clustering micros k = Ok groups
    /\ Z.of_nat (List.length groups) = k
    /\ Permutation (List.concat groups) (dict_keys micros)
    /\ (forall i j x, (i < j < List.length groups)%nat ->
                      In x (nth i groups []) -> ~ In x (nth j groups [])).
Proof.
  intros Hwf Hk1 Hkm; unfold _agglomerative_clustering.
  destruct (get_distance_matrix_ok micros) as [distm Hd]; rewrite Hd; cbn [bind].
  assert (Hlen : List.length (map (fun i : Z => [i]) (dict_keys micros))
                 = List.length micros)
    by (unfold dict_keys; rewrite !length_map; reflexivity).
  destruct (agglomerate_partition distm (S (List.length micros))
              (map (fun i => [i]) (dict_keys micros)) k)
    as [groups [Hg [Hn [Hperm _]]]].
  - unfold nonempty_sets; apply Forall_forall; intros g Hin.
    apply in_map_iff in Hin as [i [<- _]]; discriminate.
  - rewrite Hlen; lia.
  - rewrite Hlen; lia.
  - rewrite concat_singletons in Hperm.
    exists groups; repeat split; try assumption.
    apply NoDup_concat_disjoint.
    apply (Permutation_NoDup (Permutation_sym Hperm)), Hwf.
Qed.

Lemma agglomerative_clustering_partition_witness :
  exists groups : list (list Z),
    _agglomerative_clustering example_micros 1 = Ok groups
    /\ Z.of_nat (List.length groups) = 1%Z
    /\ Permutation (List.concat groups) (dict_keys example_micros)
    /\ (forall i j x, (i < j < List.length groups)%nat ->
                      In x (nth i groups []) -> ~ In x (nth j groups [])).
Proof.
  apply (agglomerative_clustering_partition example_micros 1).
  - repeat constructor; simpl; intuition discriminate.
  - lia.
  - simpl; lia.
Defined.

(** ** Searching the closest micro-cluster *)

(** The scan over stored clusters returns when the weighting covers them,
    and counts them. *)
Lemma closest_scan_ok mc idf micros s :
  (forall c, In c (dict_values micros) -> covered (microcluster.tf c) idf) ->
  exists s', closest_scan mc idf micros s = Ok s'
             /\ counter s' = (counter s + List.length micros)%nat.
Proof.
  revert s; induction micros as [|[key micro] micros IH]; intros s Hc;
    cbn [closest_scan].
  - exists s; split; [reflexivity | simpl; lia].
  - destruct (distance_total mc micro idf) as [d Hd].
    + apply Hc; left; reflexivity.
    + unfold distances.dist; rewrite Hd; cbn [bind].
      destruct (IH {| min_dist := if Rltb d (min_dist s) then d else min_dist s;
                      smallest_key := if Rltb d (min_dist s) then Some key
                                      else smallest_key s;
                      sumdist := sumdist s + d;
                      squaresum := squaresum s + d ^ 2;
                      counter := S (counter s) |}) as [s' [Hs' Hn]].
      * intros c Hin; apply Hc; right; assumption.
      * exists s'; split; [assumption | rewrite Hn; simpl; lia].
Qed.

(** Under adaptive thresholding, fewer than two candidates give no
    cluster to merge into. *)
Lemma choose_cluster_few p s :
  auto_r p = true -> (counter s < 2)%nat -> choose_cluster p s = Ok None.
Proof.
  intros Ha Hc; unfold choose_cluster; rewrite Ha.
  destruct (1 <? counter s)%nat eqn:E; [apply Nat.ltb_lt in E; lia | reflexivity].
Qed.

Lemma closest_to_few p self x now :
  auto_r p = true -> (List.length (micro_clusters self) < 2)%nat ->
  exists d, closest_to p self x now = Ok (None, d).
Proof.
  intros Ha Hlen; unfold closest_to, _get_closest_mc.
  destruct (calculateIDF_ok (dict_values (micro_clusters self))) as [idf [Hidf Hcov]].
  rewrite Hidf; cbn [bind].
  destruct (closest_scan_ok (microcluster.init x now 1 (Some (_clusterId self))) idf
              (micro_clusters self)
              {| min_dist := 1; smallest_key := None; sumdist := 0; squaresum := 0;
                 counter := 0 |} Hcov) as [s [Hs Hn]].
  rewrite Hs; cbn [bind].
  rewrite choose_cluster_few by (try assumption; rewrite Hn; simpl; lia).
  cbn [bind]; eauto.
Qed.

(** C7.  Under adaptive thresholding an observation that is compared
    against fewer than two stored micro-clusters is never merged: the search
    returns no cluster, whatever the distance, and the ingestion stores the
    observation as a new micro-cluster under the next identifier. *)
Theorem adaptive_few_candidates_create (p : params) (self : TextClust)
    (x : dict string R) (t' : option R) (now : R) :
  auto_r p = true ->
  (List.length (micro_clusters self) < 2)%nat ->
  x <> [] ->
  (if real_time_fading p then t' else Some (IZR (n self))) = Some now ->
  exists d : R,
    let self1 := with_clock self (Some now) in
    let mc := microcluster.init x now 1 (Some (_clusterId self)) in
    closest_to p self1 x now = Ok (None, d)
    /\ learn_one_ingest p self x t'
       = Ok (create_new self1 mc d, now, Some (_clusterId self))
    /\ micro_clusters (create_new self1 mc d)
       = dict_set (micro_clusters self) (_clusterId self) mc
    /\ _num_merged_obs (create_new self1 mc d) = _num_merged_obs self.
Proof.
  intros Ha Hlen Hx Hnow.
  destruct (closest_to_few p (with_clock self (Some now)) x now Ha Hlen) as [d Hd].
  exists d; cbn zeta; split; [exact Hd|]; split; [|split; reflexivity].
  unfold learn_one_ingest; rewrite Hnow; cbn [t with_clock].
  destruct x as [|kv x]; [contradiction|].
  cbn [List.length Nat.ltb Nat.leb].
  unfold ingest; rewrite Hd; cbn [bind]; reflexivity.
Qed.

(** ** Fading and eviction of the store *)

Lemma fade_all_keys p now micros :
  dict_keys (fade_all p now micros) = dict_keys micros.
Proof.
  induction micros as [|[k m] micros IH]; cbn [fade_all dict_keys map fst];
    [reflexivity | f_equal; exact IH].
Qed.

Lemma evict_all_in p micros k m :
  In (k, m) (evict_all p micros) <-> In (k, m) micros /\ evicted p m = false.
Proof.
  induction micros as [|[k0 m0] micros IH]; cbn [evict_all].
  - simpl; tauto.
  - destruct (evicted p m0) eqn:E.
    + rewrite IH; simpl; split; [tauto|].
      intros [[Heq | Hin] Hev]; [inversion Heq; subst; congruence | tauto].
    + simpl; rewrite IH; split.
      * intros [Heq | [Hin Hev]]; [inversion Heq; subst; tauto | tauto].
      * intros [[Heq | Hin] Hev]; tauto.
Qed.

Lemma evict_all_keys p micros :
  incl (dict_keys (evict_all p micros)) (dict_keys micros).
Proof.
  induction micros as [|[k0 m0] micros IH]; cbn [evict_all]; [apply incl_refl|].
  destruct (evicted p m0); cbn [dict_keys map fst].
  - apply incl_tl, IH.
  - apply incl_cons; [left; reflexivity | apply incl_tl, IH].
Qed.

(** What [_updateweights] leaves in the store. *)
Lemma updateweights_store p self self' :
  _updateweights p self = Ok self' ->
  incl (dict_keys (micro_clusters self')) (dict_keys (micro_clusters self))
  /\ (micro_clusters self <> [] ->
      forall k m, In (k, m) (micro_clusters self') -> evicted p m = false)
  /\ microToMacro self' = microToMacro self
  /\ _up_to_date self' = _up_to_date self
  /\ t self' = t self.
Proof.
  unfold _updateweights.
  destruct (micro_clusters self) as [|km micros] eqn:Em.
  - intros Heq; injection Heq as <-; rewrite Em.
    repeat split; try reflexivity; [apply incl_refl | intros Hc; contradiction].
  - rewrite <- Em; destruct (t self) as [now|] eqn:Et; [|discriminate].
    intros Heq; injection Heq as <-; cbn [micro_clusters with_micro_clusters].
    repeat split; try reflexivity.
    + eapply incl_tran; [apply evict_all_keys|].
      rewrite fade_all_keys; apply incl_refl.
    + intros _ k m Hin; apply evict_all_in in Hin; tauto.
    + cbn [t with_micro_clusters]; assumption.
Qed.

Lemma updateweights_value p self now :
  t self = Some now ->
  _updateweights p self
  = Ok (with_micro_clusters self (evict_all p (fade_all p now (micro_clusters self)))).
Proof.
  intros Ht; unfold _updateweights; rewrite Ht.
  destruct self as [t0 lc n0 micros m2m cid utd dm nm]; cbn in *.
  destruct micros; reflexivity.
Qed.

Lemma updateMacroClusters_store p self self' :
  updateMacroClusters p self = Ok self' ->
  micro_clusters self' = micro_clusters self
  \/ exists mid, _updateweights p self = Ok mid
                 /\ micro_clusters self' = micro_clusters mid.
Proof.
  unfold updateMacroClusters.
  destruct (_up_to_date self); [intros Heq; inversion Heq; auto|].
  destruct (_updateweights p self) as [mid| |] eqn:Eu; cbn [bind]; try discriminate.
  destruct (1 <? _)%nat.
  - destruct (_agglomerative_clustering _ _) as [groups| |]; cbn [bind]; try discriminate.
    intros Heq; injection Heq as <-; right; exists mid; auto.
  - intros Heq; injection Heq as <-; right; exists mid; auto.
Qed.

(** The search of [get_assignment] returns when the weighting covers the
    stored clusters. *)
Lemma nearest_ok p mc idf micros dist closest :
  (forall c, In c (dict_values micros) -> covered (microcluster.tf c) idf) ->
  exists r, nearest p mc idf micros dist closest = Ok r.
Proof.
  revert dist closest; induction micros as [|[key micro] micros IH];
    intros dist closest Hc; cbn [nearest]; [eauto|].
  assert (Hc' : forall c, In c (dict_values micros) -> covered (microcluster.tf c) idf)
    by (intros c Hin; apply Hc; right; assumption).
  destruct (Rltb _ _); [|apply IH; assumption].
  destruct (distance_total mc micro idf) as [d Hd];
    [apply Hc; left; reflexivity|].
  unfold distances.dist; rewrite Hd; cbn [bind].
  destruct (xltb d dist); apply IH; assumption.
Qed.

(** C2, as the code has it.  The assignment query fades the live
    micro-clusters and evicts those whose faded weight is at most [omega] or
    whose term vector is empty.  The ids in the store after the query are
    among the ids before it, and in a store that was not empty every
    cluster left passes the eviction test; at micro level the query returns
    and the store is exactly the faded clusters that pass the test. *)
Theorem get_assignment_evicts (p : params) (self : TextClust) (x : dict string R)
    (type : string) :
  (forall self' r,
     get_assignment p self x type = Ok (self', r) ->
     incl (dict_keys (micro_clusters self')) (dict_keys (micro_clusters self))
     /\ (micro_clusters self <> [] ->
         forall k m, In (k, m) (micro_clusters self') -> evicted p m = false))
  /\ (forall now,
        t self = Some now ->
        exists r,
          get_assignment p self x "micro"
          = Ok (with_micro_clusters self
                  (evict_all p (fade_all p now (micro_clusters self))), r)).
Proof.
  split.
  - intros self' r; unfold get_assignment.
    destruct (_updateweights p self) as [s1| |] eqn:Eu; cbn [bind]; try discriminate.
    destruct (updateweights_store p self s1 Eu) as [Hincl [Hev _]].
    destruct (_calculateIDF _) as [idf| |]; cbn [bind]; try discriminate.
    destruct (0 <? List.length x)%nat;
      [|intros Heq; inversion Heq; subst; split; assumption].
    destruct (nearest _ _ _ _ _ _) as [[d closest]| |]; cbn [bind]; try discriminate.
    destruct (String.eqb type "micro");
      [intros Heq; inversion Heq; subst; split; assumption|].
    destruct (updateMacroClusters p s1) as [s2| |] eqn:Em; cbn [bind]; try discriminate.
    destruct (macro_of s2 closest) as [r'| |]; cbn [bind]; try discriminate.
    intros Heq; inversion Heq; subst.
    destruct (updateMacroClusters_store p s1 self' Em) as [Hsame | [mid [Hmid Hsame]]];
      rewrite Hsame.
    + split; assumption.
    + destruct (updateweights_store p s1 mid Hmid) as [Hincl2 [Hev2 _]].
      split; [eapply incl_tran; eassumption|].
      intros Hne k m Hin.
      destruct (micro_clusters s1) as [|km rest] eqn:E1.
      * assert (Hk : In k (dict_keys (micro_clusters mid)))
          by (apply (in_map fst) in Hin; exact Hin).
        apply Hincl2 in Hk; contradiction.
      * apply (Hev2 ltac:(discriminate) k m Hin).
  - intros now Ht; unfold get_assignment.
    rewrite (updateweights_value p self now Ht); cbn [bind].
    set (s1 := with_micro_clusters self _).
    destruct (calculateIDF_ok (dict_values (micro_clusters s1))) as [idf [Hidf Hcov]].
    rewrite Hidf; cbn [bind].
    destruct (0 <? List.length x)%nat; [|eauto].
    destruct (nearest_ok p (microcluster.init x 1 1 None) idf (micro_clusters s1) Inf None
                Hcov) as [[d closest] Hn].
    rewrite Hn; cbn [bind]; cbn; eauto.
Qed.

(** ** Macro-level queries *)

(** C3 on a newly constructed object: [get_macroclusters] raises
    [AttributeError], whatever the parameters. *)
Theorem get_macroclusters_fresh_raises (p : params) :
  get_macroclusters p init = Raise AttributeError.
Proof. reflexivity. Qed.

Lemma macro_of_zero self : macro_of self (Some 0%Z) = Ok None.
Proof. reflexivity. Qed.

Lemma macro_of_nonzero self a m i :
  a <> 0%Z -> microToMacro self = Some m -> dict_get m a = Some i ->
  macro_of self (Some a) = Ok (Some i).
Proof.
  intros Ha Hm Hi; unfold macro_of, truthy.
  rewrite (proj2 (Z.eqb_neq a 0) Ha); cbn [negb]; rewrite Hm, Hi; reflexivity.
Qed.

(** The guard of line 536 in a query whose rebuild of the assignment
    returns.  When the nearest weight-qualifying micro-cluster has id 0 the
    result is [None], since the line tests the truth value of the id; when
    the nearest cluster has a nonzero id and the macro assignment has an
    entry for it, that entry is returned. *)
Theorem macro_assignment_guard (p : params) (self s1 s2 : TextClust)
    (x idf : dict string R) (type : string) (d : xreal) (closest : option Z) :
  String.eqb type "micro" = false ->
  x <> [] ->
  _updateweights p self = Ok s1 ->
  _calculateIDF (dict_values (micro_clusters s1)) = Ok idf ->
  nearest p (microcluster.init x 1 1 None) idf (micro_clusters s1) Inf None
    = Ok (d, closest) ->
  updateMacroClusters p s1 = Ok s2 ->
  (closest = Some 0%Z -> get_assignment p self x type = Ok (s2, None))
  /\ (forall a m i,
        closest = Some a -> a <> 0%Z ->
        microToMacro s2 = Some m -> dict_get m a = Some i ->
        get_assignment p self x type = Ok (s2, Some i)).
Proof.
  intros Hty Hx Hu Hidf Hn Hm.
  assert (Hga : get_assignment p self x type
                = (r <- macro_of s2 closest ;; Ok (s2, r))).
  { unfold get_assignment; rewrite Hu; cbn [bind]; rewrite Hidf; cbn [bind].
    destruct x as [|kv x]; [contradiction|].
    cbn [List.length Nat.ltb Nat.leb]; rewrite Hn; cbn [bind].
    rewrite Hty, Hm; cbn [bind]; reflexivity. }
  split.
  - intros ->; rewrite Hga, macro_of_zero; reflexivity.
  - intros a m i -> Ha Hmm Hi.
    rewrite Hga, (macro_of_nonzero s2 a m i Ha Hmm Hi); reflexivity.
Qed.

(** ** Evaluating the distance *)

Lemma covered_cons k v a idf i :
  dict_get idf k = Some i -> covered a idf -> covered ((k, v) :: a) idf.
Proof.
  intros Hk Ha k' [Heq | Hin]; [simpl in Heq; congruence | apply Ha, Hin].
Qed.

Lemma covered_nil idf : covered [] idf.
Proof. intros k []. Qed.

(** A vector of length zero is at distance 1 from every vector. *)
Lemma distance_degenerate mc other idf :
  covered (microcluster.tf other) idf ->
  sq_len (microcluster.tf mc) idf = 0 \/ sq_len (microcluster.tf other) idf = 0 ->
  distances.dist mc other idf = Ok 1.
Proof.
  intros Hc Hz; unfold distances.dist.
  rewrite tfidf_cosine_distance_closed by assumption; unfold norm.
  destruct Hz as [Hz | Hz]; rewrite Hz, sqrt_0, (Reqb_true 0 0) by reflexivity.
  - reflexivity.
  - rewrite orb_true_r; reflexivity.
Qed.

(** The distance of two vectors of positive length. *)
Lemma distance_value mc other idf X Y S :
  covered (microcluster.tf other) idf ->
  sq_len (microcluster.tf mc) idf = X ->
  sq_len (microcluster.tf other) idf = Y ->
  dot (microcluster.tf mc) (microcluster.tf other) idf = S ->
  0 < X -> 0 < Y ->
  distances.dist mc other idf = Ok (round10 (1 - S / (sqrt X * sqrt Y))).
Proof.
  intros Hc HX HY HS HX0 HY0; unfold distances.dist.
  rewrite tfidf_cosine_distance_closed by assumption; unfold norm.
  rewrite HX, HY, HS.
  rewrite !Reqb_false by (apply Rgt_not_eq, sqrt_lt_R0; assumption).
  reflexivity.
Qed.

(** Vectors in the same direction are at distance 0. *)
Lemma distance_parallel mc other idf X Y S :
  covered (microcluster.tf other) idf ->
  sq_len (microcluster.tf mc) idf = X ->
  sq_len (microcluster.tf other) idf = Y ->
  dot (microcluster.tf mc) (microcluster.tf other) idf = S ->
  0 < X -> 0 < Y -> 0 < S -> S * S = X * Y ->
  distances.dist mc other idf = Ok 0.
Proof.
  intros Hc HX HY HS HX0 HY0 HS0 Hsq.
  rewrite (distance_value mc other idf X Y S) by assumption.
  rewrite <- sqrt_mult, <- Hsq, sqrt_square by lra.
  replace (1 - S / S) with 0 by (field; lra).
  rewrite round10_0; reflexivity.
Qed.

Lemma pow2_zero_rate x : pow2 (- 0 * x) = 1.
Proof. replace (- 0 * x) with 0 by lra; apply pow2_0. Qed.

Lemma omega_scenario tfade nm mw am sg : omega (scenario_params tfade nm mw am sg) = 1.
Proof.
  unfold omega; cbn [fading_factor tgap scenario_params].
  replace (-1 * 0 * 100) with 0 by lra; apply pow2_0.
Qed.

Lemma ln_1_1 : ln (1 / 1) = 0.
Proof. replace (1 / 1) with 1 by lra; apply ln_1. Qed.

(** ** The paths of [learn_one] *)

(** The create path: no stored cluster was chosen. *)
Lemma ingest_create p self x now d :
  closest_to p self x now = Ok (None, d) ->
  ingest p self x now
  = Ok (create_new self (microcluster.init x now 1 (Some (_clusterId self))) d,
        Some (_clusterId self)).
Proof. intros Hc; unfold ingest; rewrite Hc; reflexivity. Qed.

(** The merge path: the observation is merged into the chosen cluster. *)
Lemma ingest_merge p self x now cid d target :
  closest_to p self x now = Ok (Some cid, d) ->
  dict_get (micro_clusters self) cid = Some target ->
  ingest p self x now
  = Ok (merge_into p self cid
          (fst (microcluster.merge
                  (microcluster.with_n target (microcluster.n target + 1)%Z)
                  (microcluster.init x now 1 (Some (_clusterId self)))
                  now (omega p) (fading_factor p) (term_fading p)))
          d,
        Some cid).
Proof. intros Hc Hg; unfold ingest; rewrite Hc; cbn [bind]; rewrite Hg; reflexivity. Qed.

(** A call under the logical clock with a non-empty observation. *)
Lemma learn_one_ingest_logical p self x t' kv x' :
  real_time_fading p = false -> x = kv :: x' ->
  learn_one_ingest p self x t'
  = ('(self1, clusterId) <-
       ingest p (with_clock self (Some (IZR (n self)))) x (IZR (n self)) ;;
     Ok (self1, IZR (n self), clusterId)).
Proof.
  intros Hr ->; unfold learn_one_ingest; rewrite Hr; reflexivity.
Qed.

(** A call that does not run the cleanup. *)
Lemma learn_one_quiet p self x t' self1 now clusterId :
  learn_one_ingest p self x t' = Ok (self1, now, clusterId) ->
  cleanup_due p self1 now = false ->
  learn_one p self x t' = Ok (with_n self1 (n self1 + 1)%Z, clusterId).
Proof.
  intros Hi Hc; unfold learn_one; rewrite Hi; cbn [bind]; rewrite Hc; reflexivity.
Qed.

Lemma omega_zero_rate p : fading_factor p = 0 -> omega p = 1.
Proof.
  intros H; unfold omega; rewrite H.
  replace (-1 * 0 * tgap p) with 0 by lra; apply pow2_0.
Qed.

(** ** Tactics for runs on concrete data *)

(** Settle the comparisons of the goal whose sides are numerals. *)
Ltac Rdecide :=
  repeat match goal with
  | |- context [Rltb ?a ?b] =>
      first [rewrite (Rltb_true a b) by lra | rewrite (Rltb_false a b) by lra]
  | |- context [Rleb ?a ?b] =>
      first [rewrite (Rleb_true a b) by lra | rewrite (Rleb_false a b) by lra]
  | |- context [Reqb ?a ?b] =>
      first [rewrite (Reqb_true a b) by lra | rewrite (Reqb_false a b) by lra]
  end.

(** Run the code, leaving the numeric functions alone. *)
Ltac run :=
  cbn -[distances.dist Rltb Rleb Reqb IZR pow2 omega round10 math_log math_sqrt].

(** Unfold two states down to their numbers and compare those. *)
Ltac norm_state :=
  cbv -[Rplus Rmult Rminus Ropp Rdiv Rinv IZR pow2 round10 sqrt ln Rltb Rleb Reqb].
Ltac same_state := repeat (f_equal; try lra).

(** Every term of a concrete vector has an entry in a concrete weighting. *)
Ltac covers := repeat (eapply covered_cons; [reflexivity|]); apply covered_nil.

(** The cleanup is not due. *)
Ltac quiet :=
  unfold cleanup_due;
  cbn [last_cleanup create_new merge_into with_clock tgap scenario_params plain_params
       init scenario_state1 scenario_state2 topic_a topics_a_b];
  Rdecide; reflexivity.

(** With no stored cluster the search returns no cluster and distance 1. *)
Lemma closest_empty p self x now :
  micro_clusters self = [] -> auto_r p = false -> ~ 1 < radius p ->
  closest_to p self x now = Ok (None, 1).
Proof.
  intros He Ha Hr; unfold closest_to, _get_closest_mc; rewrite He.
  cbn [dict_values map _calculateIDF List.length document_frequency idf_of_counts bind
       closest_scan].
  unfold choose_cluster; rewrite Ha; cbn [min_dist smallest_key].
  rewrite Rltb_false by assumption; reflexivity.
Qed.

(** ** The end-to-end scenario *)

Section Scenario.
Variables (tfade : bool) (nm : Z) (mw : R) (am : bool) (sg : R).
#[local] Abbreviation p := (scenario_params tfade nm mw am sg).

(** Observation 1 finds no cluster and creates cluster 0. *)
Lemma scenario_step1 : learn_one p init obs1 None = Ok (scenario_state1, Some 0%Z).
Proof.
  erewrite learn_one_quiet; cycle 1.
  - erewrite learn_one_ingest_logical by reflexivity.
    cbn [n init IZR].
    erewrite ingest_create
      by (apply closest_empty; [reflexivity | reflexivity | cbn; lra]).
    cbn [bind]; reflexivity.
  - quiet.
  - norm_state; same_state.
Qed.

Lemma scenario_idf1 :
  _calculateIDF (dict_values (micro_clusters scenario_state1))
  = Ok [("a"%string, 1); ("b"%string, 1)].
Proof.
  unfold _calculateIDF; run; rewrite !math_log_pos by lra; run.
  rewrite ln_1_1; same_state.
Qed.

(** Observation 2 is at distance 0 from cluster 0, below the radius. *)
Lemma scenario_closest2 :
  closest_to p (with_clock scenario_state1 (Some 2)) obs2 2 = Ok (Some 0%Z, 0).
Proof.
  unfold closest_to; cbn [micro_clusters with_clock]; rewrite scenario_idf1; cbn [bind].
  unfold _get_closest_mc; cbn [micro_clusters with_clock scenario_state1 closest_scan].
  rewrite (distance_parallel _ _ _ 2 2 2);
    [| covers | cbn; lra | cbn; lra | cbn; lra | lra | lra | lra | lra].
  run; Rdecide; unfold choose_cluster; run; Rdecide; reflexivity.
Qed.

(** Observation 2 is merged into cluster 0. *)
Lemma scenario_step2 :
  learn_one p scenario_state1 obs2 None = Ok (scenario_state2 tfade, Some 0%Z).
Proof.
  erewrite learn_one_quiet; cycle 1.
  - erewrite learn_one_ingest_logical by reflexivity.
    cbn [n scenario_state1 IZR].
    erewrite ingest_merge; [| apply scenario_closest2 | reflexivity].
    cbn [bind]; reflexivity.
  - quiet.
  - run; rewrite !pow2_zero_rate, !omega_zero_rate by reflexivity.
    destruct tfade; run; Rdecide; run; norm_state; same_state.
Qed.

(** No term of observation 3 is known to the weighting of the third call. *)
Lemma scenario_idf2 :
  exists idf,
    _calculateIDF (dict_values (micro_clusters (scenario_state2 tfade))) = Ok idf
    /\ covered (microcluster.tf (scenario_merged tfade)) idf
    /\ sq_len obs3 idf = 0.
Proof.
  destruct tfade.
  - exists []; split; [reflexivity|]; split; [apply covered_nil | cbn; lra].
  - eexists; split; [|split].
    + unfold _calculateIDF; run; rewrite !math_log_pos by lra; run; reflexivity.
    + cbn [scenario_merged microcluster.tf]; covers.
    + cbn; lra.
Qed.

(** Observation 3 is at distance 1 from cluster 0, not below the radius. *)
Lemma scenario_closest3 :
  closest_to p (with_clock (scenario_state2 tfade) (Some 3)) obs3 3 = Ok (None, 1).
Proof.
  unfold closest_to; cbn [micro_clusters with_clock].
  destruct scenario_idf2 as [idf [Hidf [Hcov Hlen]]].
  rewrite Hidf; cbn [bind].
  unfold _get_closest_mc; cbn [micro_clusters with_clock scenario_state2 closest_scan].
  rewrite distance_degenerate by (try assumption; left; assumption).
  run; Rdecide; unfold choose_cluster; run; Rdecide; reflexivity.
Qed.

(** Observation 3 creates cluster 1. *)
Lemma scenario_step3 :
  learn_one p (scenario_state2 tfade) obs3 None = Ok (scenario_state3 tfade, Some 1%Z).
Proof.
  erewrite learn_one_quiet; cycle 1.
  - erewrite learn_one_ingest_logical by reflexivity.
    cbn [n scenario_state2 IZR].
    erewrite ingest_create by apply scenario_closest3.
    cbn [bind]; reflexivity.
  - quiet.
  - norm_state; same_state.
Qed.

End Scenario.

(** C4.  From a new object with merge radius 0.9, the logical clock, decay
    rate 0 and [tgap] 100, the observations [{"a":1,"b":1}],
    [{"a":1,"b":1,"c":1}], [{"x":1,"y":1}] are answered with the ids 0, 0
    and 1 and leave exactly two micro-clusters: cluster 0, created by the
    first observation and merged into by the second, with 2 observations
    and no merged ids, and cluster 1 with 1 observation. *)
Theorem end_to_end_scenario (tfade : bool) (nm : Z) (mw : R) (am : bool) (sg : R) :
  exists s1 s2 s3 c0 c1,
    learn_one (scenario_params tfade nm mw am sg) init obs1 None = Ok (s1, Some 0%Z)
    /\ learn_one (scenario_params tfade nm mw am sg) s1 obs2 None = Ok (s2, Some 0%Z)
    /\ learn_one (scenario_params tfade nm mw am sg) s2 obs3 None = Ok (s3, Some 1%Z)
    /\ dict_keys (micro_clusters s1) = [0%Z]
    /\ dict_keys (micro_clusters s2) = [0%Z]
    /\ micro_clusters s3 = [(0%Z, c0); (1%Z, c1)]
    /\ microcluster.n c0 = 2%Z
    /\ microcluster.merged_ids c0 = []
    /\ microcluster.n c1 = 1%Z.
Proof.
  exists scenario_state1, (scenario_state2 tfade), (scenario_state3 tfade).
  exists (scenario_merged tfade), (microcluster.mk (Some 1%Z) 1 3 obs3 0 0 1%Z []).
  split; [apply scenario_step1|].
  split; [apply scenario_step2|].
  split; [apply scenario_step3|].
  repeat split; reflexivity.
Qed.

(** ** Two runs under the plain parameters *)

Lemma ln2_pos : 0 < ln (2 / 1).
Proof. replace (2 / 1) with 2 by lra; pose proof ln_lt_2; lra. Qed.

Lemma learn_topic_a :
  learn_one plain_params init [("a"%string, 2)] None = Ok (topic_a, Some 0%Z).
Proof.
  erewrite learn_one_quiet; cycle 1.
  - erewrite learn_one_ingest_logical by reflexivity.
    cbn [n init IZR].
    erewrite ingest_create
      by (apply closest_empty; [reflexivity | reflexivity | cbn; lra]).
    cbn [bind]; reflexivity.
  - quiet.
  - norm_state; same_state.
Qed.

Lemma closest_topic_b :
  closest_to plain_params (with_clock topic_a (Some 2)) [("b"%string, 2)] 2
  = Ok (None, 1).
Proof.
  unfold closest_to; cbn [micro_clusters with_clock topic_a].
  unfold _calculateIDF; run; rewrite !math_log_pos by lra; run.
  unfold _get_closest_mc; cbn [micro_clusters with_clock topic_a closest_scan].
  rewrite distance_degenerate; [| covers | left; cbn; lra].
  run; Rdecide; unfold choose_cluster; run; Rdecide; reflexivity.
Qed.

Lemma learn_topic_b :
  learn_one plain_params topic_a [("b"%string, 2)] None = Ok (topics_a_b, Some 1%Z).
Proof.
  erewrite learn_one_quiet; cycle 1.
  - erewrite learn_one_ingest_logical by reflexivity.
    cbn [n topic_a IZR].
    erewrite ingest_create by apply closest_topic_b.
    cbn [bind]; reflexivity.
  - quiet.
  - norm_state; same_state.
Qed.

(** The second [{"b": 2}] is at distance 1 from cluster 0 and at distance 0
    from cluster 1. *)
Lemma closest_topic_b_again :
  closest_to plain_params (with_clock topics_a_b (Some 3)) [("b"%string, 2)] 3
  = Ok (Some 1%Z, 0).
Proof.
  unfold closest_to; cbn [micro_clusters with_clock topics_a_b].
  unfold _calculateIDF; run; rewrite !math_log_pos by lra; run.
  unfold _get_closest_mc; cbn [micro_clusters with_clock topics_a_b closest_scan].
  pose proof ln2_pos as Hln.
  set (i := 1 + ln (2 / 1)) in *.
  assert (Hi : 0 < i * i) by (unfold i; nra).
  rewrite (distance_value _ _ _ (4 * (i * i)) (4 * (i * i)) 0);
    [| covers | cbn; lra | cbn; lra | cbn; lra | lra | lra].
  cbn [bind].
  rewrite (distance_parallel _ _ _ (4 * (i * i)) (4 * (i * i)) (4 * (i * i)));
    [| covers | cbn; lra | cbn; lra | cbn; lra | lra | lra | lra | lra].
  cbn [bind min_dist smallest_key sumdist squaresum counter].
  replace (1 - 0 / _) with 1 by (unfold Rdiv; rewrite Rmult_0_l; lra).
  rewrite round10_1.
  Rdecide; unfold choose_cluster; run; Rdecide; reflexivity.
Qed.

Lemma learn_topic_b_again :
  learn_one plain_params topics_a_b [("b"%string, 2)] None = Ok (two_topics, Some 1%Z).
Proof.
  erewrite learn_one_quiet; cycle 1.
  - erewrite learn_one_ingest_logical by reflexivity.
    cbn [n topics_a_b IZR].
    erewrite ingest_merge; [| apply closest_topic_b_again | reflexivity].
    cbn [bind]; reflexivity.
  - quiet.
  - run; rewrite !pow2_zero_rate, !omega_zero_rate by reflexivity.
    run; Rdecide; run; norm_state; same_state.
Qed.

(** [two_topics] is the store after three calls of [learn_one]. *)
Lemma two_topics_reached :
  learn_all plain_params init [[("a"%string, 2)]; [("b"%string, 2)]; [("b"%string, 2)]]
  = Ok two_topics.
Proof.
  cbn [learn_all].
  rewrite learn_topic_a; cbn [bind].
  rewrite learn_topic_b; cbn [bind].
  rewrite learn_topic_b_again; reflexivity.
Qed.

Lemma closest_topic_a_again :
  closest_to plain_params (with_clock topic_a (Some 2)) [("a"%string, 2)] 2
  = Ok (Some 0%Z, 0).
Proof.
  unfold closest_to; cbn [micro_clusters with_clock topic_a].
  unfold _calculateIDF; run; rewrite !math_log_pos by lra; run.
  unfold _get_closest_mc; cbn [micro_clusters with_clock topic_a closest_scan].
  rewrite (distance_parallel _ _ _ 4 4 4);
    [| covers | cbn; rewrite ln_1_1; lra | cbn; rewrite ln_1_1; lra
     | cbn; rewrite ln_1_1; lra | lra | lra | lra | lra].
  run; Rdecide; unfold choose_cluster; run; Rdecide; reflexivity.
Qed.

Lemma learn_topic_a_again :
  learn_one plain_params topic_a [("a"%string, 2)] None = Ok (one_topic, Some 0%Z).
Proof.
  erewrite learn_one_quiet; cycle 1.
  - erewrite learn_one_ingest_logical by reflexivity.
    cbn [n topic_a IZR].
    erewrite ingest_merge; [| apply closest_topic_a_again | reflexivity].
    cbn [bind]; reflexivity.
  - quiet.
  - run; rewrite !pow2_zero_rate, !omega_zero_rate by reflexivity.
    run; Rdecide; run; norm_state; same_state.
Qed.

(** [one_topic] is the store after two calls of [learn_one]. *)
Lemma one_topic_reached :
  learn_all plain_params init [[("a"%string, 2)]; [("a"%string, 2)]] = Ok one_topic.
Proof.
  cbn [learn_all].
  rewrite learn_topic_a; cbn [bind].
  rewrite learn_topic_a_again; reflexivity.
Qed.

(** *** Queries on [two_topics] *)

Ltac fade_store :=
  unfold evicted, microcluster.fade;
  cbn [microcluster.weight microcluster.time microcluster.tf microcluster.id
       microcluster.oldweight microcluster.deltaweight microcluster.n
       microcluster.merged_ids fading_factor term_fading plain_params scenario_params
       microcluster.fade_terms];
  rewrite !pow2_zero_rate, !omega_zero_rate by reflexivity;
  repeat (Rdecide;
          cbn [microcluster.weight microcluster.tf List.length Nat.eqb orb evict_all]).

Lemma fade_two_topics :
  evict_all plain_params (fade_all plain_params 3 (micro_clusters two_topics))
  = two_topics_survivors.
Proof.
  cbn [micro_clusters two_topics fade_all evict_all]; fade_store.
  unfold two_topics_survivors; same_state.
Qed.

Lemma fade_two_topics_survivors :
  evict_all plain_params (fade_all plain_params 3 two_topics_survivors)
  = two_topics_survivors.
Proof.
  cbn [two_topics_survivors fade_all evict_all]; fade_store.
  unfold two_topics_survivors; same_state.
Qed.

Lemma updateweights_two_topics :
  _updateweights plain_params two_topics
  = Ok (with_micro_clusters two_topics two_topics_survivors).
Proof.
  rewrite (updateweights_value _ _ 3) by reflexivity.
  rewrite fade_two_topics; reflexivity.
Qed.

Lemma nearest_two_topics_survivors :
  exists idf,
    _calculateIDF (dict_values two_topics_survivors) = Ok idf
    /\ nearest plain_params (microcluster.init [("b"%string, 2)] 1 1 None) idf
         two_topics_survivors Inf None
       = Ok (Finite 0, Some 1%Z).
Proof.
  eexists; split.
  - unfold _calculateIDF; run; rewrite !math_log_pos by lra; run; reflexivity.
  - cbn [nearest two_topics_survivors].
    cbn [microcluster.weight min_weight plain_params scenario_params].
    Rdecide.
    rewrite (distance_parallel _ _ _ 4 16 8);
      [| covers | cbn; rewrite ln_1_1; lra | cbn; rewrite ln_1_1; lra
       | cbn; rewrite ln_1_1; lra | lra | lra | lra | lra].
    cbn [bind xltb]; reflexivity.
Qed.

(** C2 as stated fails: after three observations the micro-level query
    for [{"b": 2}] answers with cluster 1 and removes cluster 0 from the
    store. *)
Lemma get_assignment_evicts_cluster :
  learn_all plain_params init [[("a"%string, 2)]; [("b"%string, 2)]; [("b"%string, 2)]]
  = Ok two_topics
  /\ get_assignment plain_params two_topics [("b"%string, 2)] "micro"
     = Ok (with_micro_clusters two_topics two_topics_survivors, Some 1%Z)
  /\ dict_keys (micro_clusters two_topics) = [0%Z; 1%Z]
  /\ dict_keys (micro_clusters (with_micro_clusters two_topics two_topics_survivors))
     = [1%Z].
Proof.
  split; [apply two_topics_reached|]; split; [|split; reflexivity].
  unfold get_assignment; rewrite updateweights_two_topics.
  cbn [bind micro_clusters with_micro_clusters].
  destruct nearest_two_topics_survivors as [idf [Hidf Hn]].
  rewrite Hidf; cbn [bind List.length Nat.ltb Nat.leb]; rewrite Hn; cbn [bind].
  reflexivity.
Qed.

(** C10 at a failing input.  After the observations [{"a": 2}], [{"b": 2}],
    [{"b": 2}] the macro-level query for [{"b": 2}] has cluster 1 as nearest
    cluster, a nonzero id, and raises [TypeError] where the claim has it
    return the macro index: with one qualifying cluster the assignment is
    not built and is still [None] at line 536. *)
Lemma macro_assignment_nonzero_raises :
  learn_all plain_params init [[("a"%string, 2)]; [("b"%string, 2)]; [("b"%string, 2)]]
  = Ok two_topics
  /\ (exists idf,
        _calculateIDF (dict_values two_topics_survivors) = Ok idf
        /\ nearest plain_params (microcluster.init [("b"%string, 2)] 1 1 None) idf
             two_topics_survivors Inf None
           = Ok (Finite 0, Some 1%Z))
  /\ get_assignment plain_params two_topics [("b"%string, 2)] "macro" = Raise TypeError.
Proof.
  split; [apply two_topics_reached|]; split; [apply nearest_two_topics_survivors|].
  unfold get_assignment; rewrite updateweights_two_topics.
  cbn [bind micro_clusters with_micro_clusters].
  destruct nearest_two_topics_survivors as [idf [Hidf Hn]].
  rewrite Hidf; cbn [bind List.length Nat.ltb Nat.leb]; rewrite Hn; cbn [bind].
  cbn [String.eqb Ascii.eqb Bool.eqb].
  unfold updateMacroClusters; cbn [_up_to_date with_micro_clusters two_topics].
  rewrite (updateweights_value _ _ 3) by reflexivity.
  cbn [micro_clusters with_micro_clusters]; rewrite fade_two_topics_survivors.
  cbn [bind micro_clusters with_micro_clusters two_topics_survivors qualifying
       microcluster.weight min_weight plain_params scenario_params].
  Rdecide; cbn [qualifying List.length Nat.ltb Nat.leb bind].
  reflexivity.
Qed.

(** *** Queries on [one_topic] *)

Lemma fade_one_topic_store :
  evict_all plain_params (fade_all plain_params 2 one_topic_store) = one_topic_store.
Proof.
  cbn [one_topic_store fade_all evict_all]; fade_store.
  unfold one_topic_store; same_state.
Qed.

Lemma nearest_one_topic_store :
  exists idf,
    _calculateIDF (dict_values one_topic_store) = Ok idf
    /\ nearest plain_params (microcluster.init [("a"%string, 2)] 1 1 None) idf
         one_topic_store Inf None
       = Ok (Finite 0, Some 0%Z).
Proof.
  eexists; split.
  - unfold _calculateIDF; run; rewrite !math_log_pos by lra; run; reflexivity.
  - cbn [nearest one_topic_store].
    cbn [microcluster.weight min_weight plain_params scenario_params].
    Rdecide.
    rewrite (distance_parallel _ _ _ 4 16 8);
      [| covers | cbn; rewrite ln_1_1; lra | cbn; rewrite ln_1_1; lra
       | cbn; rewrite ln_1_1; lra | lra | lra | lra | lra].
    cbn [bind xltb]; reflexivity.
Qed.

Lemma updateMacroClusters_one_topic :
  updateMacroClusters plain_params (with_micro_clusters one_topic one_topic_store)
  = Ok (with_micro_clusters (with_micro_clusters one_topic one_topic_store)
          one_topic_store).
Proof.
  unfold updateMacroClusters; cbn [_up_to_date with_micro_clusters one_topic].
  rewrite (updateweights_value _ _ 2) by reflexivity.
  cbn [micro_clusters with_micro_clusters]; rewrite fade_one_topic_store.
  cbn [bind micro_clusters with_micro_clusters one_topic_store qualifying
       microcluster.weight min_weight plain_params scenario_params].
  Rdecide; cbn [qualifying List.length Nat.ltb Nat.leb bind].
  reflexivity.
Qed.

(** After two observations [{"a": 2}] the macro-level query for
    [{"a": 2}] has cluster 0 as nearest cluster and answers [None]. *)
Lemma macro_assignment_guard_witness :
  get_assignment plain_params one_topic [("a"%string, 2)] "macro"
  = Ok (with_micro_clusters (with_micro_clusters one_topic one_topic_store)
          one_topic_store, None).
Proof.
  destruct nearest_one_topic_store as [idf [Hidf Hn]].
  refine (proj1 (macro_assignment_guard plain_params one_topic
                   (with_micro_clusters one_topic one_topic_store) _
                   [("a"%string, 2)] idf "macro" (Finite 0) (Some 0%Z)
                   _ _ _ Hidf Hn updateMacroClusters_one_topic) eq_refl).
  - reflexivity.
  - discriminate.
  - rewrite (updateweights_value _ _ 2) by reflexivity.
    change (micro_clusters one_topic) with one_topic_store.
    rewrite fade_one_topic_store; reflexivity.
Defined.

(** ** The statistics of the adaptive merge threshold *)

(** Both paths of the ingestion add the minimum distance to the running
    total; only the merge path counts the observation. *)
Lemma ingest_statistics p self x now self1 clusterId :
  ingest p self x now = Ok (self1, clusterId) ->
  exists closest d,
    closest_to p self x now = Ok (closest, d)
    /\ _dist_mean self1 = _dist_mean self + d
    /\ _num_merged_obs self1 = (_num_merged_obs self + merged_flag closest)%Z
    /\ (closest = None -> clusterId = Some (_clusterId self)
                          /\ _clusterId self1 = (_clusterId self + 1)%Z).
Proof.
  unfold ingest.
  destruct (closest_to p self x now) as [[closest d]| |]; cbn [bind]; try discriminate.
  destruct closest as [cid|].
  - destruct (dict_get (micro_clusters self) cid) as [target|]; [|discriminate].
    destruct (microcluster.merge _ _ _ _ _ _) as [target2 other].
    intros Heq; injection Heq as <- <-.
    exists (Some cid), d; split; [reflexivity|]; split; [reflexivity|].
    split; [reflexivity | intros Hc; discriminate].
  - intros Heq; injection Heq as <- <-.
    exists None, d; split; [reflexivity|]; split; [reflexivity|].
    split; [cbn [create_new _num_merged_obs merged_flag]; lia|].
    intros _; split; reflexivity.
Qed.

(** The two shapes of a call before the cleanup check. *)
Lemma learn_one_ingest_inv p self x t' self1 now clusterId :
  learn_one_ingest p self x t' = Ok (self1, now, clusterId) ->
  (if real_time_fading p then t' else Some (IZR (n self))) = Some now
  /\ ((x = [] /\ self1 = with_clock self (Some now) /\ clusterId = None)
      \/ (x <> [] /\ ingest p (with_clock self (Some now)) x now = Ok (self1, clusterId))).
Proof.
  unfold learn_one_ingest.
  destruct (if real_time_fading p then t' else Some (IZR (n self))) as [now'|];
    cbn [t with_clock]; [|discriminate].
  destruct x as [|kv x]; cbn [List.length Nat.ltb Nat.leb bind].
  - intros Heq; inversion Heq; subst; auto.
  - destruct (ingest _ _ _ _) as [[s c]| |] eqn:Eing; cbn [bind]; try discriminate.
    intros Heq; inversion Heq; subst; split; [reflexivity|].
    right; split; [discriminate | exact Eing].
Qed.

(** The statistics after the ingestion of a call are the statistics before
    it plus the entry of the call. *)
Lemma learn_one_ingest_statistics p self x t' self1 now clusterId entry :
  learn_one_ingest p self x t' = Ok (self1, now, clusterId) ->
  ingestion_entry p self x now entry ->
  _dist_mean self1 = _dist_mean self + total_distance entry
  /\ _num_merged_obs self1 = (_num_merged_obs self + merges entry)%Z.
Proof.
  intros Hi He.
  destruct (learn_one_ingest_inv _ _ _ _ _ _ _ Hi) as [_ Hshape].
  destruct He as [[Hx ->] | [Hx [closest [d [Hc ->]]]]];
    destruct Hshape as [[Hx' [-> _]] | [Hx' Hing]]; try contradiction.
  - cbn [total_distance merges with_clock _dist_mean _num_merged_obs].
    split; [lra | lia].
  - destruct (ingest_statistics _ _ _ _ _ _ Hing) as [closest' [d' [Hc' [Hd [Hm _]]]]].
    rewrite Hc in Hc'; injection Hc' as <- <-.
    cbn [total_distance merges]; rewrite Hd, Hm.
    cbn [with_clock _dist_mean _num_merged_obs]; split; [lra | lia].
Qed.

Lemma total_distance_app log1 log2 :
  total_distance (log1 ++ log2) = total_distance log1 + total_distance log2.
Proof.
  induction log1 as [|[d c] log1 IH]; cbn [app total_distance]; [lra | rewrite IH; lra].
Qed.

Lemma merges_app log1 log2 : merges (log1 ++ log2) = (merges log1 + merges log2)%Z.
Proof.
  induction log1 as [|[d c] log1 IH]; cbn [app merges]; [lia | rewrite IH; lia].
Qed.

(** The queries leave the two statistics alone. *)
Lemma updateweights_statistics p self self1 :
  _updateweights p self = Ok self1 ->
  _dist_mean self1 = _dist_mean self /\ _num_merged_obs self1 = _num_merged_obs self.
Proof.
  unfold _updateweights.
  destruct (micro_clusters self); [intros Heq; injection Heq as <-; split; reflexivity|].
  destruct (t self); [|discriminate].
  intros Heq; injection Heq as <-; split; reflexivity.
Qed.

Lemma updateMacroClusters_statistics p self self1 :
  updateMacroClusters p self = Ok self1 ->
  _dist_mean self1 = _dist_mean self /\ _num_merged_obs self1 = _num_merged_obs self.
Proof.
  unfold updateMacroClusters.
  destruct (_up_to_date self); [intros Heq; injection Heq as <-; split; reflexivity|].
  destruct (_updateweights p self) as [mid| |] eqn:Eu; cbn [bind]; try discriminate.
  destruct (updateweights_statistics p self mid Eu) as [Hd Hm].
  destruct (1 <? _)%nat.
  - destruct (_agglomerative_clustering _ _); cbn [bind]; try discriminate.
    intros Heq; injection Heq as <-; split; assumption.
  - intros Heq; injection Heq as <-; split; assumption.
Qed.

Lemma get_assignment_statistics p self x type self1 r :
  get_assignment p self x type = Ok (self1, r) ->
  _dist_mean self1 = _dist_mean self /\ _num_merged_obs self1 = _num_merged_obs self.
Proof.
  unfold get_assignment.
  destruct (_updateweights p self) as [s1| |] eqn:Eu; cbn [bind]; try discriminate.
  destruct (updateweights_statistics p self s1 Eu) as [Hd Hm].
  destruct (_calculateIDF _); cbn [bind]; try discriminate.
  destruct (0 <? List.length x)%nat;
    [|intros Heq; injection Heq as <- _; split; assumption].
  destruct (nearest _ _ _ _ _ _) as [[d closest]| |]; cbn [bind]; try discriminate.
  destruct (String.eqb type "micro");
    [intros Heq; injection Heq as <- _; split; assumption|].
  destruct (updateMacroClusters p s1) as [s2| |] eqn:Em; cbn [bind]; try discriminate.
  destruct (updateMacroClusters_statistics p s1 s2 Em) as [Hd2 Hm2].
  destruct (macro_of s2 closest); cbn [bind]; try discriminate.
  intros Heq; injection Heq as <- _; split; congruence.
Qed.

Lemma get_macroclusters_statistics p self self1 macros :
  get_macroclusters p self = Ok (self1, macros) ->
  _dist_mean self1 = _dist_mean self /\ _num_merged_obs self1 = _num_merged_obs self.
Proof.
  unfold get_macroclusters.
  destruct (updateMacroClusters p self) as [s1| |] eqn:Em; cbn [bind]; try discriminate.
  destruct (updateMacroClusters_statistics p self s1 Em) as [Hd Hm].
  destruct (microToMacro s1); [|discriminate].
  destruct (t s1);
    destruct (0 <? Z.min (num_macro p) (Z.of_nat (List.length (micro_clusters s1))))%Z;
    try discriminate;
    (destruct (merge_macros _ _ _ _ _) as [[macros' micros']| |]; cbn [bind];
     try discriminate; intros Heq; injection Heq as <- _; split; assumption).
Qed.

(** Over a run without cleanup the statistics grow by the log. *)
Lemma quiet_run_statistics p self log self' :
  quiet_run p self log self' ->
  _dist_mean self' = _dist_mean self + total_distance log
  /\ _num_merged_obs self' = (_num_merged_obs self + merges log)%Z.
Proof.
  induction 1 as [self
                 | self self1 self' x t' now cid entry log Hi Hc He Hrun IH
                 | self self1 self' x type r log Hq Hrun IH
                 | self self1 self' macros log Hq Hrun IH
                 | self self1 self' log Hq Hrun IH].
  - cbn [total_distance merges]; split; [lra | lia].
  - destruct (learn_one_ingest_statistics _ _ _ _ _ _ _ _ Hi He) as [Hd Hm].
    destruct IH as [IHd IHm]; cbn [with_n _dist_mean _num_merged_obs] in IHd, IHm.
    rewrite total_distance_app, merges_app, IHd, IHm, Hd, Hm; split; [lra | lia].
  - destruct (get_assignment_statistics _ _ _ _ _ _ Hq) as [Hd Hm].
    destruct IH as [IHd IHm]; rewrite IHd, IHm, Hd, Hm; split; reflexivity.
  - destruct (get_macroclusters_statistics _ _ _ _ Hq) as [Hd Hm].
    destruct IH as [IHd IHm]; rewrite IHd, IHm, Hd, Hm; split; reflexivity.
  - destruct (updateMacroClusters_statistics _ _ _ Hq) as [Hd Hm].
    destruct IH as [IHd IHm]; rewrite IHd, IHm, Hd, Hm; split; reflexivity.
Qed.

(** The cleanup hands the merge pass the statistics it was entered with, and
    resets them afterwards. *)
Lemma cleanup_threshold p self s :
  _updateweights p (with_last_cleanup self (t self)) = Ok s ->
  merge_threshold p (with_micro_clusters s (snapshot_all (micro_clusters s)))
  = merge_threshold p self.
Proof.
  unfold _updateweights; cbn [micro_clusters with_last_cleanup t].
  destruct (micro_clusters self) as [|km micros].
  - intros Heq; injection Heq as <-; reflexivity.
  - destruct (t self); [|discriminate].
    intros Heq; injection Heq as <-; reflexivity.
Qed.

Lemma cleanup_resets p self self' :
  _cleanup p self = Ok self' -> _dist_mean self' = 0 /\ _num_merged_obs self' = 0%Z.
Proof.
  unfold _cleanup.
  destruct (_updateweights _ _) as [s| |]; cbn [bind]; try discriminate.
  destruct (if auto_merge p then _ else _) as [s'| |]; cbn [bind]; try discriminate.
  intros Heq; injection Heq as <-; split; reflexivity.
Qed.

(** C1, as the code has it.  The merged-observation counter is incremented
    on merge-path ingestions only, but the running distance total grows by
    the minimum distance on every ingestion of a non-empty observation,
    create path included.  After a run of calls without cleanup that started
    with both at zero (a new object, or the end of a cleanup), with any
    queries between the ingestions, the threshold the merge pass of the next
    cleanup uses in adaptive mode is the sum of the minimum distances of all
    these ingestions divided by (the number of merge-path ingestions + 1). *)
Theorem merge_threshold_since_cleanup (p : params) (self0 self self1 : TextClust)
    (log entry : list (R * option Z)) (x : dict string R) (t' : option R) (now : R)
    (clusterId : option Z) :
  _dist_mean self0 = 0 ->
  _num_merged_obs self0 = 0%Z ->
  quiet_run p self0 log self ->
  learn_one_ingest p self x t' = Ok (self1, now, clusterId) ->
  ingestion_entry p self x now entry ->
  auto_r p = true ->
  _dist_mean self1 = total_distance (log ++ entry)
  /\ _num_merged_obs self1 = merges (log ++ entry)
  /\ merge_threshold p self1
     = total_distance (log ++ entry) / (IZR (merges (log ++ entry)) + 1)
  /\ (forall s,
        _updateweights p (with_last_cleanup self1 (t self1)) = Ok s ->
        merge_threshold p (with_micro_clusters s (snapshot_all (micro_clusters s)))
        = total_distance (log ++ entry) / (IZR (merges (log ++ entry)) + 1))
  /\ (forall self2,
        _cleanup p self1 = Ok self2 ->
        _dist_mean self2 = 0 /\ _num_merged_obs self2 = 0%Z).
Proof.
  intros Hd0 Hm0 Hrun Hi He Ha.
  destruct (quiet_run_statistics _ _ _ _ Hrun) as [Hd Hm].
  destruct (learn_one_ingest_statistics _ _ _ _ _ _ _ _ Hi He) as [Hd1 Hm1].
  assert (Hdist : _dist_mean self1 = total_distance (log ++ entry))
    by (rewrite total_distance_app, Hd1, Hd, Hd0; lra).
  assert (Hmerges : _num_merged_obs self1 = merges (log ++ entry))
    by (rewrite merges_app, Hm1, Hm, Hm0; lia).
  assert (Hthr : merge_threshold p self1
                 = total_distance (log ++ entry) / (IZR (merges (log ++ entry)) + 1))
    by (unfold merge_threshold; rewrite Ha, Hdist, Hmerges; reflexivity).
  repeat split; try assumption.
  - intros s Hs; rewrite (cleanup_threshold _ _ _ Hs); exact Hthr.
  - apply (cleanup_resets p self1 self2); assumption.
  - apply (cleanup_resets p self1 self2); assumption.
Qed.

Lemma closest_empty_adaptive p self x now :
  micro_clusters self = [] -> auto_r p = true ->
  closest_to p self x now = Ok (None, 1).
Proof.
  intros He Ha; unfold closest_to, _get_closest_mc; rewrite He.
  cbn [dict_values map _calculateIDF List.length document_frequency idf_of_counts bind
       closest_scan].
  rewrite choose_cluster_few by (try assumption; simpl; lia).
  reflexivity.
Qed.

Lemma first_created_ingest p :
  real_time_fading p = false -> auto_r p = true ->
  learn_one_ingest p init [("a"%string, 2)] None = Ok (first_created, 1, Some 0%Z).
Proof.
  intros Hr Ha.
  erewrite learn_one_ingest_logical by (try eassumption; reflexivity).
  cbn [n init IZR].
  erewrite ingest_create by (apply closest_empty_adaptive; [reflexivity | assumption]).
  reflexivity.
Qed.

Lemma closest_second p :
  auto_r p = true ->
  closest_to p (with_clock first_learned (Some 2)) [("b"%string, 2)] 2 = Ok (None, 1).
Proof.
  intros Ha; unfold closest_to.
  cbn [micro_clusters with_clock first_learned first_created with_n create_new init
       dict_set].
  unfold _calculateIDF; run; rewrite !math_log_pos by lra; run.
  unfold _get_closest_mc.
  cbn [micro_clusters with_clock first_learned first_created with_n create_new init
       dict_set closest_scan].
  rewrite distance_degenerate; [| covers | left; cbn; lra].
  cbn [bind]; rewrite choose_cluster_few by (try assumption; simpl; lia).
  cbn [bind min_dist]; Rdecide; reflexivity.
Qed.

Lemma second_created_ingest p :
  real_time_fading p = false -> auto_r p = true ->
  learn_one_ingest p first_learned [("b"%string, 2)] None
  = Ok (second_created, 2, Some 1%Z).
Proof.
  intros Hr Ha.
  erewrite learn_one_ingest_logical by (try eassumption; reflexivity).
  replace (IZR (n first_learned)) with 2 by (cbn; lra).
  erewrite ingest_create by (apply closest_second; assumption).
  reflexivity.
Qed.

(** C1 as stated fails: with a cleanup at every observation the first
    observation takes the create path, at distance 1; it raises the total
    from 0 to 1, and the threshold of the cleanup of that call is 1, not the
    0 that the merged observations alone, none, would give. *)
Lemma create_path_changes_total :
  closest_to eager_params (with_clock init (Some 1)) [("a"%string, 2)] 1 = Ok (None, 1)
  /\ learn_one_ingest eager_params init [("a"%string, 2)] None
     = Ok (first_created, 1, Some 0%Z)
  /\ cleanup_due eager_params first_created 1 = true
  /\ _dist_mean init = 0
  /\ _dist_mean first_created = 1
  /\ merge_threshold eager_params first_created = 1
  /\ merged_distance [(1, None)] / (IZR (merges [(1, None)]) + 1) = 0.
Proof.
  split; [apply closest_empty_adaptive; reflexivity|].
  split; [apply first_created_ingest; reflexivity|].
  split; [unfold cleanup_due; cbn; Rdecide; reflexivity|].
  split; [reflexivity|].
  split; [cbn; lra|].
  split; [unfold merge_threshold; cbn; lra | cbn; lra].
Qed.

(** ** The fuel of the loops is enough *)

Lemma merge_row_kept p now idf threshold ci rest :
  merge_row p now idf threshold ci rest <> OutOfFuel
  /\ forall ci' kept,
       merge_row p now idf threshold ci rest = Ok (ci', kept) ->
       (List.length kept <= List.length rest)%nat.
Proof.
  revert ci; induction rest as [|[kj cj] rest IH]; intros ci; cbn [merge_row].
  - split; [discriminate|].
    intros ci' kept Heq; injection Heq as _ <-; simpl; lia.
  - destruct (distances.dist ci cj idf) as [d|e|] eqn:Ed; cbn [bind].
    + destruct (Rltb d threshold).
      * destruct now as [tnow|]; [|split; [discriminate | intros ? ? Heq; discriminate]].
        destruct (microcluster.merge _ _ _ _ _ _) as [ci1 cj1].
        destruct (IH (microcluster.with_merged_ids ci1
                        (microcluster.merged_ids ci1 ++ [microcluster.id cj1])))
          as [IH1 IH2].
        split; [assumption|].
        intros ci' kept Heq; specialize (IH2 _ _ Heq); simpl; lia.
      * destruct (IH ci) as [IH1 IH2].
        destruct (merge_row p now idf threshold ci rest) as [[ci1 kept1]|e|];
          cbn [bind].
        -- split; [discriminate|].
           intros ci' kept Heq; injection Heq as _ <-.
           specialize (IH2 _ _ eq_refl); simpl; lia.
        -- split; [discriminate | intros ? ? Heq; discriminate].
        -- exfalso; apply IH1; reflexivity.
    + split; [discriminate | intros ? ? Heq; discriminate].
    + exfalso; revert Ed; unfold distances.dist, distances.tfidf_cosine_distance.
      destruct (distances.dot_and_len _ _ _ _ _) as [s l].
      unfold math_sqrt.
      destruct (Rltb l 0); cbn [bind]; [discriminate|].
      destruct (distances.micro_len _ _ _) as [m|e|] eqn:Em; cbn [bind];
        [| discriminate |].
      * destruct (Rltb m 0); cbn [bind]; [discriminate|].
        destruct (_ || _); discriminate.
      * exfalso; revert Em; generalize 0.
        induction (microcluster.tf cj) as [|[k w] b IHb]; intros r; cbn;
          [discriminate|].
        destruct (dict_get idf k); [apply IHb | discriminate].
Qed.

(** The merge pass does not run out of fuel. *)
Lemma merge_pass_fuel p now idf threshold fuel : forall micros,
  (List.length micros <= fuel)%nat ->
  merge_pass fuel p now idf threshold micros <> OutOfFuel.
Proof.
  induction fuel as [|fuel IH]; intros micros Hlen.
  - destruct micros; [discriminate | simpl in Hlen; lia].
  - destruct micros as [|[ki ci] rest]; cbn [merge_pass]; [discriminate|].
    destruct (merge_row_kept p now idf threshold ci rest) as [Hrow Hkept].
    destruct (merge_row p now idf threshold ci rest) as [[ci' kept]|e|];
      cbn [bind]; [| discriminate | contradiction].
    specialize (Hkept _ _ eq_refl).
    assert (Hk : (List.length kept <= fuel)%nat) by (simpl in Hlen; lia).
    specialize (IH kept Hk).
    destruct (merge_pass fuel p now idf threshold kept); cbn [bind];
      [discriminate | discriminate | contradiction].
Qed.

Lemma closest_pair_short distm clusters :
  (List.length clusters < 2)%nat -> snd (closest_pair distm clusters) = None.
Proof.
  intros Hlen; unfold closest_pair.
  destruct clusters as [|g [|g' rest]]; [reflexivity | reflexivity | simpl in Hlen; lia].
Qed.

(** The agglomerative loop does not run out of fuel, whatever the target
    count: it ends with [k] sets or with the [IndexError] of an empty
    [min_pair]. *)
Lemma agglomerate_fuel distm k fuel : forall clusters,
  nonempty_sets clusters ->
  (List.length clusters < fuel)%nat ->
  agglomerate fuel distm clusters k <> OutOfFuel.
Proof.
  induction fuel as [|fuel IH]; intros clusters Hne Hlen; [lia|].
  cbn [agglomerate].
  destruct (Z.of_nat (List.length clusters) =? k)%Z; [discriminate|].
  destruct (Nat.lt_ge_cases (List.length clusters) 2) as [Hs | Hl].
  - rewrite closest_pair_short by assumption; discriminate.
  - destruct (closest_pair_found distm clusters Hne Hl) as [i [j [Hp Hij]]].
    rewrite Hp; apply IH.
    + apply merge_sets_nonempty; assumption.
    + rewrite merge_sets_length by assumption; lia.
Qed.

(** [_agglomerative_clustering] returns or raises. *)
Lemma agglomerative_clustering_fuel micros k :
  _agglomerative_clustering micros k <> OutOfFuel.
Proof.
  unfold _agglomerative_clustering.
  destruct (get_distance_matrix_ok micros) as [distm Hd]; rewrite Hd; cbn [bind].
  apply agglomerate_fuel.
  - unfold nonempty_sets; apply Forall_forall; intros g Hin.
    apply in_map_iff in Hin as [i [<- _]]; discriminate.
  - unfold dict_keys; rewrite !length_map; lia.
Qed.

(** [_mergemicroclusters] returns or raises. *)
Lemma mergemicroclusters_fuel p self : _mergemicroclusters p self <> OutOfFuel.
Proof.
  unfold _mergemicroclusters.
  destruct (calculateIDF_ok (dict_values (micro_clusters self))) as [idf [Hidf _]].
  rewrite Hidf; cbn [bind].
  pose proof (merge_pass_fuel p (t self) idf (merge_threshold p self)
                (List.length (micro_clusters self)) (micro_clusters self) (le_n _)) as Hf.
  destruct (merge_pass _ _ _ _ _ _); cbn [bind];
    [discriminate | discriminate | contradiction].
Qed.

(** * Further properties of the code *)

(** ** Fading *)

Lemma pow2_pos y : 0 < pow2 y.
Proof. unfold pow2, Rpower; apply exp_pos. Qed.

Lemma fade_terms_unit d om :
  (forall k v, In (k, v) d -> ~ v <= om) -> microcluster.fade_terms d 1 om = d.
Proof.
  induction d as [|[k v] d IH]; intros Hd; cbn [microcluster.fade_terms]; [reflexivity|].
  rewrite Rleb_false by (rewrite Rmult_1_r; apply (Hd k); left; reflexivity).
  rewrite Rmult_1_r, IH; [reflexivity|].
  intros k' v' Hin; apply (Hd k'); right; assumption.
Qed.

(** What term fading leaves: entries of the vector, in their order, each
    multiplied by the factor and above the floor. *)
Lemma fade_terms_in d factor om k v :
  In (k, v) (microcluster.fade_terms d factor om) <->
  exists v0, In (k, v0) d /\ v = v0 * factor /\ ~ v0 * factor <= om.
Proof.
  induction d as [|[k0 v0] d IH]; cbn [microcluster.fade_terms].
  - split; [intros [] | intros [v1 [[] _]]].
  - destruct (Rleb (v0 * factor) om) eqn:E.
    + rewrite IH; split.
      * intros [v1 [Hin Hv]]; exists v1; split; [right; assumption | assumption].
      * intros [v1 [[Heq | Hin] [Hv Hn]]]; [|exists v1; auto].
        inversion Heq; subst; apply Rleb_le in E; contradiction.
    + assert (Hn : ~ v0 * factor <= om)
        by (intros Hc; apply Rleb_le in Hc; congruence).
      cbn [In]; rewrite IH; split.
      * intros [Heq | [v1 [Hin Hv]]].
        -- inversion Heq; subst; exists v0; split; [left; reflexivity | auto].
        -- exists v1; split; [right; assumption | assumption].
      * intros [v1 [[Heq | Hin] [Hv Hn1]]].
        -- inversion Heq; subst; left; reflexivity.
        -- right; exists v1; auto.
Qed.

Lemma fade_terms_keys d factor om :
  incl (dict_keys (microcluster.fade_terms d factor om)) (dict_keys d).
Proof.
  induction d as [|[k0 v0] d IH]; cbn [microcluster.fade_terms]; [apply incl_refl|].
  destruct (Rleb _ _); cbn [dict_keys map fst].
  - apply incl_tl, IH.
  - apply incl_cons; [left; reflexivity | apply incl_tl, IH].
Qed.

Lemma fade_terms_wf d factor om :
  dict_wf d -> dict_wf (microcluster.fade_terms d factor om).
Proof.
  unfold dict_wf; induction d as [|[k0 v0] d IH]; intros Hnd;
    cbn [microcluster.fade_terms]; [constructor|].
  inversion Hnd as [|? ? Hnot Hnd']; subst.
  destruct (Rleb _ _); [apply IH; assumption|].
  cbn [dict_keys map fst]; constructor; [|apply IH; assumption].
  intros Hin; apply Hnot, (fade_terms_keys d factor om), Hin.
Qed.

Lemma fade_again (c : microcluster.t) (now om ff : R) (tfade : bool) :
  microcluster.fade (microcluster.fade c now om ff tfade) now om ff tfade
  = microcluster.fade c now om ff tfade.
Proof.
  unfold microcluster.fade at 1.
  cbn [microcluster.time microcluster.weight microcluster.tf microcluster.id
       microcluster.oldweight microcluster.deltaweight microcluster.n
       microcluster.merged_ids microcluster.fade].
  replace (- ff * (now - now)) with 0 by lra.
  rewrite pow2_0, Rmult_1_r.
  unfold microcluster.fade; f_equal.
  destruct tfade; [|reflexivity].
  apply fade_terms_unit.
  intros k v Hin; apply fade_terms_in in Hin as [v0 [_ [-> Hn]]]; exact Hn.
Qed.

(** X1.  Fading a micro-cluster again to the time it was just faded to
    changes nothing: the factor is [2^0 = 1], and the terms that survived
    the floor survive it again. *)
Theorem fade_idempotent (c : microcluster.t) (now om ff : R) (tfade : bool) :
  microcluster.fade (microcluster.fade c now om ff tfade) now om ff tfade
  = microcluster.fade c now om ff tfade.
Proof. apply fade_again. Qed.

(** X2.  With term fading, every term a fade leaves was a term of the
    cluster, carries its old weight times the decay factor, and is above the
    floor [omega]; without term fading the vector is untouched. *)
Theorem fade_term_floor (c : microcluster.t) (now om ff : R) (tfade : bool)
    (k : string) (v : R) :
  In (k, v) (microcluster.tf (microcluster.fade c now om ff tfade)) <->
  if tfade
  then exists v0, In (k, v0) (microcluster.tf c)
                  /\ v = v0 * pow2 (- ff * (now - microcluster.time c))
                  /\ om < v
  else In (k, v) (microcluster.tf c).
Proof.
  cbn [microcluster.fade microcluster.tf]; destruct tfade; [|reflexivity].
  rewrite fade_terms_in; split.
  - intros [v0 [Hin [-> Hn]]]; exists v0; repeat split; try assumption; lra.
  - intros [v0 [Hin [-> Hn]]]; exists v0; repeat split; try assumption; lra.
Qed.

(** ** [_updateweights] *)

Lemma fade_all_in p now micros k m :
  In (k, m) (fade_all p now micros) ->
  exists m0, In (k, m0) micros
             /\ m = microcluster.fade m0 now (omega p) (fading_factor p) (term_fading p).
Proof.
  induction micros as [|[k0 m0] micros IH]; cbn [fade_all]; [intros []|].
  intros [Heq | Hin].
  - inversion Heq; subst; exists m0; split; [left; reflexivity | reflexivity].
  - destruct (IH Hin) as [m1 [Hin1 Hm]]; exists m1; split; [right; assumption | assumption].
Qed.

Lemma fade_evict_fixpoint p now micros :
  (forall k m, In (k, m) micros ->
     microcluster.fade m now (omega p) (fading_factor p) (term_fading p) = m
     /\ evicted p m = false) ->
  evict_all p (fade_all p now micros) = micros.
Proof.
  induction micros as [|[k m] micros IH]; intros Hall; cbn [fade_all evict_all];
    [reflexivity|].
  destruct (Hall k m (or_introl eq_refl)) as [Hf He].
  rewrite Hf, He, IH; [reflexivity|].
  intros k' m' Hin; apply (Hall k'); right; assumption.
Qed.

Lemma fade_evict_idempotent p now micros :
  evict_all p (fade_all p now (evict_all p (fade_all p now micros)))
  = evict_all p (fade_all p now micros).
Proof.
  apply fade_evict_fixpoint; intros k m Hin.
  apply evict_all_in in Hin as [Hin He]; split; [|assumption].
  apply fade_all_in in Hin as [m0 [_ ->]].
  apply fade_again.
Qed.

Lemma updateweights_again p self s1 :
  _updateweights p self = Ok s1 -> _updateweights p s1 = Ok s1.
Proof.
  unfold _updateweights at 1.
  destruct (micro_clusters self) as [|km micros] eqn:Em.
  - intros Heq; injection Heq as <-; unfold _updateweights; rewrite Em; reflexivity.
  - rewrite <- Em; destruct (t self) as [now|] eqn:Et; [|discriminate].
    intros Heq; injection Heq as <-.
    rewrite (updateweights_value p _ now) by (cbn [t with_micro_clusters]; assumption).
    cbn [micro_clusters with_micro_clusters]; rewrite fade_evict_idempotent.
    reflexivity.
Qed.

(** X3.  [_updateweights] is idempotent: a second call right after the
    first finds nothing more to fade or to evict and leaves the object as
    the first call left it. *)
Theorem updateweights_idempotent (p : params) (self s1 : TextClust) :
  _updateweights p self = Ok s1 ->
  _updateweights p s1 = Ok s1
  /\ forall k m, In (k, m) (micro_clusters s1) -> micro_clusters self <> [] ->
       Rleb (microcluster.weight m) (omega p) = false
       /\ microcluster.tf m <> [].
Proof.
  intros Hu; split; [apply (updateweights_again p self s1 Hu)|].
  intros k m Hin Hne.
  destruct (updateweights_store p self s1 Hu) as [_ [Hev _]].
  specialize (Hev Hne k m Hin); unfold evicted in Hev.
  apply orb_false_iff in Hev as [Hw Hl]; split; [assumption|].
  intros Htf; rewrite Htf in Hl; discriminate.
Qed.

Lemma updateweights_idempotent_witness :
  _updateweights plain_params (with_micro_clusters two_topics two_topics_survivors)
  = Ok (with_micro_clusters two_topics two_topics_survivors)
  /\ forall k m,
       In (k, m) (micro_clusters (with_micro_clusters two_topics two_topics_survivors)) ->
       micro_clusters two_topics <> [] ->
       Rleb (microcluster.weight m) (omega plain_params) = false
       /\ microcluster.tf m <> [].
Proof.
  exact (updateweights_idempotent plain_params two_topics
           (with_micro_clusters two_topics two_topics_survivors)
           updateweights_two_topics).
Defined.

(** ** The rarity weighting as a formula *)

Lemma dict_mem_in {V : Type} (d : dict string V) (k : string) :
  dict_mem d k = true <-> In k (dict_keys d).
Proof.
  unfold dict_mem; split.
  - destruct (dict_get d k) as [v|] eqn:E; [|discriminate].
    intros _; apply (dict_get_in_keys d k v E).
  - intros Hin; destruct (dict_keys_in d k Hin) as [v ->]; reflexivity.
Qed.

Lemma dict_mem_cons {V : Type} (d : dict string V) (k k0 : string) (v0 : V) :
  dict_mem ((k0, v0) :: d) k = (String.eqb k k0 || dict_mem d k)%bool.
Proof.
  unfold dict_mem; cbn [dict_get]; change (key_eqb k k0) with (String.eqb k k0).
  destruct (String.eqb k k0); reflexivity.
Qed.

(** One pass of lines 273-277 over a term vector adds one to the count of
    each of its terms. *)
Lemma count_terms_get terms res k :
  dict_wf terms ->
  dict_get (count_terms terms res) k
  = if dict_mem terms k then Some (count_of res k + 1)%Z else dict_get res k.
Proof.
  unfold dict_wf; revert res; induction terms as [|[k0 v0] terms IH]; intros res Hnd;
    cbn [count_terms]; [reflexivity|].
  inversion Hnd as [|? ? Hnot Hnd']; subst.
  rewrite dict_mem_cons.
  assert (Hstep : forall c,
            dict_get (count_terms terms (dict_set res k0 c)) k
            = if (String.eqb k k0 || dict_mem terms k)%bool
              then Some (if String.eqb k k0 then c else count_of res k + 1)%Z
              else dict_get res k).
  { intros c; rewrite IH by assumption.
    destruct (String.eqb k k0) eqn:E.
    - apply String.eqb_eq in E; subst k0.
      assert (Hm : dict_mem terms k = false).
      { destruct (dict_mem terms k) eqn:Em; [|reflexivity].
        apply dict_mem_in in Em; contradiction. }
      rewrite Hm; cbn [orb]; apply dict_get_set_same.
    - apply String.eqb_neq in E; cbn [orb].
      unfold count_of; rewrite dict_get_set_other by assumption; reflexivity. }
  destruct (dict_get res k0) as [c0|] eqn:E0; rewrite Hstep.
  - destruct (String.eqb k k0) eqn:E; [|reflexivity].
    apply String.eqb_eq in E; subst k0; cbn [orb].
    unfold count_of; rewrite E0; reflexivity.
  - destruct (String.eqb k k0) eqn:E; [|reflexivity].
    apply String.eqb_eq in E; subst k0; cbn [orb].
    unfold count_of; rewrite E0; reflexivity.
Qed.

(** The frequency table holds, for every term, the number of clusters that
    have it, and no entry for a term that none has. *)
Lemma document_frequency_get micros : forall res (f : string -> Z),
  Forall (fun m => dict_wf (microcluster.tf m)) micros ->
  (forall k, (0 <= f k)%Z
             /\ dict_get res k = if (f k =? 0)%Z then None else Some (f k)) ->
  forall k,
    dict_get (document_frequency micros res) k
    = if (f k + contains_count micros k =? 0)%Z then None
      else Some (f k + contains_count micros k)%Z.
Proof.
  induction micros as [|m micros IH]; intros res f Hwf Hf k;
    cbn [document_frequency contains_count].
  - rewrite Z.add_0_r; apply Hf.
  - inversion Hwf as [|? ? Hm Hwf']; subst.
    rewrite (IH _ (fun k => (f k + (if dict_mem (microcluster.tf m) k then 1 else 0))%Z)).
    + rewrite Z.add_assoc; reflexivity.
    + assumption.
    + intros k'; destruct (Hf k') as [Hpos Hget].
      rewrite count_terms_get by assumption.
      assert (Hc : count_of res k' = f k').
      { unfold count_of; rewrite Hget.
        destruct (f k' =? 0)%Z eqn:E; [apply Z.eqb_eq in E; lia | reflexivity]. }
      destruct (dict_mem (microcluster.tf m) k').
      * split; [lia|].
        rewrite Hc, (proj2 (Z.eqb_neq _ _)) by lia; reflexivity.
      * split; [lia|]; rewrite Z.add_0_r; exact Hget.
Qed.

Lemma contains_count_bounds micros k :
  (0 <= contains_count micros k <= Z.of_nat (List.length micros))%Z.
Proof.
  induction micros as [|m micros IH]; cbn [contains_count List.length]; [lia|].
  destruct (dict_mem _ _); lia.
Qed.

Lemma idf_of_counts_get len_micros res idf k :
  idf_of_counts len_micros res = Ok idf ->
  dict_get idf k
  = match dict_get res k with
    | Some c => Some (1 + ln (IZR (Z.of_nat len_micros) / IZR c))
    | None => None
    end.
Proof.
  revert idf; induction res as [|[k0 c0] res IH]; intros idf; cbn [idf_of_counts].
  - intros Heq; injection Heq as <-; reflexivity.
  - unfold math_log; destruct (Rltb 0 _); cbn [bind]; [|discriminate].
    destruct (idf_of_counts len_micros res) as [rest| |]; cbn [bind]; try discriminate.
    intros Heq; injection Heq as <-; cbn [dict_get].
    destruct (key_eqb k k0); [reflexivity | apply IH; reflexivity].
Qed.

(** X4.  For micro-clusters whose term vectors are dictionaries,
    [_calculateIDF] returns a weighting with an entry exactly for the terms
    that occur in a cluster, the entry of a term being [1 + ln(N / df)] for
    the number [N] of clusters and the number [df] of clusters that have the
    term; every entry is at least 1. *)
Theorem calculateIDF_formula (micros : list microcluster.t) :
  Forall (fun m => dict_wf (microcluster.tf m)) micros ->
  exists idf : dict string R,
    _calculateIDF micros = Ok idf
    /\ forall k,
         dict_get idf k
         = (if (contains_count micros k =? 0)%Z then None
            else Some (1 + ln (IZR (Z.of_nat (List.length micros))
                               / IZR (contains_count micros k))))
         /\ forall v, dict_get idf k = Some v -> 1 <= v.
Proof.
  intros Hwf.
  destruct (calculateIDF_ok micros) as [idf [Hidf _]].
  exists idf; split; [assumption|]; intros k.
  assert (Hget : dict_get idf k
                 = if (contains_count micros k =? 0)%Z then None
                   else Some (1 + ln (IZR (Z.of_nat (List.length micros))
                                      / IZR (contains_count micros k)))).
  { unfold _calculateIDF in Hidf.
    rewrite (idf_of_counts_get _ _ _ k Hidf).
    rewrite (document_frequency_get micros [] (fun _ => 0%Z) Hwf)
      by (intros k'; split; [lia | reflexivity]).
    cbn [Z.add]; destruct (contains_count micros k =? 0)%Z; reflexivity. }
  split; [exact Hget|].
  intros v Hv; rewrite Hget in Hv.
  destruct (contains_count micros k =? 0)%Z eqn:E; [discriminate|].
  injection Hv as <-; apply Z.eqb_neq in E.
  pose proof (contains_count_bounds micros k) as [Hlo Hhi].
  assert (Hc : 0 < IZR (contains_count micros k)) by (apply IZR_lt; lia).
  assert (Hn : IZR (contains_count micros k) <= IZR (Z.of_nat (List.length micros)))
    by (apply IZR_le; lia).
  assert (Hq : 1 <= IZR (Z.of_nat (List.length micros)) / IZR (contains_count micros k)).
  { apply (Rmult_le_reg_r (IZR (contains_count micros k))); [assumption|].
    unfold Rdiv; rewrite Rmult_assoc, Rinv_l by lra; lra. }
  destruct Hq as [Hlt | Heq].
  - pose proof (ln_increasing 1 _ ltac:(lra) Hlt) as Hln; rewrite ln_1 in Hln; lra.
  - rewrite <- Heq, ln_1; lra.
Qed.

Lemma calculateIDF_formula_witness :
  exists idf : dict string R,
    _calculateIDF (dict_values example_micros) = Ok idf
    /\ forall k,
         dict_get idf k
         = (if (contains_count (dict_values example_micros) k =? 0)%Z then None
            else Some (1 + ln (IZR (Z.of_nat (List.length (dict_values example_micros)))
                               / IZR (contains_count (dict_values example_micros) k))))
         /\ forall v, dict_get idf k = Some v -> 1 <= v.
Proof.
  apply (calculateIDF_formula (dict_values example_micros)).
  repeat constructor; simpl; intuition discriminate.
Defined.

(** ** Errors and degenerate cases of the distance *)

Lemma micro_len_cases b idf l :
  (covered b idf /\ distances.micro_len b idf l = Ok (l + sq_len b idf))
  \/ (~ covered b idf /\ distances.micro_len b idf l = Raise KeyError).
Proof.
  revert l; induction b as [|[k w] b IH]; intros l.
  - left; split; [apply covered_nil | apply micro_len_closed, covered_nil].
  - destruct (dict_get idf k) as [i|] eqn:Hk.
    + destruct (IH (l + w * i * w * i)) as [[Hc _] | [Hn _]].
      * left; assert (Hc' : covered ((k, w) :: b) idf)
          by (apply (covered_cons k w b idf i); assumption).
        split; [assumption | apply micro_len_closed; assumption].
      * right; assert (Hn' : ~ covered ((k, w) :: b) idf).
        { intros Hc; apply Hn; intros k' Hin; apply Hc; right; assumption. }
        split; [assumption | apply micro_len_uncovered; assumption].
    + right; assert (Hn' : ~ covered ((k, w) :: b) idf).
      { intros Hc; apply (Hc k); [left; reflexivity | assumption]. }
      split; [assumption | apply micro_len_uncovered; assumption].
Qed.

Lemma tfidf_cosine_distance_uncovered mc other idf :
  ~ covered (microcluster.tf other) idf ->
  distances.tfidf_cosine_distance mc other idf = Raise KeyError.
Proof.
  intros Hn; unfold distances.tfidf_cosine_distance.
  rewrite dot_and_len_closed, !Rplus_0_l.
  rewrite math_sqrt_nonneg by apply sq_len_nonneg; cbn [bind].
  rewrite micro_len_uncovered by assumption; reflexivity.
Qed.

(** X5.  The only way [tfidf_cosine_distance] fails is the [KeyError] of
    line 612, raised exactly when a term of the second vector has no entry
    in the rarity weighting; [math.sqrt] never sees a negative number and the
    division never a zero. *)
Theorem tfidf_cosine_distance_errors (mc other : microcluster.t) (idf : dict string R) :
  (distances.tfidf_cosine_distance mc other idf = Raise KeyError
   <-> ~ covered (microcluster.tf other) idf)
  /\ (forall e, distances.tfidf_cosine_distance mc other idf = Raise e -> e = KeyError)
  /\ ((exists d, distances.tfidf_cosine_distance mc other idf = Ok d)
      <-> covered (microcluster.tf other) idf).
Proof.
  destruct (micro_len_cases (microcluster.tf other) idf 0) as [[Hc _] | [Hn _]].
  - destruct (distance_total mc other idf Hc) as [d Hd].
    split; [|split].
    + rewrite Hd; split; [discriminate | intros Hn; contradiction].
    + intros e He; rewrite Hd in He; discriminate.
    + split; [intros _; assumption | intros _; eauto].
  - pose proof (tfidf_cosine_distance_uncovered mc other idf Hn) as Hr.
    split; [|split].
    + rewrite Hr; split; [intros _; assumption | reflexivity].
    + intros e He; rewrite Hr in He; injection He as <-; reflexivity.
    + split; [intros [d Hd]; rewrite Hr in Hd; discriminate | intros Hc; contradiction].
Qed.

Lemma sq_len_unknown a idf :
  (forall k, In k (dict_keys a) -> dict_get idf k = None) -> sq_len a idf = 0.
Proof.
  induction a as [|[k v] a IH]; intros Hu; cbn [sq_len]; [reflexivity|].
  unfold len_term; rewrite (Hu k) by (left; reflexivity).
  rewrite IH; [lra|].
  intros k' Hin; apply Hu; right; assumption.
Qed.

(** X6.  An observation none of whose terms is known to the rarity
    weighting (new vocabulary, or no term at all) is at distance exactly 1
    from every stored cluster, and so is every observation from a cluster
    whose term vector is empty. *)
Theorem distance_new_vocabulary (mc other : microcluster.t) (idf : dict string R) :
  covered (microcluster.tf other) idf ->
  (forall k, In k (dict_keys (microcluster.tf mc)) -> dict_get idf k = None)
  \/ microcluster.tf other = [] ->
  distances.dist mc other idf = Ok 1.
Proof.
  intros Hc [Hu | He]; apply distance_degenerate; try assumption.
  - left; apply sq_len_unknown; assumption.
  - right; rewrite He; reflexivity.
Qed.

Lemma distance_new_vocabulary_witness :
  distances.dist example_cluster_x example_cluster [("a"%string, 1)] = Ok 1.
Proof.
  apply (distance_new_vocabulary example_cluster_x example_cluster [("a"%string, 1)]).
  - intros k [<- | []]; simpl; discriminate.
  - left; intros k [<- | []]; reflexivity.
Defined.

(** ** What the searches return *)

Lemma closest_scan_inv mc idf micros : forall seen s0 s,
  scan_inv mc idf seen s0 ->
  closest_scan mc idf micros s0 = Ok s ->
  scan_inv mc idf (seen ++ micros) s.
Proof.
  induction micros as [|[key micro] micros IH]; intros seen s0 s Hinv; cbn [closest_scan].
  - intros Heq; injection Heq as <-; rewrite app_nil_r; assumption.
  - destruct (distances.dist mc micro idf) as [d| |] eqn:Ed; cbn [bind]; try discriminate.
    intros Hs.
    replace (seen ++ (key, micro) :: micros) with ((seen ++ [(key, micro)]) ++ micros)
      by (rewrite <- app_assoc; reflexivity).
    refine (IH _ _ _ _ Hs).
    destruct Hinv as [H1 [Hmin [Hnone Hsome]]].
    unfold scan_inv; cbn [min_dist smallest_key].
    destruct (Rltb d (min_dist s0)) eqn:E.
    + apply Rltb_lt in E.
      split; [lra|]; split; [|split; [discriminate|]].
      * intros k m d' Hin Hd; apply in_app_or in Hin as [Hin | [Heq | []]].
        -- specialize (Hmin k m d' Hin Hd); lra.
        -- inversion Heq; subst; rewrite Ed in Hd; injection Hd as <-; lra.
      * intros k Hk; injection Hk as <-; split; [lra|].
        exists micro; split; [apply in_or_app; right; left; reflexivity | assumption].
    + assert (Hge : min_dist s0 <= d).
      { destruct (Rle_dec (min_dist s0) d); [assumption|].
        rewrite Rltb_true in E by lra; discriminate. }
      split; [assumption|]; split; [|split; [assumption|]].
      * intros k m d' Hin Hd; apply in_app_or in Hin as [Hin | [Heq | []]].
        -- apply (Hmin k m d' Hin Hd).
        -- inversion Heq; subst; rewrite Ed in Hd; injection Hd as <-; assumption.
      * intros k Hk; destruct (Hsome k Hk) as [Hlt [m [Hin Hd]]].
        split; [assumption|].
        exists m; split; [apply in_or_app; left; assumption | assumption].
Qed.

(** X7.  What [_get_closest_mc] returns.  The distance is the least of 1
    and the distances to the stored clusters: it is at most 1 and at most
    every such distance, and it is 1 or the distance to a stored cluster,
    whether or not a cluster is returned.  A returned cluster is a stored
    cluster at exactly that distance, which is below 1; and with the fixed
    threshold a cluster is returned exactly when that distance is below both
    1 and the radius. *)
Theorem get_closest_mc_minimal (p : params) (self : TextClust) (mc : microcluster.t)
    (idf : dict string R) (r : option Z) (d : R) :
  _get_closest_mc p self mc idf = Ok (r, d) ->
  d <= 1
  /\ (forall k m dk, In (k, m) (micro_clusters self) ->
        distances.dist mc m idf = Ok dk -> d <= dk)
  /\ (d = 1 \/ exists k m, In (k, m) (micro_clusters self)
                           /\ distances.dist mc m idf = Ok d)
  /\ (forall k, r = Some k ->
        d < 1 /\ exists m, In (k, m) (micro_clusters self)
                           /\ distances.dist mc m idf = Ok d)
  /\ (auto_r p = false -> (r <> None <-> d < 1 /\ d < radius p)).
Proof.
  unfold _get_closest_mc.
  destruct (closest_scan _ _ _ _) as [s| |] eqn:Es; cbn [bind]; try discriminate.
  assert (Hinv : scan_inv mc idf (micro_clusters self) s).
  { refine (closest_scan_inv mc idf (micro_clusters self) [] _ s _ Es).
    unfold scan_inv; cbn [min_dist smallest_key].
    split; [lra|]; split; [intros ? ? ? []|]; split; [reflexivity | discriminate]. }
  destruct Hinv as [H1 [Hmin [Hnone Hsome]]].
  destruct (choose_cluster p s) as [c| |] eqn:Ec; cbn [bind]; try discriminate.
  intros Heq; injection Heq as <- <-.
  assert (Hsub : forall k, c = Some k -> smallest_key s = Some k).
  { intros k ->; revert Ec; unfold choose_cluster.
    destruct (auto_r p).
    - destruct (1 <? counter s)%nat; [|discriminate].
      destruct (math_sqrt _); cbn [bind]; try discriminate.
      destruct (Rltb _ _); intros Heq; injection Heq as Heq; congruence.
    - destruct (Rltb _ _); intros Heq; injection Heq as Heq; congruence. }
  split; [assumption|]; split; [assumption|]; split; [|split].
  - destruct (smallest_key s) as [k|] eqn:Ek.
    + destruct (Hsome k eq_refl) as [_ [m [Hin Hd]]].
      right; exists k, m; split; assumption.
    + left; apply Hnone; reflexivity.
  - intros k Hk; apply Hsome, Hsub, Hk.
  - intros Ha; revert Ec; unfold choose_cluster; rewrite Ha.
    destruct (Rltb (min_dist s) (radius p)) eqn:E; intros Heq; injection Heq as <-.
    + apply Rltb_lt in E.
      destruct (smallest_key s) as [k|] eqn:Ek.
      * destruct (Hsome k eq_refl) as [Hlt _].
        split; [intros _; split; assumption | intros _; discriminate].
      * specialize (Hnone eq_refl).
        split; [intros Hc; contradiction | intros [Hlt _]; lra].
    + split; [intros Hc; contradiction|].
      intros [_ Hlt]; rewrite Rltb_true in E by assumption; discriminate.
Qed.

Lemma get_closest_mc_minimal_witness :
  exists idf,
    _calculateIDF (dict_values (micro_clusters (with_clock topics_a_b (Some 3)))) = Ok idf
    /\ 0 <= 1
    /\ (forall k m dk, In (k, m) (micro_clusters (with_clock topics_a_b (Some 3))) ->
          distances.dist (microcluster.init [("b"%string, 2)] 3 1 (Some 2%Z)) m idf = Ok dk ->
          0 <= dk)
    /\ (0 = 1 \/ exists k m, In (k, m) (micro_clusters (with_clock topics_a_b (Some 3)))
                             /\ distances.dist
                                  (microcluster.init [("b"%string, 2)] 3 1 (Some 2%Z))
                                  m idf = Ok 0)
    /\ (forall k, Some 1%Z = Some k ->
          0 < 1
          /\ exists m, In (k, m) (micro_clusters (with_clock topics_a_b (Some 3)))
                       /\ distances.dist (microcluster.init [("b"%string, 2)] 3 1 (Some 2%Z))
                            m idf = Ok 0)
    /\ (auto_r plain_params = false ->
        (Some 1%Z <> None <-> 0 < 1 /\ 0 < radius plain_params)).
Proof.
  destruct (bind_ok _ _ _ closest_topic_b_again) as [idf [Hidf Hg]].
  exists idf; split; [exact Hidf|].
  exact (get_closest_mc_minimal plain_params (with_clock topics_a_b (Some 3))
           (microcluster.init [("b"%string, 2)] 3 1 (Some 2%Z)) idf (Some 1%Z) 0 Hg).
Defined.

Lemma nearest_search_inv p mc idf micros : forall seen dist closest r,
  nearest_inv p mc idf seen (dist, closest) ->
  nearest p mc idf micros dist closest = Ok r ->
  nearest_inv p mc idf (seen ++ micros) r.
Proof.
  induction micros as [|[key micro] micros IH]; intros seen dist closest r Hinv;
    cbn [nearest].
  - intros Heq; injection Heq as <-; rewrite app_nil_r; assumption.
  - replace (seen ++ (key, micro) :: micros) with ((seen ++ [(key, micro)]) ++ micros)
      by (rewrite <- app_assoc; reflexivity).
    destruct Hinv as [Hnone Hsome]; cbn [fst snd] in Hnone, Hsome.
    fold (qualifies p micro).
    destruct (qualifies p micro) eqn:Eq.
    + destruct (distances.dist mc micro idf) as [cur| |] eqn:Ed; cbn [bind];
        try discriminate.
      destruct (xltb cur dist) eqn:Ex; intros Hr; refine (IH _ _ _ _ _ Hr);
        split; cbn [fst snd]; try discriminate.
      * intros k Hk; injection Hk as <-.
        exists micro, cur; split; [apply in_or_app; right; left; reflexivity|].
        split; [assumption|]; split; [assumption|]; split; [reflexivity|].
        intros k' m' d' Hin Hq Hd; apply in_app_or in Hin as [Hin | [Heq | []]].
        -- destruct closest as [k0|].
           ++ destruct (Hsome k0 eq_refl) as [m0 [d0 [_ [_ [_ [Hf Hle]]]]]].
              rewrite Hf in Ex; cbn [xltb] in Ex; apply Rltb_lt in Ex.
              specialize (Hle k' m' d' Hin Hq Hd); lra.
           ++ destruct (Hnone eq_refl) as [_ Hq0].
              rewrite (Hq0 k' m' Hin) in Hq; discriminate.
        -- inversion Heq; subst; rewrite Ed in Hd; injection Hd as <-; lra.
      * intros Hc; destruct (Hnone Hc) as [Hf _].
        rewrite Hf in Ex; discriminate.
      * intros k Hk; destruct (Hsome k Hk) as [m0 [d0 [Hin0 [Hq0 [Hd0 [Hf Hle]]]]]].
        exists m0, d0; split; [apply in_or_app; left; assumption|].
        split; [assumption|]; split; [assumption|]; split; [assumption|].
        intros k' m' d' Hin Hq Hd; apply in_app_or in Hin as [Hin | [Heq | []]].
        -- apply (Hle k' m' d' Hin Hq Hd).
        -- injection Heq as <- <-; rewrite Ed in Hd; injection Hd as Hcd.
           rewrite Hf in Ex; cbn [xltb] in Ex; rewrite <- Hcd.
           destruct (Rle_dec d0 cur) as [Hle'|Hn]; [assumption|].
           rewrite Rltb_true in Ex by lra; discriminate.
    + intros Hr; refine (IH _ _ _ _ _ Hr); split; cbn [fst snd].
      * intros Hc; destruct (Hnone Hc) as [Hf Hq0]; split; [assumption|].
        intros k m Hin; apply in_app_or in Hin as [Hin | [Heq | []]];
          [apply (Hq0 k m Hin) | inversion Heq; subst; assumption].
      * intros k Hk; destruct (Hsome k Hk) as [m0 [d0 [Hin0 [Hq0 [Hd0 [Hf Hle]]]]]].
        exists m0, d0; split; [apply in_or_app; left; assumption|].
        split; [assumption|]; split; [assumption|]; split; [assumption|].
        intros k' m' d' Hin Hq Hd; apply in_app_or in Hin as [Hin | [Heq | []]].
        -- apply (Hle k' m' d' Hin Hq Hd).
        -- inversion Heq; subst; rewrite Eq in Hq; discriminate.
Qed.

(** X8.  The micro-level assignment query on an object whose clock is set
    returns.  For an empty observation the answer is [None].  For a
    non-empty one the answer is [None] exactly when no cluster left by the
    fading has weight above [min_weight]; otherwise it is a cluster of the
    store the query leaves, of weight above [min_weight], with the least
    distance among such clusters. *)
Theorem micro_assignment_nearest (p : params) (self : TextClust) (x : dict string R)
    (now : R) :
  t self = Some now ->
  exists (s1 : TextClust) (idf : dict string R) (r : option Z),
    _updateweights p self = Ok s1
    /\ _calculateIDF (dict_values (micro_clusters s1)) = Ok idf
    /\ get_assignment p self x "micro" = Ok (s1, r)
    /\ (x = [] -> r = None)
    /\ (x <> [] ->
        (r = None <-> forall k m, In (k, m) (micro_clusters s1) -> qualifies p m = false)
        /\ forall k, r = Some k ->
             exists m d,
               In (k, m) (micro_clusters s1) /\ qualifies p m = true
               /\ distances.dist (microcluster.init x 1 1 None) m idf = Ok d
               /\ forall k' m' d', In (k', m') (micro_clusters s1) ->
                    qualifies p m' = true ->
                    distances.dist (microcluster.init x 1 1 None) m' idf = Ok d' ->
                    d <= d').
Proof.
  intros Ht.
  pose proof (updateweights_value p self now Ht) as Hu.
  set (s1 := with_micro_clusters self _) in Hu.
  destruct (calculateIDF_ok (dict_values (micro_clusters s1))) as [idf [Hidf Hcov]].
  destruct (nearest_ok p (microcluster.init x 1 1 None) idf (micro_clusters s1) Inf None
              Hcov) as [[dist closest] Hn].
  assert (Hinv : nearest_inv p (microcluster.init x 1 1 None) idf (micro_clusters s1)
                   (dist, closest)).
  { refine (nearest_search_inv p _ idf (micro_clusters s1) [] Inf None _ _ Hn).
    split; cbn [fst snd]; [|discriminate].
    intros _; split; [reflexivity | intros ? ? []]. }
  destruct x as [|kv x].
  - exists s1, idf, None; split; [assumption|]; split; [assumption|].
    split; [|split; [reflexivity | intros Hc; contradiction]].
    unfold get_assignment; rewrite Hu; cbn [bind]; rewrite Hidf; reflexivity.
  - exists s1, idf, closest; split; [assumption|]; split; [assumption|].
    split; [|split; [discriminate|]].
    + unfold get_assignment; rewrite Hu; cbn [bind]; rewrite Hidf; cbn [bind].
      cbn [List.length Nat.ltb Nat.leb]; rewrite Hn; reflexivity.
    + intros _; destruct Hinv as [Hnone Hsome]; cbn [fst snd] in Hnone, Hsome.
      split.
      * split; [intros Hc; apply (Hnone Hc)|].
        intros Hall; destruct closest as [k|]; [|reflexivity].
        destruct (Hsome k eq_refl) as [m [d [Hin [Hq _]]]].
        rewrite (Hall k m Hin) in Hq; discriminate.
      * intros k Hk; destruct (Hsome k Hk) as [m [d [Hin [Hq [Hd [_ Hle]]]]]].
        exists m, d; auto.
Qed.

Lemma micro_assignment_nearest_witness :
  exists (s1 : TextClust) (idf : dict string R) (r : option Z),
    _updateweights plain_params two_topics = Ok s1
    /\ _calculateIDF (dict_values (micro_clusters s1)) = Ok idf
    /\ get_assignment plain_params two_topics [("b"%string, 2)] "micro" = Ok (s1, r)
    /\ ([("b"%string, 2)] = [] -> r = None)
    /\ ([("b"%string, 2)] <> [] ->
        (r = None <-> forall k m, In (k, m) (micro_clusters s1) ->
                                  qualifies plain_params m = false)
        /\ forall k, r = Some k ->
             exists m d,
               In (k, m) (micro_clusters s1) /\ qualifies plain_params m = true
               /\ distances.dist (microcluster.init [("b"%string, 2)] 1 1 None) m idf = Ok d
               /\ forall k' m' d', In (k', m') (micro_clusters s1) ->
                    qualifies plain_params m' = true ->
                    distances.dist (microcluster.init [("b"%string, 2)] 1 1 None) m' idf
                    = Ok d' ->
                    d <= d').
Proof.
  exact (micro_assignment_nearest plain_params two_topics [("b"%string, 2)] 3 eq_refl).
Defined.

(** ** Merging term vectors *)

Section DictSetMore.
Context {K V : Type} `{Key K}.

Lemma dict_set_in_key (d : dict K V) (k k' : K) (v v' : V) :
  In (k', v') (dict_set d k v) -> (k' = k /\ v' = v) \/ In (k', v') d.
Proof.
  induction d as [|[k0 v0] d IH]; simpl.
  - intros [Heq | []]; inversion Heq; auto.
  - destruct (key_eqb k k0) eqn:E; simpl.
    + apply key_eqb_eq in E; subst k0.
      intros [Heq | Hin]; [inversion Heq; auto | auto].
    + intros [Heq | Hin]; [auto | destruct (IH Hin); auto].
Qed.

Lemma dict_set_wf (d : dict K V) (k : K) (v : V) : dict_wf d -> dict_wf (dict_set d k v).
Proof.
  unfold dict_wf; intros Hwf.
  destruct (dict_get d k) as [v0|] eqn:E.
  - rewrite dict_set_keys_present; [assumption | apply (dict_get_in_keys d k v0 E)].
  - assert (Hn : ~ In k (dict_keys d)).
    { intros Hin; destruct (dict_keys_in d k Hin) as [v1 Hv]; congruence. }
    rewrite dict_set_keys_absent by assumption.
    apply NoDup_app; [assumption | repeat constructor; intros [] |].
    intros a Ha [<- | []]; contradiction.
Qed.

End DictSetMore.

Lemma merge_terms_wf mine other :
  dict_wf mine -> dict_wf (microcluster.merge_terms mine other).
Proof.
  revert mine; induction other as [|[k v] other IH]; intros mine Hwf;
    cbn [microcluster.merge_terms]; [assumption|].
  destruct (dict_get mine k); apply IH, dict_set_wf; assumption.
Qed.

Lemma merge_terms_nonneg mine other :
  nonneg mine -> nonneg other -> nonneg (microcluster.merge_terms mine other).
Proof.
  revert mine; induction other as [|[k v] other IH]; intros mine Hm Ho;
    cbn [microcluster.merge_terms]; [assumption|].
  assert (Hv : 0 <= v) by (apply (Ho k); left; reflexivity).
  assert (Ho' : nonneg other) by (intros k' v' Hin; apply (Ho k'); right; assumption).
  destruct (dict_get mine k) as [v0|] eqn:E; apply IH; try assumption.
  - intros k' v' Hin; apply dict_set_in in Hin as [-> | Hin]; [|apply (Hm k'), Hin].
    apply dict_get_some_in, Hm in E; lra.
  - intros k' v' Hin; apply dict_set_in in Hin as [-> | Hin];
      [assumption | apply (Hm k'), Hin].
Qed.

Lemma merge_terms_keys mine other k :
  In k (dict_keys (microcluster.merge_terms mine other)) ->
  In k (dict_keys mine) \/ In k (dict_keys other).
Proof.
  revert mine; induction other as [|[k0 v0] other IH]; intros mine;
    cbn [microcluster.merge_terms]; [auto|].
  assert (Hstep : forall c, In k (dict_keys (microcluster.merge_terms
                                                (dict_set mine k0 c) other)) ->
                            In k (dict_keys mine) \/ In k (dict_keys ((k0, v0) :: other))).
  { intros c Hin; destruct (IH _ Hin) as [Hs | Ho].
    - apply dict_set_keys in Hs as [-> | Hs]; [right; left; reflexivity | auto].
    - right; right; assumption. }
  destruct (dict_get mine k0); apply Hstep.
Qed.

Lemma merge_terms_get mine other k :
  dict_wf other ->
  dict_get (microcluster.merge_terms mine other) k
  = match dict_get mine k, dict_get other k with
    | Some a, Some b => Some (a + b)
    | Some a, None => Some a
    | None, Some b => Some b
    | None, None => None
    end.
Proof.
  unfold dict_wf; revert mine; induction other as [|[k0 v0] other IH]; intros mine Hnd;
    cbn [microcluster.merge_terms].
  - cbn [dict_get]; destruct (dict_get mine k); reflexivity.
  - inversion Hnd as [|? ? Hnot Hnd']; subst.
    cbn [dict_get]; change (key_eqb k k0) with (String.eqb k k0).
    assert (Hstep : forall c,
              dict_get (microcluster.merge_terms (dict_set mine k0 c) other) k
              = if String.eqb k k0 then Some c
                else match dict_get mine k, dict_get other k with
                     | Some a, Some b => Some (a + b)
                     | Some a, None => Some a
                     | None, Some b => Some b
                     | None, None => None
                     end).
    { intros c; rewrite IH by assumption.
      destruct (String.eqb k k0) eqn:E.
      - apply String.eqb_eq in E; subst k0.
        rewrite dict_get_set_same, (dict_get_not_in other k Hnot); reflexivity.
      - apply String.eqb_neq in E.
        rewrite dict_get_set_other by assumption; reflexivity. }
    destruct (dict_get mine k0) as [a0|] eqn:E0; rewrite Hstep;
      destruct (String.eqb k k0) eqn:E; try reflexivity;
      apply String.eqb_eq in E; subst k0; rewrite E0; reflexivity.
Qed.

(** X9.  [merge] adds the other cluster's weight before fading, so the sum
    decays by the factor of [self]; the other cluster is left faded; and for
    a dictionary as other term vector every term ends with the sum of its
    two faded weights, a term of neither cluster staying absent. *)
Theorem merge_sums_terms (self other : microcluster.t) (now om ff : R) (tfade : bool) :
  dict_wf (microcluster.tf other) ->
  let faded_self := microcluster.fade self now om ff tfade in
  let faded_other := microcluster.fade other now om ff tfade in
  let merged := fst (microcluster.merge self other now om ff tfade) in
  snd (microcluster.merge self other now om ff tfade) = faded_other
  /\ microcluster.weight merged
     = (microcluster.weight self + microcluster.weight other)
       * pow2 (- ff * (now - microcluster.time self))
  /\ microcluster.time merged = now
  /\ microcluster.id merged = microcluster.id self
  /\ microcluster.merged_ids merged = microcluster.merged_ids self
  /\ forall k,
       weight_of (microcluster.tf merged) k
       = weight_of (microcluster.tf faded_self) k
         + weight_of (microcluster.tf faded_other) k
       /\ (dict_mem (microcluster.tf merged) k
           = dict_mem (microcluster.tf faded_self) k
             || dict_mem (microcluster.tf faded_other) k).
Proof.
  intros Hwf; cbn zeta.
  split; [reflexivity|]; split; [reflexivity|]; split; [reflexivity|].
  split; [reflexivity|]; split; [reflexivity|].
  intros k; unfold weight_of, dict_mem.
  cbn [microcluster.merge fst microcluster.tf microcluster.fade].
  rewrite merge_terms_get
    by (destruct tfade; [apply fade_terms_wf; assumption | assumption]).
  destruct (dict_get (if tfade then _ else _) k),
           (dict_get (if tfade then _ else _) k); split; (reflexivity || lra).
Qed.

Lemma merge_sums_terms_witness :
  let faded_self := microcluster.fade example_cluster_ab 2 (1 / 2) 0 true in
  let faded_other := microcluster.fade example_cluster 2 (1 / 2) 0 true in
  let merged := fst (microcluster.merge example_cluster_ab example_cluster 2 (1 / 2) 0 true) in
  snd (microcluster.merge example_cluster_ab example_cluster 2 (1 / 2) 0 true) = faded_other
  /\ microcluster.weight merged
     = (microcluster.weight example_cluster_ab + microcluster.weight example_cluster)
       * pow2 (- 0 * (2 - microcluster.time example_cluster_ab))
  /\ microcluster.time merged = 2
  /\ microcluster.id merged = microcluster.id example_cluster_ab
  /\ microcluster.merged_ids merged = microcluster.merged_ids example_cluster_ab
  /\ forall k,
       weight_of (microcluster.tf merged) k
       = weight_of (microcluster.tf faded_self) k
         + weight_of (microcluster.tf faded_other) k
       /\ (dict_mem (microcluster.tf merged) k
           = dict_mem (microcluster.tf faded_self) k
             || dict_mem (microcluster.tf faded_other) k).
Proof.
  apply (merge_sums_terms example_cluster_ab example_cluster 2 (1 / 2) 0 true).
  repeat constructor; simpl; intuition discriminate.
Defined.

(** ** The adaptive threshold is well defined *)

Lemma distance_unit mc other idf :
  covered (microcluster.tf other) idf ->
  dict_wf (microcluster.tf mc) -> dict_wf (microcluster.tf other) ->
  nonneg (microcluster.tf mc) -> nonneg (microcluster.tf other) ->
  exists d, distances.dist mc other idf = Ok d /\ 0 <= d <= 1.
Proof.
  intros Hc Ha Hb Hna Hnb; unfold distances.dist.
  rewrite tfidf_cosine_distance_closed by assumption.
  eexists; split; [reflexivity|].
  destruct (Reqb (norm (microcluster.tf mc) idf) 0) eqn:E1; [simpl; lra|].
  destruct (Reqb (norm (microcluster.tf other) idf) 0) eqn:E2; [simpl; lra|].
  simpl; apply round10_unit, distance_value_unit; try assumption.
  - intros Hz; rewrite (Reqb_true _ _ Hz) in E1; discriminate.
  - intros Hz; rewrite (Reqb_true _ _ Hz) in E2; discriminate.
Qed.

Lemma stats_inv_step s d :
  stats_inv s -> 0 <= d <= 1 ->
  stats_inv {| min_dist := if Rltb d (min_dist s) then d else min_dist s;
               smallest_key := smallest_key s;
               sumdist := sumdist s + d;
               squaresum := squaresum s + d ^ 2;
               counter := S (counter s) |}.
Proof.
  intros [Hm [HQ [HK [H0 H1]]]] Hd; unfold stats_inv.
  cbn [min_dist sumdist squaresum counter].
  rewrite S_INR.
  set (m := min_dist s) in *; set (S0 := sumdist s) in *; set (Q := squaresum s) in *.
  set (c := INR (counter s)) in *.
  assert (Hc : 0 <= c) by apply pos_INR.
  assert (HK' : (S0 + d) * (S0 + d) <= (c + 1) * (Q + d ^ 2)).
  { destruct (Req_dec c 0) as [Hz | Hnz].
    - rewrite Hz in HK |- *; assert (S0 = 0) by nra; nra.
    - assert (Hcp : 0 < c) by lra.
      pose proof (Rle_0_sqr (S0 - c * d)) as Hsq; unfold Rsqr in Hsq.
      assert (2 * (c * (S0 * d)) <= c * Q + c * (c * (d * d))) by nra.
      assert (2 * (S0 * d) <= Q + c * (d * d)).
      { apply (Rmult_le_reg_l c); [assumption|]; nra. }
      nra. }
  destruct (Rltb d m) eqn:E.
  - apply Rltb_lt in E.
    split; [lra|]; split; [nra|]; split; [exact HK'|]; split; [intros Hc0; discriminate|].
    intros _; split; [|nra].
    replace (S0 + d - d) with S0 by lra.
    replace (c + 1 - 1) with c by lra.
    replace (Q + d ^ 2 - d * d) with Q by (simpl; lra).
    exact HK.
  - assert (Hge : m <= d).
    { destruct (Rle_dec m d); [assumption|].
      rewrite Rltb_true in E by lra; discriminate. }
    split; [lra|]; split; [nra|]; split; [exact HK'|]; split; [intros Hc0; discriminate|].
    intros _.
    destruct (counter s) as [|n0] eqn:Ec.
    + destruct (H0 eq_refl) as [HS0 Hm1].
      assert (Hd1 : d = 1) by lra.
      unfold c; cbn [INR]; rewrite HS0, Hm1, Hd1; simpl; split; lra.
    + destruct (H1 ltac:(lia)) as [HJ HB].
      assert (Hc1 : 0 <= c - 1) by (unfold c; rewrite S_INR; pose proof (pos_INR n0); lra).
      set (A := S0 - m) in *; set (B := Q - m * m) in *.
      split; [|unfold B in *; simpl; nra].
      replace (S0 + d - m) with (A + d) by (unfold A; lra).
      replace (c + 1 - 1) with ((c - 1) + 1) by lra.
      replace (Q + d ^ 2 - m * m) with (B + d * d) by (unfold B; simpl; lra).
      destruct (Req_dec (c - 1) 0) as [Hz | Hnz].
      * rewrite Hz in HJ |- *; assert (A = 0) by nra; nra.
      * assert (Hcp : 0 < c - 1) by lra.
        pose proof (Rle_0_sqr (A - (c - 1) * d)) as Hsq; unfold Rsqr in Hsq.
        assert (2 * ((c - 1) * (A * d))
                <= (c - 1) * B + (c - 1) * ((c - 1) * (d * d))) by nra.
        assert (2 * (A * d) <= B + (c - 1) * (d * d)).
        { apply (Rmult_le_reg_l (c - 1)); [assumption|]; nra. }
        nra.
Qed.

Lemma closest_scan_stats mc idf micros : forall s0 s,
  stats_inv s0 ->
  (forall k m d, In (k, m) micros -> distances.dist mc m idf = Ok d -> 0 <= d <= 1) ->
  closest_scan mc idf micros s0 = Ok s ->
  stats_inv s.
Proof.
  induction micros as [|[key micro] micros IH]; intros s0 s Hinv Hd; cbn [closest_scan].
  - intros Heq; injection Heq as <-; assumption.
  - destruct (distances.dist mc micro idf) as [d| |] eqn:Ed; cbn [bind]; try discriminate.
    intros Hs; refine (IH _ _ _ _ Hs).
    + pose proof (stats_inv_step s0 d Hinv (Hd key micro d (or_introl eq_refl) Ed)) as Hi.
      unfold stats_inv in Hi |- *; cbn [min_dist sumdist squaresum counter] in Hi |- *.
      exact Hi.
    + intros k m d' Hin; apply (Hd k m d'); right; assumption.
Qed.

(** With distances in [[0, 1]] the argument of [math.sqrt] at line 259 is
    not negative. *)
Lemma choose_cluster_ok p s :
  stats_inv s -> exists c, choose_cluster p s = Ok c.
Proof.
  intros [Hm [HQ [HK [H0 H1]]]]; unfold choose_cluster.
  destruct (auto_r p); [|eauto].
  destruct (1 <? counter s)%nat eqn:E; [|eauto].
  apply Nat.ltb_lt in E.
  destruct (H1 ltac:(lia)) as [HJ HB].
  assert (Hc : 1 <= INR (counter s) - 1).
  { replace 1 with (INR 2 - 1) at 1 by (simpl; lra).
    apply Rplus_le_compat_r, le_INR; lia. }
  rewrite math_sqrt_nonneg; [cbn [bind]; eauto|].
  set (c1 := INR (counter s) - 1) in *.
  set (A := sumdist s - min_dist s) in *.
  assert (HAQ : A * A <= c1 * squaresum s) by nra.
  replace (squaresum s / c1 - (A / c1) ^ 2)
    with ((c1 * squaresum s - A * A) / (c1 * c1)) by (field; lra).
  apply Rmult_le_pos; [lra|].
  left; apply Rinv_0_lt_compat; nra.
Qed.

(** ** The store invariant *)

Lemma fade_terms_nonneg d factor om :
  0 < factor -> nonneg d -> nonneg (microcluster.fade_terms d factor om).
Proof.
  intros Hf Hd k v Hin; apply fade_terms_in in Hin as [v0 [Hin0 [-> _]]].
  apply Rmult_le_pos; [apply (Hd k), Hin0 | lra].
Qed.

Lemma fade_ok key m now om ff tfade :
  cluster_ok key m -> cluster_ok key (microcluster.fade m now om ff tfade).
Proof.
  intros [Hid [Hwf Hnn]]; unfold cluster_ok; cbn [microcluster.fade microcluster.id
                                                   microcluster.tf].
  split; [assumption|]; destruct tfade; [|split; assumption].
  split; [apply fade_terms_wf; assumption|].
  apply fade_terms_nonneg; [apply pow2_pos | assumption].
Qed.

Lemma merge_ok key self other now om ff tfade :
  cluster_ok key self ->
  dict_wf (microcluster.tf other) -> nonneg (microcluster.tf other) ->
  cluster_ok key (fst (microcluster.merge self other now om ff tfade)).
Proof.
  intros [Hid [Hwf Hnn]] Hwo Hno; unfold cluster_ok.
  cbn [microcluster.merge fst microcluster.id microcluster.tf microcluster.fade].
  split; [assumption|]; split.
  - apply merge_terms_wf; destruct tfade; [apply fade_terms_wf|]; assumption.
  - apply merge_terms_nonneg; destruct tfade; try assumption;
      apply fade_terms_nonneg; try assumption; apply pow2_pos.
Qed.

Lemma clusters_ok_fade_all p now bound micros :
  clusters_ok bound micros -> clusters_ok bound (fade_all p now micros).
Proof.
  intros [Hwf Hall]; split.
  - unfold dict_wf; rewrite fade_all_keys; exact Hwf.
  - intros k m Hin; apply fade_all_in in Hin as [m0 [Hin0 ->]].
    destruct (Hall k m0 Hin0) as [Hok Hb]; split; [apply fade_ok; assumption | assumption].
Qed.

Lemma evict_all_wf p micros : dict_wf micros -> dict_wf (evict_all p micros).
Proof.
  unfold dict_wf; induction micros as [|[k m] micros IH]; intros Hnd; cbn [evict_all];
    [constructor|].
  inversion Hnd as [|? ? Hnot Hnd']; subst.
  destruct (evicted p m); [apply IH; assumption|].
  cbn [dict_keys map fst]; constructor; [|apply IH; assumption].
  intros Hin; apply Hnot, (evict_all_keys p micros), Hin.
Qed.

Lemma clusters_ok_evict_all p bound micros :
  clusters_ok bound micros -> clusters_ok bound (evict_all p micros).
Proof.
  intros [Hwf Hall]; split; [apply evict_all_wf; assumption|].
  intros k m Hin; apply evict_all_in in Hin as [Hin _]; apply Hall, Hin.
Qed.

Lemma clusters_ok_snapshot_all bound micros :
  clusters_ok bound micros -> clusters_ok bound (snapshot_all micros).
Proof.
  intros [Hwf Hall]; split.
  - unfold dict_wf, snapshot_all, dict_keys in *; rewrite map_map; cbn [fst]; exact Hwf.
  - intros k m Hin; unfold snapshot_all in Hin.
    apply in_map_iff in Hin as [[k0 m0] [Heq Hin0]]; cbn [fst snd] in Heq.
    injection Heq as <- <-.
    destruct (Hall k0 m0 Hin0) as [[Hid [Hw Hn]] Hb]; split; [|assumption].
    split; [exact Hid | split; assumption].
Qed.

(** One row of the merge pass: it returns when the weighting covers the
    clusters and the clock is set; the clusters it keeps are clusters of the
    row, in their order. *)
Lemma merge_row_ok p tnow idf threshold bound key : forall rest ci,
  cluster_ok key ci -> covered (microcluster.tf ci) idf ->
  clusters_ok bound rest ->
  (forall c, In c (dict_values rest) -> covered (microcluster.tf c) idf) ->
  exists ci' kept,
    merge_row p (Some tnow) idf threshold ci rest = Ok (ci', kept)
    /\ cluster_ok key ci' /\ covered (microcluster.tf ci') idf
    /\ clusters_ok bound kept
    /\ incl kept rest
    /\ (List.length kept <= List.length rest)%nat.
Proof.
  induction rest as [|[kj cj] rest IH]; intros ci Hci Hcov Hrest Hcr; cbn [merge_row].
  - exists ci, []; split; [reflexivity|]; split; [assumption|]; split; [assumption|].
    split; [|split; [apply incl_refl | apply Nat.le_refl]].
    split; [constructor | intros ? ? []].
  - destruct Hrest as [Hwf Hall].
    assert (Hwf' : dict_wf rest) by (unfold dict_wf in *; inversion Hwf; assumption).
    assert (Hrest' : clusters_ok bound rest).
    { split; [assumption | intros k m Hin; apply Hall; right; assumption]. }
    assert (Hcr' : forall c, In c (dict_values rest) -> covered (microcluster.tf c) idf)
      by (intros c Hin; apply Hcr; right; assumption).
    destruct (Hall kj cj (or_introl eq_refl)) as [[Hidj [Hwj Hnj]] Hbj].
    destruct (distance_total ci cj idf) as [d Hd]; [apply Hcr; left; reflexivity|].
    unfold distances.dist; rewrite Hd; cbn [bind].
    destruct (Rltb d threshold).
    + destruct (microcluster.merge ci cj tnow (omega p) (fading_factor p) (term_fading p))
        as [ci1 cj1] eqn:Em.
      assert (Hci1 : ci1 = fst (microcluster.merge ci cj tnow (omega p) (fading_factor p)
                                  (term_fading p))) by (rewrite Em; reflexivity).
      destruct (IH (microcluster.with_merged_ids ci1
                      (microcluster.merged_ids ci1 ++ [microcluster.id cj1])))
        as [ci' [kept [Hr [Hok [Hc' [Hk [Hincl Hlen]]]]]]]; try assumption.
      * pose proof (merge_ok key ci cj tnow (omega p) (fading_factor p) (term_fading p)
                      Hci Hwj Hnj) as Hm.
        rewrite <- Hci1 in Hm; exact Hm.
      * rewrite Hci1; cbn [microcluster.with_merged_ids microcluster.tf microcluster.merge
                           fst microcluster.fade].
        intros k Hin; apply merge_terms_keys in Hin.
        destruct Hin as [Hin | Hin].
        -- apply Hcov; destruct (term_fading p); [|assumption].
           apply (fade_terms_keys _ _ _ k Hin).
        -- apply (Hcr cj (or_introl eq_refl)); destruct (term_fading p); [|assumption].
           apply (fade_terms_keys _ _ _ k Hin).
      * exists ci', kept; split; [exact Hr|]; split; [assumption|]; split; [assumption|].
        split; [assumption|]; split; [apply incl_tl; assumption | simpl; lia].
    + destruct (IH ci) as [ci' [kept [Hr [Hok [Hc' [Hk [Hincl Hlen]]]]]]]; try assumption.
      rewrite Hr; cbn [bind].
      exists ci', ((kj, cj) :: kept); split; [reflexivity|].
      split; [assumption|]; split; [assumption|]; split; [|split].
      * split.
        -- unfold dict_wf in *; cbn [dict_keys map fst].
           inversion Hwf as [|? ? Hnot _]; subst.
           constructor; [|apply Hk].
           intros Hin; apply Hnot.
           unfold dict_keys in *; apply in_map_iff in Hin as [[k0 m0] [Heq Hin0]].
           apply in_map_iff; exists (k0, m0); split; [assumption | apply Hincl, Hin0].
        -- intros k m [Heq | Hin]; [injection Heq as <- <-; apply Hall; left; reflexivity|].
           apply Hk, Hin.
      * apply incl_cons; [left; reflexivity | apply incl_tl; assumption].
      * simpl; lia.
Qed.

(** The merge pass returns a store of clusters that were in it, under
    their keys. *)
Lemma merge_pass_ok p tnow idf threshold bound fuel : forall micros,
  clusters_ok bound micros ->
  (forall c, In c (dict_values micros) -> covered (microcluster.tf c) idf) ->
  (List.length micros <= fuel)%nat ->
  exists micros',
    merge_pass fuel p (Some tnow) idf threshold micros = Ok micros'
    /\ clusters_ok bound micros'
    /\ incl (dict_keys micros') (dict_keys micros).
Proof.
  induction fuel as [|fuel IH]; intros micros Hok Hcov Hlen.
  - destruct micros; [|simpl in Hlen; lia].
    exists []; split; [reflexivity|]; split; [|apply incl_refl].
    split; [constructor | intros ? ? []].
  - destruct micros as [|[ki ci] rest]; cbn [merge_pass].
    + exists []; split; [reflexivity|]; split; [|apply incl_refl].
      split; [constructor | intros ? ? []].
    + destruct Hok as [Hwf Hall].
      assert (Hrest : clusters_ok bound rest).
      { split; [unfold dict_wf in *; inversion Hwf; assumption|].
        intros k m Hin; apply Hall; right; assumption. }
      destruct (Hall ki ci (or_introl eq_refl)) as [Hci Hb].
      destruct (merge_row_ok p tnow idf threshold bound ki rest ci)
        as [ci' [kept [Hr [Hok' [Hc' [Hk [Hincl Hl]]]]]]]; try assumption.
      * apply Hcov; left; reflexivity.
      * intros c Hin; apply Hcov; right; assumption.
      * rewrite Hr; cbn [bind].
        destruct (IH kept) as [rest' [Hp [Hok2 Hincl2]]]; try assumption.
        -- intros c Hin; apply Hcov; right.
           unfold dict_values in *; apply in_map_iff in Hin as [[k0 m0] [Heq Hin0]].
           apply in_map_iff; exists (k0, m0); split; [assumption | apply Hincl, Hin0].
        -- simpl in Hlen; lia.
        -- rewrite Hp; cbn [bind].
           assert (Hkeys : incl (dict_keys rest') (dict_keys rest)).
           { intros k Hin; apply Hincl2 in Hin.
             unfold dict_keys in *; apply in_map_iff in Hin as [[k0 m0] [Heq Hin0]].
             apply in_map_iff; exists (k0, m0); split; [assumption | apply Hincl, Hin0]. }
           exists ((ki, ci') :: rest'); split; [reflexivity|]; split; [split|].
           ++ unfold dict_wf in *; cbn [dict_keys map fst].
              inversion Hwf as [|? ? Hnot _]; subst.
              constructor; [intros Hin; apply Hnot, Hkeys, Hin | apply Hok2].
           ++ intros k m [Heq | Hin]; [injection Heq as <- <-; split; assumption|].
              apply Hok2, Hin.
           ++ cbn [dict_keys map fst]; apply incl_cons; [left; reflexivity|].
              apply incl_tl; assumption.
Qed.

(** ** [learn_one] on a well-formed store *)

Lemma choose_cluster_key p s c k :
  choose_cluster p s = Ok c -> c = Some k -> smallest_key s = Some k.
Proof.
  intros Ec ->; revert Ec; unfold choose_cluster.
  destruct (auto_r p).
  - destruct (1 <? counter s)%nat; [|discriminate].
    destruct (math_sqrt _); cbn [bind]; try discriminate.
    destruct (Rltb _ _); intros Heq; injection Heq as Heq; congruence.
  - destruct (Rltb _ _); intros Heq; injection Heq as Heq; congruence.
Qed.

Lemma values_in {A : Type} (micros : dict Z A) c :
  In c (dict_values micros) -> exists k, In (k, c) micros.
Proof.
  unfold dict_values; intros Hin; apply in_map_iff in Hin as [[k c0] [Heq Hin]].
  cbn [snd] in Heq; subst c0; exists k; assumption.
Qed.

(** The search for the nearest cluster returns on a well-formed store, and a
    cluster it names is stored. *)
Lemma closest_to_ok p self x now :
  clusters_ok (_clusterId self) (micro_clusters self) ->
  dict_wf x -> nonneg x ->
  exists c d, closest_to p self x now = Ok (c, d)
    /\ forall cid, c = Some cid -> exists m, dict_get (micro_clusters self) cid = Some m.
Proof.
  intros [Hwf Hall] Hx Hn; unfold closest_to.
  destruct (calculateIDF_ok (dict_values (micro_clusters self))) as [idf [Hidf Hcov]].
  rewrite Hidf; cbn [bind]; unfold _get_closest_mc.
  set (mc := microcluster.init x now 1 (Some (_clusterId self))).
  set (s0 := {| min_dist := 1; smallest_key := None; sumdist := 0; squaresum := 0;
                counter := 0 |}).
  destruct (closest_scan_ok mc idf (micro_clusters self) s0 Hcov) as [s [Hs _]].
  rewrite Hs; cbn [bind].
  assert (Hst : stats_inv s).
  { refine (closest_scan_stats mc idf (micro_clusters self) s0 s _ _ Hs).
    - unfold stats_inv, s0; cbn [min_dist sumdist squaresum counter INR].
      repeat split; try lra; lia.
    - intros k m d Hin Hd.
      destruct (Hall k m Hin) as [[_ [Hwm Hnm]] _].
      destruct (distance_unit mc m idf) as [d' [Hd' Hb]]; try assumption.
      + apply Hcov; unfold dict_values; apply in_map_iff; exists (k, m); auto.
      + rewrite Hd in Hd'; injection Hd' as <-; assumption. }
  destruct (choose_cluster_ok p s Hst) as [c Hc].
  rewrite Hc; cbn [bind].
  exists c, (min_dist s); split; [reflexivity|].
  intros cid Hcid.
  pose proof (choose_cluster_key p s c cid Hc Hcid) as Hk.
  assert (Hinv : scan_inv mc idf (micro_clusters self) s).
  { refine (closest_scan_inv mc idf (micro_clusters self) [] _ s _ Hs).
    unfold scan_inv, s0; cbn [min_dist smallest_key].
    split; [lra|]; split; [intros ? ? ? []|]; split; [reflexivity | discriminate]. }
  destruct Hinv as [_ [_ [_ Hsome]]].
  destruct (Hsome cid Hk) as [_ [m [Hin _]]].
  exists m; apply dict_get_in; assumption.
Qed.

Lemma init_ok x now w key :
  dict_wf x -> nonneg x -> cluster_ok key (microcluster.init x now w (Some key)).
Proof. intros Hx Hn; split; [reflexivity | split; assumption]. Qed.

Lemma clusters_ok_weaken bound bound' micros :
  (bound <= bound')%Z -> clusters_ok bound micros -> clusters_ok bound' micros.
Proof.
  intros Hle [Hwf Hall]; split; [assumption|].
  intros k m Hin; destruct (Hall k m Hin); split; [assumption | lia].
Qed.

Lemma clusters_ok_set bound micros key m :
  clusters_ok bound micros -> cluster_ok key m -> (key < bound)%Z ->
  clusters_ok bound (dict_set micros key m).
Proof.
  intros [Hwf Hall] Hm Hb; split; [apply dict_set_wf; assumption|].
  intros k m' Hin; apply dict_set_in_key in Hin as [[-> ->] | Hin];
    [split; assumption | apply Hall, Hin].
Qed.

Lemma dict_set_nonempty {A : Type} (d : dict Z A) k v : dict_set d k v <> [].
Proof.
  destruct d as [|[k0 v0] d]; cbn [dict_set]; [discriminate|].
  destruct (key_eqb k k0); discriminate.
Qed.

(** Lines 181-204 on a well-formed store: the document is merged into a
    stored cluster or becomes a new one, and the store stays well formed. *)
Lemma ingest_ok p self x now :
  clusters_ok (_clusterId self) (micro_clusters self) ->
  dict_wf x -> nonneg x ->
  exists self' cid,
    ingest p self x now = Ok (self', Some cid)
    /\ clusters_ok (_clusterId self') (micro_clusters self')
    /\ t self' = t self /\ last_cleanup self' = last_cleanup self /\ n self' = n self
    /\ (exists m, dict_get (micro_clusters self') cid = Some m).
Proof.
  intros Hok Hx Hn; unfold ingest.
  destruct (closest_to_ok p self x now Hok Hx Hn) as [c [d [Hc Hstored]]].
  rewrite Hc; cbn [bind].
  destruct c as [cid|].
  - destruct (Hstored cid eq_refl) as [target Ht]; rewrite Ht.
    destruct (microcluster.merge _ _ _ _ _ _) as [target2 other2] eqn:Em.
    exists (merge_into p self cid target2 d), cid; split; [reflexivity|].
    assert (Hin : In (cid, target) (micro_clusters self)) by (apply dict_get_some_in, Ht).
    destruct Hok as [Hwf Hall]; destruct (Hall cid target Hin) as [[Hid [Hw Hnn]] Hb].
    cbn [merge_into _clusterId micro_clusters t last_cleanup n].
    split; [|split; [reflexivity|]; split; [reflexivity|]; split; [reflexivity|]].
    + apply clusters_ok_set; [split; assumption | | assumption].
      replace target2 with
        (fst (microcluster.merge
                (microcluster.with_n target (microcluster.n target + 1)%Z)
                (microcluster.init x now 1 (Some (_clusterId self)))
                now (omega p) (fading_factor p) (term_fading p)))
        by (rewrite Em; reflexivity).
      apply merge_ok; [split; [exact Hid | split; assumption] | exact Hx | exact Hn].
    + exists target2; apply dict_get_set_same.
  - exists (create_new self (microcluster.init x now 1 (Some (_clusterId self))) d),
      (_clusterId self); split; [reflexivity|].
    cbn [create_new _clusterId micro_clusters t last_cleanup n].
    split; [|split; [reflexivity|]; split; [reflexivity|]; split; [reflexivity|]].
    + apply clusters_ok_set; [| apply init_ok; assumption | lia].
      apply (clusters_ok_weaken (_clusterId self)); [lia | assumption].
    + eexists; apply dict_get_set_same.
Qed.

(** [_updateweights] on a store with a clock. *)
Lemma updateweights_ok p self now :
  t self = Some now ->
  clusters_ok (_clusterId self) (micro_clusters self) ->
  exists self', _updateweights p self = Ok self'
    /\ clusters_ok (_clusterId self') (micro_clusters self')
    /\ t self' = t self /\ _clusterId self' = _clusterId self
    /\ incl (dict_keys (micro_clusters self')) (dict_keys (micro_clusters self)).
Proof.
  intros Ht Hok; unfold _updateweights.
  destruct (micro_clusters self) as [|kv micros] eqn:Em.
  - exists self; rewrite Em; split; [reflexivity|]; split; [assumption|].
    split; [reflexivity|]; split; [reflexivity | apply incl_refl].
  - rewrite Ht.
    eexists; split; [reflexivity|].
    cbn [with_micro_clusters micro_clusters _clusterId t].
    split; [|split; [exact Ht|]; split; [reflexivity|]].
    + apply clusters_ok_evict_all, clusters_ok_fade_all; assumption.
    + intros k Hin; apply evict_all_keys in Hin; rewrite fade_all_keys in Hin; exact Hin.
Qed.

Lemma snapshot_all_keys micros : dict_keys (snapshot_all micros) = dict_keys micros.
Proof. unfold snapshot_all, dict_keys; rewrite map_map; reflexivity. Qed.

(** [_mergemicroclusters] on a store with a clock. *)
Lemma mergemicroclusters_ok p self now :
  t self = Some now ->
  clusters_ok (_clusterId self) (micro_clusters self) ->
  exists self', _mergemicroclusters p self = Ok self'
    /\ clusters_ok (_clusterId self') (micro_clusters self')
    /\ t self' = t self /\ _clusterId self' = _clusterId self
    /\ incl (dict_keys (micro_clusters self')) (dict_keys (micro_clusters self)).
Proof.
  intros Ht Hok; unfold _mergemicroclusters.
  destruct (calculateIDF_ok (dict_values (micro_clusters self))) as [idf [Hidf Hcov]].
  rewrite Hidf, Ht; cbn [bind].
  destruct (merge_pass_ok p now idf (merge_threshold p self) (_clusterId self)
              (List.length (micro_clusters self)) (micro_clusters self) Hok Hcov
              (Nat.le_refl _)) as [micros' [Hp [Hok' Hincl]]].
  rewrite Hp; cbn [bind].
  eexists; split; [reflexivity|].
  cbn [with_micro_clusters micro_clusters _clusterId t].
  split; [assumption|]; split; [exact Ht|]; split; [reflexivity | assumption].
Qed.

(** [_cleanup] on a store with a clock: it returns, drops or merges
    clusters and adds none. *)
Lemma cleanup_ok p self now :
  t self = Some now ->
  clusters_ok (_clusterId self) (micro_clusters self) ->
  exists self', _cleanup p self = Ok self'
    /\ clusters_ok (_clusterId self') (micro_clusters self')
    /\ t self' = t self /\ _clusterId self' = _clusterId self
    /\ last_cleanup self' = t self
    /\ incl (dict_keys (micro_clusters self')) (dict_keys (micro_clusters self)).
Proof.
  intros Ht Hok; unfold _cleanup.
  destruct (updateweights_ok p (with_last_cleanup self (t self)) now)
    as [s1 [H1 [Hok1 [Ht1 [Hid1 Hincl1]]]]]; [exact Ht | exact Hok |].
  rewrite H1; cbn [bind].
  assert (Hlc1 : last_cleanup s1 = t self).
  { revert H1; unfold _updateweights.
    destruct (micro_clusters (with_last_cleanup self (t self))).
    - intros Heq; injection Heq as <-; reflexivity.
    - destruct (t (with_last_cleanup self (t self))); [|discriminate].
      intros Heq; injection Heq as <-; reflexivity. }
  set (s2 := with_micro_clusters s1 (snapshot_all (micro_clusters s1))).
  assert (Hok2 : clusters_ok (_clusterId s2) (micro_clusters s2)).
  { unfold s2; cbn [with_micro_clusters micro_clusters _clusterId].
    apply clusters_ok_snapshot_all; assumption. }
  assert (Ht2 : t s2 = Some now).
  { unfold s2; cbn [with_micro_clusters t]; rewrite Ht1; exact Ht. }
  assert (Hincl2 : incl (dict_keys (micro_clusters s2)) (dict_keys (micro_clusters self))).
  { unfold s2; cbn [with_micro_clusters micro_clusters]; rewrite snapshot_all_keys.
    exact Hincl1. }
  destruct (auto_merge p).
  - destruct (mergemicroclusters_ok p s2 now Ht2 Hok2) as [s3 [H3 [Hok3 [Ht3 [Hid3 Hincl3]]]]].
    rewrite H3; cbn [bind].
    assert (Hlc3 : last_cleanup s3 = t self).
    { revert H3; unfold _mergemicroclusters.
      destruct (_calculateIDF _); cbn [bind]; try discriminate.
      destruct (merge_pass _ _ _ _ _ _); cbn [bind]; try discriminate.
      intros Heq; injection Heq as <-; exact Hlc1. }
    eexists; split; [reflexivity|].
    cbn [reset_merged micro_clusters _clusterId t last_cleanup].
    split; [assumption|]; split; [rewrite Ht3, Ht2; symmetry; exact Ht|].
    split; [rewrite Hid3; unfold s2; cbn [with_micro_clusters _clusterId]; exact Hid1|].
    split; [exact Hlc3|].
    intros k Hin; apply Hincl2, Hincl3, Hin.
  - cbn [bind].
    eexists; split; [reflexivity|].
    cbn [reset_merged micro_clusters _clusterId t last_cleanup].
    split; [assumption|]; split; [rewrite Ht2; symmetry; exact Ht|].
    split; [unfold s2; cbn [with_micro_clusters _clusterId]; exact Hid1|].
    split; [exact Hlc1 | exact Hincl2].
Qed.

(** What [_cleanup] leaves alone. *)
Lemma cleanup_frame p self self' :
  _cleanup p self = Ok self' ->
  t self' = t self /\ n self' = n self /\ _clusterId self' = _clusterId self
  /\ microToMacro self' = microToMacro self /\ _up_to_date self' = _up_to_date self
  /\ last_cleanup self' = t self
  /\ _dist_mean self' = 0 /\ _num_merged_obs self' = 0%Z.
Proof.
  unfold _cleanup.
  destruct (_updateweights p (with_last_cleanup self (t self))) as [s1| |] eqn:E1;
    cbn [bind]; try discriminate.
  assert (H1 : t s1 = t self /\ n s1 = n self /\ _clusterId s1 = _clusterId self
               /\ microToMacro s1 = microToMacro self /\ _up_to_date s1 = _up_to_date self
               /\ last_cleanup s1 = t self).
  { revert E1; unfold _updateweights.
    destruct (micro_clusters (with_last_cleanup self (t self))).
    - intros Heq; injection Heq as <-; repeat split.
    - destruct (t (with_last_cleanup self (t self))); [|discriminate].
      intros Heq; injection Heq as <-; repeat split. }
  destruct H1 as [Ht [Hn [Hid [Hm [Hu Hl]]]]].
  destruct (auto_merge p).
  - unfold _mergemicroclusters.
    destruct (_calculateIDF _); cbn [bind]; try discriminate.
    destruct (merge_pass _ _ _ _ _ _); cbn [bind]; try discriminate.
    intros Heq; injection Heq as <-.
    cbn [reset_merged with_micro_clusters t n _clusterId microToMacro _up_to_date
           last_cleanup _dist_mean _num_merged_obs].
    repeat split; assumption.
  - cbn [bind]; intros Heq; injection Heq as <-.
    cbn [reset_merged with_micro_clusters t n _clusterId microToMacro _up_to_date
           last_cleanup _dist_mean _num_merged_obs].
    repeat split; assumption.
Qed.

(** What lines 181-204 leave alone. *)
Lemma ingest_frame p self x now self' r :
  ingest p self x now = Ok (self', r) ->
  t self' = t self /\ n self' = n self
  /\ microToMacro self' = microToMacro self /\ _up_to_date self' = _up_to_date self
  /\ last_cleanup self' = last_cleanup self
  /\ (_clusterId self <= _clusterId self' <= _clusterId self + 1)%Z
  /\ r <> None.
Proof.
  unfold ingest.
  destruct (closest_to p self x now) as [[c d]| |]; cbn [bind]; try discriminate.
  destruct c as [cid|].
  - destruct (dict_get (micro_clusters self) cid); [|discriminate].
    destruct (microcluster.merge _ _ _ _ _ _) as [m2 o2].
    intros Heq; injection Heq as <- <-.
    cbn [merge_into t n microToMacro _up_to_date last_cleanup _clusterId].
    repeat split; try lia; discriminate.
  - intros Heq; injection Heq as <- <-.
    cbn [create_new t n microToMacro _up_to_date last_cleanup _clusterId].
    repeat split; try lia; discriminate.
Qed.

(** What one call of [learn_one] does on a well-formed store. *)
Lemma learn_one_store p self x t' :
  store_ok self -> dict_wf x -> nonneg x ->
  (real_time_fading p = true -> t' <> None) ->
  exists self' r,
    learn_one p self x t' = Ok (self', r)
    /\ store_ok self'
    /\ n self' = (n self + 1)%Z
    /\ incl (dict_keys (micro_clusters self'))
            (_clusterId self :: dict_keys (micro_clusters self)).
Proof.
  intros [Hok _] Hx Hn Hclock; unfold learn_one, learn_one_ingest.
  assert (Hnow : exists now,
             (if real_time_fading p then t' else Some (IZR (n self))) = Some now).
  { destruct (real_time_fading p); [|eauto].
    destruct t' as [now|]; [eauto | exfalso; apply Hclock; reflexivity]. }
  destruct Hnow as [now Hnow]; rewrite Hnow; cbn [t with_clock].
  set (s0 := with_clock self (Some now)).
  assert (Hok0 : clusters_ok (_clusterId s0) (micro_clusters s0)) by exact Hok.
  assert (Hstep : exists s1 r,
             (if (0 <? List.length x)%nat then ingest p s0 x now else Ok (s0, None))
             = Ok (s1, r)
             /\ clusters_ok (_clusterId s1) (micro_clusters s1)
             /\ t s1 = Some now /\ n s1 = n self
             /\ incl (dict_keys (micro_clusters s1))
                     (_clusterId self :: dict_keys (micro_clusters self))).
  { destruct (0 <? List.length x)%nat.
    - destruct (closest_to_ok p s0 x now Hok0 Hx Hn) as [c [d [Hc Hstored]]].
      destruct (ingest_ok p s0 x now Hok0 Hx Hn) as [s1 [cid [Hi [Hok1 [Ht [_ [Hn1 _]]]]]]].
      exists s1, (Some cid); split; [exact Hi|]; split; [exact Hok1|].
      split; [rewrite Ht; reflexivity|]; split; [rewrite Hn1; reflexivity|].
      revert Hi; unfold ingest; rewrite Hc; cbn [bind].
      destruct c as [c|].
      + destruct (Hstored c eq_refl) as [m Hm]; rewrite Hm.
        destruct (microcluster.merge _ _ _ _ _ _) as [m2 o2].
        intros Heq; injection Heq as <- _.
        cbn [merge_into micro_clusters]; intros k Hin.
        apply dict_set_keys in Hin as [-> | Hin]; right; [|exact Hin].
        apply (dict_get_in_keys _ _ _ Hm).
      + intros Heq; injection Heq as <- _.
        cbn [create_new micro_clusters]; intros k Hin.
        apply dict_set_keys in Hin as [-> | Hin]; [left; reflexivity | right; exact Hin].
    - exists s0, None; split; [reflexivity|]; split; [exact Hok0|].
      split; [reflexivity|]; split; [reflexivity|].
      intros k Hin; right; exact Hin. }
  destruct Hstep as [s1 [r [Hs1 [Hok1 [Ht1 [Hn1 Hincl1]]]]]].
  rewrite Hs1; cbn [bind].
  destruct (cleanup_due p s1 now).
  - destruct (cleanup_ok p s1 now Ht1 Hok1) as [s2 [Hc [Hok2 [Ht2 [Hid2 [_ Hincl2]]]]]].
    rewrite Hc; cbn [bind].
    exists (with_n s2 (n s2 + 1)%Z), r; split; [reflexivity|].
    unfold store_ok; cbn [with_n micro_clusters _clusterId t n].
    split; [split; [exact Hok2 | intros _; rewrite Ht2, Ht1; discriminate]|].
    split.
    + destruct (cleanup_frame p s1 s2 Hc) as [_ [Hn2 _]]; rewrite Hn2, Hn1; reflexivity.
    + intros k Hin; apply Hincl1, Hincl2, Hin.
  - cbn [bind].
    exists (with_n s1 (n s1 + 1)%Z), r; split; [reflexivity|].
    unfold store_ok; cbn [with_n micro_clusters _clusterId t n].
    split; [split; [exact Hok1 | intros _; rewrite Ht1; discriminate]|].
    split; [rewrite Hn1; reflexivity | exact Hincl1].
Qed.

Lemma store_ok_init : store_ok init.
Proof.
  split; [split; [constructor | intros ? ? []] | intros H; exfalso; apply H; reflexivity].
Qed.

Lemma obs1_wf : dict_wf obs1 /\ nonneg obs1.
Proof.
  split.
  - unfold dict_wf, obs1; cbn [dict_keys map fst].
    constructor; [intros [H | []]; discriminate|].
    constructor; [intros [] | constructor].
  - intros k v [H | [H | []]]; injection H as _ <-; lra.
Qed.

Lemma scenario_observations_wf :
  Forall (fun x : dict string R => dict_wf x /\ nonneg x) [obs1; obs2; obs3].
Proof.
  repeat (apply Forall_cons; [split|]); try apply Forall_nil;
    try (intros k v Hin; cbn in Hin;
         repeat (destruct Hin as [Hin | Hin]; [injection Hin as _ <-; lra|]);
         destruct Hin);
    unfold dict_wf; cbn [dict_keys map fst obs1 obs2 obs3];
    repeat (apply NoDup_cons;
            [cbn [In]; intros Hin;
             repeat (destruct Hin as [Hin | Hin]; [discriminate Hin|]); destruct Hin|]);
    apply NoDup_nil.
Qed.


(** X12.  The bookkeeping of [learn_one].  A call that returns has advanced
    the observation counter by one, set the clock (to the counter before the
    call under the logical clock, to the timestamp given under real-time
    fading), marked the macro-clustering stale without touching the
    assignment, and used up at most one cluster id; it returns [None] exactly
    for a document without terms. *)
Theorem learn_one_bookkeeping (p : params) (self : TextClust) (x : dict string R)
    (t' : option R) (self' : TextClust) (r : option Z) :
  learn_one p self x t' = Ok (self', r) ->
  n self' = (n self + 1)%Z
  /\ t self' = (if real_time_fading p then t' else Some (IZR (n self)))
  /\ t self' <> None
  /\ _up_to_date self' = false
  /\ microToMacro self' = microToMacro self
  /\ (_clusterId self <= _clusterId self' <= _clusterId self + 1)%Z
  /\ (r = None <-> x = []).
Proof.
  unfold learn_one.
  destruct (learn_one_ingest p self x t') as [[[s1 now] c]| |] eqn:Ei; cbn [bind];
    try discriminate.
  destruct (learn_one_ingest_inv _ _ _ _ _ _ _ Ei) as [Hnow Hshape].
  assert (H1 : t s1 = Some now /\ n s1 = n self /\ microToMacro s1 = microToMacro self
               /\ _up_to_date s1 = false
               /\ (_clusterId self <= _clusterId s1 <= _clusterId self + 1)%Z
               /\ (c = None <-> x = [])).
  { destruct Hshape as [[Hx [-> ->]] | [Hx Hing]].
    - cbn [with_clock t n microToMacro _up_to_date _clusterId].
      repeat split; try lia; auto.
    - destruct (ingest_frame _ _ _ _ _ _ Hing) as [Ht [Hn [Hm [Hu [_ [Hid Hr]]]]]].
      cbn [with_clock t n microToMacro _up_to_date _clusterId] in *.
      repeat split; try assumption; try lia; intros; contradiction. }
  destruct H1 as [Ht1 [Hn1 [Hm1 [Hu1 [Hid1 Hr1]]]]].
  destruct (cleanup_due p s1 now).
  - destruct (_cleanup p s1) as [s2| |] eqn:Ec; cbn [bind]; try discriminate.
    destruct (cleanup_frame p s1 s2 Ec) as [Ht2 [Hn2 [Hid2 [Hm2 [Hu2 _]]]]].
    intros Heq; injection Heq as <- <-.
    cbn [with_n n t _up_to_date microToMacro _clusterId].
    rewrite Hn2, Ht2, Hid2, Hm2, Hu2, Hn1, Ht1, Hnow.
    repeat split; try assumption; try lia; try apply Hr1; discriminate.
  - cbn [bind]; intros Heq; injection Heq as <- <-.
    cbn [with_n n t _up_to_date microToMacro _clusterId].
    rewrite Hn1, Ht1, Hnow.
    repeat split; try assumption; try lia; try apply Hr1; discriminate.
Qed.

Lemma learn_one_bookkeeping_witness :
  n topic_a = (n init + 1)%Z
  /\ t topic_a = (if real_time_fading plain_params then None else Some (IZR (n init)))
  /\ t topic_a <> None
  /\ _up_to_date topic_a = false
  /\ microToMacro topic_a = microToMacro init
  /\ (_clusterId init <= _clusterId topic_a <= _clusterId init + 1)%Z
  /\ (Some 0%Z = None <-> [("a"%string, 2)] = []).
Proof.
  exact (learn_one_bookkeeping plain_params init [("a"%string, 2)] None topic_a (Some 0%Z)
           learn_topic_a).
Defined.

(** ** The target count of the agglomerative clustering *)

Lemma agglomerate_index_error distm k fuel : forall clusters,
  nonempty_sets clusters ->
  (k < 1 \/ Z.of_nat (List.length clusters) < k)%Z ->
  k <> Z.of_nat (List.length clusters) ->
  (List.length clusters < fuel)%nat ->
  agglomerate fuel distm clusters k = Raise IndexError.
Proof.
  induction fuel as [|fuel IH]; intros clusters Hne Hk Hneq Hlen; [lia|].
  cbn [agglomerate].
  destruct (Z.eqb_spec (Z.of_nat (List.length clusters)) k) as [Heq | _];
    [exfalso; apply Hneq; symmetry; exact Heq|].
  destruct (Nat.lt_ge_cases (List.length clusters) 2) as [Hs | Hl].
  - rewrite closest_pair_short by assumption; reflexivity.
  - destruct (closest_pair_found distm clusters Hne Hl) as [i [j [Hp Hij]]].
    rewrite Hp; apply IH.
    + apply merge_sets_nonempty; assumption.
    + rewrite merge_sets_length by assumption; lia.
    + rewrite merge_sets_length by assumption; lia.
    + rewrite merge_sets_length by assumption; lia.
Qed.

Lemma singletons_nonempty (keys : list Z) : nonempty_sets (map (fun i => [i]) keys).
Proof.
  unfold nonempty_sets; apply Forall_forall; intros g Hin.
  apply in_map_iff in Hin as [i [<- _]]; discriminate.
Qed.

Lemma agglomerative_clustering_cases micros k :
  ((k < 1 \/ Z.of_nat (List.length micros) < k)%Z /\ k <> Z.of_nat (List.length micros) ->
   _agglomerative_clustering micros k = Raise IndexError)
  /\ (~ ((k < 1 \/ Z.of_nat (List.length micros) < k)%Z
         /\ k <> Z.of_nat (List.length micros)) ->
      exists groups, _agglomerative_clustering micros k = Ok groups
                     /\ Z.of_nat (List.length groups) = k).
Proof.
  unfold _agglomerative_clustering.
  destruct (get_distance_matrix_ok micros) as [distm Hd]; rewrite Hd; cbn [bind].
  assert (Hlen : List.length (map (fun i : Z => [i]) (dict_keys micros))
                 = List.length micros)
    by (unfold dict_keys; rewrite !length_map; reflexivity).
  split.
  - intros [Hk Hneq]; apply agglomerate_index_error.
    + apply singletons_nonempty.
    + rewrite Hlen; exact Hk.
    + rewrite Hlen; exact Hneq.
    + rewrite Hlen; lia.
  - intros Hin.
    destruct (Z.eq_dec k (Z.of_nat (List.length micros))) as [Heq | Hneq].
    + cbn [agglomerate]; rewrite Hlen, <- Heq, Z.eqb_refl.
      eexists; split; [reflexivity|]; rewrite Hlen; symmetry; exact Heq.
    + destruct (agglomerate_partition distm (S (List.length micros))
                  (map (fun i => [i]) (dict_keys micros)) k)
        as [groups [Hg [Hn _]]].
      * apply singletons_nonempty.
      * rewrite Hlen; lia.
      * rewrite Hlen; lia.
      * exists groups; split; assumption.
Qed.

(** X13.  The target count of [_agglomerative_clustering].  The call raises
    [IndexError] (the empty [min_pair] of line 407) exactly when the target
    [k] is not the number of micro-clusters and lies outside
    [[1, len(micros)]]: the loop merges down to one set without ever counting
    [k] sets.  In every other case it returns [k] sets. *)
Theorem agglomerative_clustering_index_error (micros : dict Z microcluster.t) (k : Z) :
  (_agglomerative_clustering micros k = Raise IndexError
   <-> (k < 1 \/ Z.of_nat (List.length micros) < k)%Z
       /\ k <> Z.of_nat (List.length micros))
  /\ ((exists groups, _agglomerative_clustering micros k = Ok groups
                      /\ Z.of_nat (List.length groups) = k)
      <-> ~ ((k < 1 \/ Z.of_nat (List.length micros) < k)%Z
             /\ k <> Z.of_nat (List.length micros))).
Proof.
  destruct (agglomerative_clustering_cases micros k) as [Hbad Hgood].
  split; split.
  - intros Hr.
    destruct (Z_lt_dec k 1) as [H1 | H1];
      destruct (Z_lt_dec (Z.of_nat (List.length micros)) k) as [H2 | H2];
      destruct (Z.eq_dec k (Z.of_nat (List.length micros))) as [H3 | H3];
      try (split; [auto | assumption]);
      (destruct Hgood as [g [Hg _]]; [intros [Hk Hn]; lia | congruence]).
  - exact Hbad.
  - intros [g [Hg _]] Hk; rewrite (Hbad Hk) in Hg; discriminate.
  - exact Hgood.
Qed.

(** X14.  Reclustering with a target below one.  [updateMacroClusters] ends
    in an [IndexError] exactly when the assignment is stale, at least two
    micro-clusters are left above the weight threshold after the weight
    update and [num_macro] is smaller than one. *)
Theorem updateMacroClusters_index_error (p : params) (self : TextClust) :
  updateMacroClusters p self = Raise IndexError
  <-> _up_to_date self = false
      /\ (num_macro p < 1)%Z
      /\ exists mid, _updateweights p self = Ok mid
                     /\ (2 <= List.length (qualifying p (micro_clusters mid)))%nat.
Proof.
  unfold updateMacroClusters.
  destruct (_up_to_date self).
  { split; [discriminate | intros [H _]; discriminate]. }
  destruct (_updateweights p self) as [mid|e|] eqn:Eu; cbn [bind].
  - set (micros := qualifying p (micro_clusters mid)).
    destruct (agglomerative_clustering_cases micros
                (Z.min (num_macro p) (Z.of_nat (List.length micros)))) as [Hbad Hgood].
    destruct (1 <? List.length micros)%nat eqn:El.
    + apply Nat.ltb_lt in El.
      split.
      * intros Hr; split; [reflexivity|].
        destruct (Z_lt_dec (num_macro p) 1) as [Hn | Hn].
        -- split; [assumption|]; exists mid; split; [reflexivity | exact El].
        -- destruct Hgood as [g [Hg _]]; [intros [Hk Hneq]; lia|].
           rewrite Hg in Hr; discriminate.
      * intros [_ [Hn _]]; rewrite Hbad; [reflexivity|]; lia.
    + apply Nat.ltb_ge in El.
      split; [discriminate|].
      intros [_ [_ [mid' [Heq Hl]]]]; injection Heq as <-; fold micros in Hl; lia.
  - unfold _updateweights in Eu.
    destruct (micro_clusters self); [discriminate|].
    destruct (t self); [discriminate|].
    injection Eu as <-.
    split; [discriminate | intros [_ [_ [mid [Heq _]]]]; discriminate].
  - split; [discriminate | intros [_ [_ [mid [Heq _]]]]; discriminate].
Qed.

(** ** The weight a cleanup keeps *)

Lemma merge_weight self other now om ff tfade :
  microcluster.time self = now ->
  microcluster.weight (fst (microcluster.merge self other now om ff tfade))
  = microcluster.weight self + microcluster.weight other
  /\ microcluster.time (fst (microcluster.merge self other now om ff tfade)) = now.
Proof.
  intros Ht; cbn [microcluster.merge fst microcluster.weight microcluster.time
                    microcluster.fade].
  split; [|reflexivity].
  rewrite Ht; replace (- ff * (now - now)) with 0 by lra.
  rewrite pow2_0; lra.
Qed.

Lemma merge_row_weight p now idf threshold : forall rest ci ci' kept,
  microcluster.time ci = now ->
  merge_row p (Some now) idf threshold ci rest = Ok (ci', kept) ->
  microcluster.weight ci' + total_weight kept = microcluster.weight ci + total_weight rest
  /\ microcluster.time ci' = now
  /\ incl kept rest.
Proof.
  induction rest as [|[kj cj] rest IH]; intros ci ci' kept Ht; cbn [merge_row].
  - intros Heq; injection Heq as <- <-.
    split; [reflexivity | split; [assumption | apply incl_refl]].
  - destruct (distances.dist ci cj idf) as [d| |]; cbn [bind]; try discriminate.
    destruct (Rltb d threshold).
    + destruct (microcluster.merge ci cj now (omega p) (fading_factor p) (term_fading p))
        as [ci1 cj1] eqn:Em.
      destruct (merge_weight ci cj now (omega p) (fading_factor p) (term_fading p) Ht)
        as [Hw Ht1].
      rewrite Em in Hw, Ht1; cbn [fst] in Hw, Ht1.
      intros Hr.
      destruct (IH (microcluster.with_merged_ids ci1
                      (microcluster.merged_ids ci1 ++ [microcluster.id cj1]))
                  ci' kept Ht1 Hr) as [Hsum [Ht' Hincl]].
      cbn [microcluster.with_merged_ids microcluster.weight] in Hsum.
      cbn [total_weight fold_right snd]; fold (total_weight rest).
      split; [lra | split; [assumption | apply incl_tl; assumption]].
    + destruct (merge_row p (Some now) idf threshold ci rest) as [[c1 k1]| |] eqn:Er;
        cbn [bind]; try discriminate.
      intros Heq; injection Heq as <- <-.
      destruct (IH ci c1 k1 Ht Er) as [Hsum [Ht' Hincl]].
      cbn [total_weight fold_right snd]; fold (total_weight rest); fold (total_weight k1).
      split; [lra | split; [assumption|]].
      apply incl_cons; [left; reflexivity | apply incl_tl; assumption].
Qed.

Lemma merge_pass_weight p now idf threshold fuel : forall micros micros',
  (forall k m, In (k, m) micros -> microcluster.time m = now) ->
  merge_pass fuel p (Some now) idf threshold micros = Ok micros' ->
  total_weight micros' = total_weight micros
  /\ (List.length micros' <= List.length micros)%nat.
Proof.
  induction fuel as [|fuel IH]; intros micros micros' Htime.
  - destruct micros as [|[ki ci] rest]; cbn [merge_pass]; [|discriminate].
    intros Heq; injection Heq as <-; split; [reflexivity | apply Nat.le_refl].
  - destruct micros as [|[ki ci] rest]; cbn [merge_pass].
    + intros Heq; injection Heq as <-; split; [reflexivity | apply Nat.le_refl].
    + destruct (merge_row p (Some now) idf threshold ci rest) as [[ci' kept]| |] eqn:Er;
        cbn [bind]; try discriminate.
      destruct (merge_pass fuel p (Some now) idf threshold kept) as [rest'| |] eqn:Ep;
        cbn [bind]; try discriminate.
      intros Heq; injection Heq as <-.
      destruct (merge_row_weight p now idf threshold rest ci ci' kept) as [Hsum [_ Hincl]];
        [apply (Htime ki); left; reflexivity | exact Er |].
      destruct (IH kept rest') as [Hw Hl];
        [intros k m Hin; apply (Htime k); right; apply Hincl, Hin | exact Ep |].
      assert (Hlen : (List.length kept <= List.length rest)%nat).
      { clear - Er; revert ci ci' kept Er.
        induction rest as [|[kj cj] rest IHr]; intros ci ci' kept; cbn [merge_row].
        - intros Heq; injection Heq as _ <-; apply Nat.le_refl.
        - destruct (distances.dist ci cj idf) as [d| |]; cbn [bind]; try discriminate.
          destruct (Rltb d threshold).
          + destruct (microcluster.merge _ _ _ _ _ _) as [c1 c2].
            intros Hr; apply IHr in Hr; simpl; lia.
          + destruct (merge_row p (Some now) idf threshold ci rest) as [[c1 k1]| |] eqn:Er1;
              cbn [bind]; try discriminate.
            intros Heq; injection Heq as _ <-; apply IHr in Er1; simpl; lia. }
      cbn [total_weight fold_right snd List.length].
      fold (total_weight rest'); fold (total_weight rest).
      split; [lra | lia].
Qed.

Lemma snapshot_all_weight micros :
  total_weight (snapshot_all micros) = total_weight micros
  /\ forall now, (forall k m, In (k, m) micros -> microcluster.time m = now) ->
                 forall k m, In (k, m) (snapshot_all micros) -> microcluster.time m = now.
Proof.
  split.
  - induction micros as [|[k m] micros IH]; [reflexivity|].
    cbn [snapshot_all map total_weight fold_right snd fst microcluster.snapshot
           microcluster.weight].
    unfold snapshot_all, total_weight in IH; rewrite IH; reflexivity.
  - intros now Ht k m Hin; unfold snapshot_all in Hin.
    apply in_map_iff in Hin as [[k0 m0] [Heq Hin]]; cbn [fst snd] in Heq.
    injection Heq as <- <-; cbn [microcluster.snapshot microcluster.time].
    apply (Ht k0 m0 Hin).
Qed.

Lemma cleanup_weight p self self' now :
  t self = Some now ->
  _cleanup p self = Ok self' ->
  total_weight (micro_clusters self')
  = total_weight (evict_all p (fade_all p now (micro_clusters self)))
  /\ (List.length (micro_clusters self') <= List.length (micro_clusters self))%nat.
Proof.
  intros Ht; unfold _cleanup.
  assert (Hu : _updateweights p (with_last_cleanup self (t self))
               = Ok (with_micro_clusters (with_last_cleanup self (t self))
                       (evict_all p (fade_all p now (micro_clusters self))))).
  { unfold _updateweights; cbn [with_last_cleanup micro_clusters t].
    destruct (micro_clusters self) as [|kv micros] eqn:Em.
    - cbn [fade_all evict_all]; destruct self; cbn in *; subst; reflexivity.
    - rewrite Ht; rewrite <- Em; reflexivity. }
  rewrite Hu; cbn [bind with_micro_clusters micro_clusters].
  set (survivors := evict_all p (fade_all p now (micro_clusters self))).
  assert (Htime : forall k m, In (k, m) survivors -> microcluster.time m = now).
  { intros k m Hin; apply evict_all_in in Hin as [Hin _].
    apply fade_all_in in Hin as [m0 [_ ->]]; reflexivity. }
  assert (Hlen : (List.length survivors <= List.length (micro_clusters self))%nat).
  { unfold survivors; clear; induction (micro_clusters self) as [|[k m] l IH];
      cbn [fade_all evict_all]; [apply Nat.le_refl|].
    destruct (evicted p _); simpl; lia. }
  destruct (snapshot_all_weight survivors) as [Hsw Hst].
  assert (Hsl : List.length (snapshot_all survivors) = List.length survivors)
    by (unfold snapshot_all; apply length_map).
  destruct (auto_merge p).
  - unfold _mergemicroclusters; cbn [micro_clusters with_micro_clusters t with_last_cleanup].
    destruct (_calculateIDF _) as [idf| |]; cbn [bind]; try discriminate.
    rewrite Ht.
    destruct (merge_pass _ _ _ _ _ _) as [micros'| |] eqn:Ep; cbn [bind]; try discriminate.
    intros Heq; injection Heq as <-.
    cbn [reset_merged with_micro_clusters micro_clusters].
    destruct (merge_pass_weight _ _ _ _ _ _ _ (Hst now Htime) Ep) as [Hw Hl].
    split; [rewrite Hw; exact Hsw | lia].
  - cbn [bind]; intros Heq; injection Heq as <-.
    cbn [reset_merged with_micro_clusters micro_clusters].
    split; [exact Hsw | lia].
Qed.

Lemma topic_a_ok : clusters_ok (_clusterId topic_a) (micro_clusters topic_a).
Proof.
  split.
  - unfold dict_wf; cbn; constructor; [intros [] | constructor].
  - intros k m [Heq | []]; injection Heq as <- <-.
    split; [|cbn; lia].
    split; [reflexivity|]; split.
    + unfold dict_wf; cbn; constructor; [intros [] | constructor].
    + intros k v [Heq | []]; injection Heq as _ <-; lra.
Qed.


(** ** The assignment a reclustering builds *)

Lemma NoDup_app_disjoint {A : Type} (l1 l2 : list A) a :
  NoDup (l1 ++ l2) -> In a l1 -> ~ In a l2.
Proof.
  induction l1 as [|b l1 IH]; intros Hnd Hin; [destruct Hin|].
  cbn [app] in Hnd; inversion Hnd as [|? ? Hnot Hnd']; subst.
  destruct Hin as [-> | Hin]; [|apply IH; assumption].
  intros H2; apply Hnot, in_or_app; right; exact H2.
Qed.

Lemma assign_set_out g i x : forall m,
  ~ In x g -> dict_get (assign_set m g i) x = dict_get m x.
Proof.
  induction g as [|d g IH]; intros m Hn; cbn [assign_set]; [reflexivity|].
  rewrite IH by (intros H; apply Hn; right; exact H).
  apply dict_get_set_other; intros ->; apply Hn; left; reflexivity.
Qed.

Lemma assign_set_in g i x : forall m,
  In x g -> dict_get (assign_set m g i) x = Some i.
Proof.
  induction g as [|a g IH]; intros m Hin; [destruct Hin|].
  cbn [assign_set].
  destruct (in_dec Z.eq_dec x g) as [Hg | Hg]; [apply IH, Hg|].
  destruct Hin as [-> | Hin]; [|contradiction].
  rewrite assign_set_out by assumption; apply dict_get_set_same.
Qed.

Lemma assign_sets_out groups x : forall m i,
  ~ In x (List.concat groups) -> dict_get (assign_sets m groups i) x = dict_get m x.
Proof.
  induction groups as [|g groups IH]; intros m i Hn; cbn [assign_sets]; [reflexivity|].
  cbn [List.concat] in Hn.
  rewrite IH by (intros H; apply Hn, in_or_app; right; exact H).
  apply assign_set_out; intros H; apply Hn, in_or_app; left; exact H.
Qed.

(** Disjoint sets: every member of the set at index [j] is given [i + j]. *)
Lemma assign_sets_in groups x : forall m i j,
  NoDup (List.concat groups) ->
  (j < List.length groups)%nat -> In x (nth j groups []) ->
  dict_get (assign_sets m groups i) x = Some (i + Z.of_nat j)%Z.
Proof.
  induction groups as [|g groups IH]; intros m i j Hnd Hj Hin; [simpl in Hj; lia|].
  cbn [assign_sets]; cbn [List.concat] in Hnd.
  destruct j as [|j]; cbn [nth] in Hin.
  - rewrite assign_sets_out by (apply (NoDup_app_disjoint g); assumption).
    rewrite assign_set_in by assumption; f_equal; lia.
  - rewrite (IH _ _ j); [f_equal; lia | | simpl in Hj; lia | assumption].
    apply (NoDup_app_remove_l _ _ Hnd).
Qed.

Lemma in_concat_nth (groups : list (list Z)) x :
  In x (List.concat groups) ->
  exists j, (j < List.length groups)%nat /\ In x (nth j groups []).
Proof.
  induction groups as [|g groups IH]; [intros []|].
  cbn [List.concat]; intros Hin; apply in_app_or in Hin as [Hin | Hin].
  - exists 0%nat; split; [simpl; lia | exact Hin].
  - destruct (IH Hin) as [j [Hj Hx]]; exists (S j); split; [simpl; lia | exact Hx].
Qed.

Lemma qualifying_keys p micros :
  incl (dict_keys (qualifying p micros)) (dict_keys micros)
  /\ (dict_wf micros -> dict_wf (qualifying p micros)).
Proof.
  induction micros as [|[k m] micros [IHi IHw]]; cbn [qualifying].
  - split; [apply incl_refl | auto].
  - destruct (Rltb _ _); cbn [dict_keys map fst]; split.
    + apply incl_cons; [left; reflexivity | apply incl_tl; exact IHi].
    + unfold dict_wf; cbn [dict_keys map fst]; intros Hnd.
      inversion Hnd as [|? ? Hnot Hnd']; subst.
      constructor; [intros Hin; apply Hnot, IHi, Hin | apply IHw, Hnd'].
    + apply incl_tl; exact IHi.
    + unfold dict_wf; cbn [dict_keys map fst]; intros Hnd.
      inversion Hnd; subst; apply IHw; assumption.
Qed.

Lemma assign_sets_wf groups : forall m i, dict_wf m -> dict_wf (assign_sets m groups i).
Proof.
  induction groups as [|g groups IH]; intros m i Hm; cbn [assign_sets]; [exact Hm|].
  apply IH; clear IH; revert m Hm.
  induction g as [|x g IHg]; intros m Hm; cbn [assign_set]; [exact Hm|].
  apply IHg, dict_set_wf, Hm.
Qed.

(** What a rebuild of the assignment does. *)
Lemma recluster_assignment (p : params) (self mid : TextClust) :
  _up_to_date self = false ->
  _updateweights p self = Ok mid ->
  dict_wf (micro_clusters mid) ->
  (2 <= List.length (qualifying p (micro_clusters mid)))%nat ->
  (1 <= num_macro p)%Z ->
  let micros := qualifying p (micro_clusters mid) in
  let k := Z.min (num_macro p) (Z.of_nat (List.length micros)) in
  exists m,
    updateMacroClusters p self = Ok (with_macro mid m)
    /\ (forall key, In key (dict_keys micros) ->
          exists i, dict_get m key = Some i /\ (0 <= i < k)%Z)
    /\ (forall key, ~ In key (dict_keys micros) -> dict_get m key = None)
    /\ (forall i, (0 <= i < k)%Z -> exists key, dict_get m key = Some i)
    /\ dict_wf m.
Proof.
  intros Hstale Hu Hwf Hlen Hnum micros k.
  unfold updateMacroClusters; rewrite Hstale, Hu; cbn [bind].
  fold micros; fold k.
  assert (El : (1 <? List.length micros)%nat = true) by (apply Nat.ltb_lt; exact Hlen).
  rewrite El; unfold _agglomerative_clustering.
  destruct (get_distance_matrix_ok micros) as [distm Hd]; rewrite Hd; cbn [bind].
  assert (Hl : List.length (map (fun i : Z => [i]) (dict_keys micros))
               = List.length micros)
    by (unfold dict_keys; rewrite !length_map; reflexivity).
  destruct (agglomerate_partition distm (S (List.length micros))
              (map (fun i => [i]) (dict_keys micros)) k)
    as [groups [Hg [Hn [Hperm Hne]]]].
  { unfold nonempty_sets; apply Forall_forall; intros g Hin.
    apply in_map_iff in Hin as [i [<- _]]; discriminate. }
  { rewrite Hl; unfold k, micros; lia. }
  { rewrite Hl; unfold k, micros; lia. }
  rewrite Hg; cbn [bind]; rewrite concat_singletons in Hperm.
  assert (Hnd : NoDup (List.concat groups)).
  { apply (Permutation_NoDup (Permutation_sym Hperm)).
    apply (proj2 (qualifying_keys p (micro_clusters mid))), Hwf. }
  exists (assign_sets [] groups 0%Z); split; [reflexivity|]; split; [|split; [|split]].
  - intros key Hin.
    apply (Permutation_in _ (Permutation_sym Hperm)) in Hin.
    destruct (in_concat_nth groups key Hin) as [j [Hj Hx]].
    exists (Z.of_nat j); split; [|lia].
    rewrite (assign_sets_in groups key [] 0%Z j Hnd Hj Hx); f_equal.
  - intros key Hout; rewrite assign_sets_out; [reflexivity|].
    intros Hin; apply Hout, (Permutation_in _ Hperm), Hin.
  - intros i Hi.
    assert (Hj : (Z.to_nat i < List.length groups)%nat) by lia.
    pose proof (nonempty_nth groups (Z.to_nat i) Hne Hj) as Hnth.
    destruct (nth (Z.to_nat i) groups []) as [|key g] eqn:Eg; [contradiction|].
    exists key.
    rewrite (assign_sets_in groups key [] 0%Z (Z.to_nat i) Hnd Hj);
      [f_equal; lia | rewrite Eg; left; reflexivity].
  - apply assign_sets_wf; constructor.
Qed.

(** X16.  The assignment [updateMacroClusters] builds.  When the assignment
    is stale, at least two micro-clusters are above the weight threshold
    after the weight update and [num_macro] is at least one, the call
    returns with a fresh assignment: every micro-cluster above the threshold
    has a macro id in [[0, k)] for [k = min(num_macro, their number)], no
    other key has an entry, and every id of [[0, k)] is used. *)
Theorem updateMacroClusters_assignment (p : params) (self mid : TextClust) :
  _up_to_date self = false ->
  _updateweights p self = Ok mid ->
  dict_wf (micro_clusters mid) ->
  (2 <= List.length (qualifying p (micro_clusters mid)))%nat ->
  (1 <= num_macro p)%Z ->
  let micros := qualifying p (micro_clusters mid) in
  let k := Z.min (num_macro p) (Z.of_nat (List.length micros)) in
  exists m,
    updateMacroClusters p self = Ok (with_macro mid m)
    /\ (forall key, In key (dict_keys micros) ->
          exists i, dict_get m key = Some i /\ (0 <= i < k)%Z)
    /\ (forall key, ~ In key (dict_keys micros) -> dict_get m key = None)
    /\ (forall i, (0 <= i < k)%Z -> exists key, dict_get m key = Some i).
Proof.
  intros Hstale Hu Hwf Hlen Hnum micros k.
  destruct (recluster_assignment p self mid Hstale Hu Hwf Hlen Hnum)
    as [m [Hr [Hin [Hout [Hall _]]]]].
  exists m; split; [exact Hr|]; split; [exact Hin|]; split; [exact Hout | exact Hall].
Qed.

Lemma updateweights_two_pairs :
  _updateweights plain_params two_pairs
  = Ok (with_micro_clusters two_pairs two_pairs_store).
Proof.
  rewrite (updateweights_value _ _ 4) by reflexivity.
  do 2 f_equal.
  cbn [micro_clusters two_pairs fade_all evict_all]; fade_store.
  unfold two_pairs_store; same_state.
Qed.

Lemma qualifying_two_pairs :
  qualifying plain_params (micro_clusters (with_micro_clusters two_pairs two_pairs_store))
  = two_pairs_store.
Proof.
  cbn [micro_clusters with_micro_clusters two_pairs_store qualifying min_weight
         plain_params scenario_params microcluster.weight].
  Rdecide; reflexivity.
Qed.

Lemma updateMacroClusters_assignment_witness :
  let micros :=
    qualifying plain_params
      (micro_clusters (with_micro_clusters two_pairs two_pairs_store)) in
  let k := Z.min (num_macro plain_params) (Z.of_nat (List.length micros)) in
  exists m,
    updateMacroClusters plain_params two_pairs
    = Ok (with_macro (with_micro_clusters two_pairs two_pairs_store) m)
    /\ (forall key, In key (dict_keys micros) ->
          exists i, dict_get m key = Some i /\ (0 <= i < k)%Z)
    /\ (forall key, ~ In key (dict_keys micros) -> dict_get m key = None)
    /\ (forall i, (0 <= i < k)%Z -> exists key, dict_get m key = Some i).
Proof.
  apply (updateMacroClusters_assignment plain_params two_pairs
           (with_micro_clusters two_pairs two_pairs_store) eq_refl
           updateweights_two_pairs).
  - unfold dict_wf; cbn; repeat constructor; simpl; intuition discriminate.
  - rewrite qualifying_two_pairs; simpl; lia.
  - cbn; lia.
Defined.

(** X17.  Reclustering twice.  A second [updateMacroClusters] right after
    one that returned changes nothing.  What the first call leaves is either
    marked up to date, or has fewer than two micro-clusters above the weight
    threshold and a stale mark, in which case the next call fades and counts
    again and stops at the same place. *)
Theorem updateMacroClusters_idempotent (p : params) (self s1 : TextClust) :
  updateMacroClusters p self = Ok s1 ->
  updateMacroClusters p s1 = Ok s1
  /\ (_up_to_date s1 = true
      \/ (List.length (qualifying p (micro_clusters s1)) <= 1)%nat
         /\ microToMacro s1 = microToMacro self).
Proof.
  unfold updateMacroClusters at 1.
  destruct (_up_to_date self) eqn:Eu.
  - intros Heq; injection Heq as <-.
    unfold updateMacroClusters; rewrite Eu; split; [reflexivity | left; reflexivity].
  - destruct (_updateweights p self) as [mid| |] eqn:Ew; cbn [bind]; try discriminate.
    destruct (1 <? List.length (qualifying p (micro_clusters mid)))%nat eqn:El.
    + destruct (_agglomerative_clustering _ _) as [groups| |]; cbn [bind];
        try discriminate.
      intros Heq; injection Heq as <-.
      unfold updateMacroClusters; cbn [with_macro _up_to_date].
      split; [reflexivity | left; reflexivity].
    + intros Heq; injection Heq as <-.
      destruct (updateweights_store p self mid Ew) as [_ [_ [Hm [Hu _]]]].
      unfold updateMacroClusters; rewrite Hu, Eu.
      rewrite (updateweights_again p self mid Ew); cbn [bind]; rewrite El.
      split; [reflexivity|]; right; split; [|exact Hm].
      apply Nat.ltb_ge in El; lia.
Qed.

Lemma updateMacroClusters_idempotent_witness :
  updateMacroClusters plain_params
    (with_micro_clusters (with_micro_clusters one_topic one_topic_store) one_topic_store)
  = Ok (with_micro_clusters (with_micro_clusters one_topic one_topic_store)
          one_topic_store)
  /\ (_up_to_date (with_micro_clusters (with_micro_clusters one_topic one_topic_store)
                     one_topic_store) = true
      \/ (List.length
            (qualifying plain_params
               (micro_clusters
                  (with_micro_clusters (with_micro_clusters one_topic one_topic_store)
                     one_topic_store))) <= 1)%nat
         /\ microToMacro (with_micro_clusters
                            (with_micro_clusters one_topic one_topic_store)
                            one_topic_store)
            = microToMacro (with_micro_clusters one_topic one_topic_store)).
Proof.
  exact (updateMacroClusters_idempotent plain_params
           (with_micro_clusters one_topic one_topic_store) _
           updateMacroClusters_one_topic).
Defined.

(** ** The distance matrix *)

Lemma df_set_pair dm row col d a b :
  df_set (df_set dm row col d) col row d a b
  = if ((Z.eqb a row && Z.eqb b col) || (Z.eqb a col && Z.eqb b row))%bool
    then d else dm a b.
Proof.
  unfold df_set.
  destruct (Z.eqb_spec a row), (Z.eqb_spec b col), (Z.eqb_spec a col), (Z.eqb_spec b row);
    cbn [andb orb]; reflexivity.
Qed.

(** One row touches only the entries between its label and the labels of
    its columns, and it writes both orientations. *)
Lemma fill_row_spec idf row crow : forall cols dm dm',
  fill_row idf row crow cols dm = Ok dm' ->
  (forall a b, (a <> row \/ ~ In b (dict_keys cols)) ->
               (b <> row \/ ~ In a (dict_keys cols)) -> dm' a b = dm a b)
  /\ ((forall a b, dm a b = dm b a) -> forall a b, dm' a b = dm' b a)
  /\ (~ In row (dict_keys cols) -> dict_wf cols ->
      forall col ccol, In (col, ccol) cols ->
        distances.dist crow ccol idf = Ok (dm' row col)).
Proof.
  induction cols as [|[col ccol] cols IH]; intros dm dm'; cbn [fill_row].
  - intros Heq; injection Heq as <-.
    split; [reflexivity | split; [auto | intros _ _ ? ? []]].
  - destruct (distances.dist crow ccol idf) as [d| |] eqn:Ed; cbn [bind]; try discriminate.
    intros Hf; destruct (IH _ _ Hf) as [Hframe [Hsym Hentry]].
    split; [|split].
    + intros a b H1 H2; cbn [dict_keys map fst] in H1, H2.
      rewrite Hframe.
      * rewrite df_set_pair.
        destruct (Z.eqb_spec a row) as [-> | Ha], (Z.eqb_spec b col) as [-> | Hb];
          cbn [andb orb].
        -- exfalso; destruct H1 as [H1 | H1]; [apply H1; reflexivity|].
           apply H1; left; reflexivity.
        -- destruct (Z.eqb_spec row col) as [<- | Hrc]; cbn [andb]; [|reflexivity].
           destruct (Z.eqb_spec b row) as [-> | Hbr]; [contradiction | reflexivity].
        -- destruct (Z.eqb_spec a col) as [-> | Hac]; cbn [andb]; [|reflexivity].
           destruct (Z.eqb_spec col row) as [-> | Hcr]; [contradiction | reflexivity].
        -- destruct (Z.eqb_spec a col) as [-> | Hac]; cbn [andb]; [|reflexivity].
           destruct (Z.eqb_spec b row) as [-> | Hbr]; [|reflexivity].
           exfalso; destruct H2 as [H2 | H2]; [apply H2; reflexivity|].
           apply H2; left; reflexivity.
      * destruct H1 as [H1 | H1]; [left; exact H1 | right; intros H; apply H1; right; exact H].
      * destruct H2 as [H2 | H2]; [left; exact H2 | right; intros H; apply H2; right; exact H].
    + intros Hs; apply Hsym; intros a b; rewrite !df_set_pair.
      rewrite (Hs a b).
      destruct (Z.eqb a row), (Z.eqb b col), (Z.eqb a col), (Z.eqb b row);
        cbn [andb orb]; reflexivity.
    + intros Hrow Hwf col' ccol' Hin; cbn [dict_keys map fst] in Hrow.
      unfold dict_wf in Hwf; cbn [dict_keys map fst] in Hwf.
      inversion Hwf as [|? ? Hnot Hwf']; subst.
      destruct Hin as [Heq | Hin].
      * injection Heq as <- <-.
        rewrite Hframe; [| right; exact Hnot | left; intros ->; apply Hrow; left; reflexivity].
        rewrite df_set_pair, !Z.eqb_refl; cbn [andb orb]; exact Ed.
      * apply Hentry; [intros H; apply Hrow; right; exact H | exact Hwf' | exact Hin].
Qed.

Lemma fill_matrix_spec idf : forall clusters dm dm',
  fill_matrix idf clusters dm = Ok dm' ->
  (forall a b, (~ In a (dict_keys clusters) \/ ~ In b (dict_keys clusters)) ->
               dm' a b = dm a b)
  /\ ((forall a b, dm a b = dm b a) -> forall a b, dm' a b = dm' b a)
  /\ (dict_wf clusters ->
      (forall a, dm' a a = dm a a)
      /\ forall l1 ka ca l2 kb cb l3,
           clusters = l1 ++ (ka, ca) :: l2 ++ (kb, cb) :: l3 ->
           distances.dist ca cb idf = Ok (dm' ka kb)).
Proof.
  induction clusters as [|[row crow] rest IH]; intros dm dm'; cbn [fill_matrix].
  - intros Heq; injection Heq as <-.
    split; [reflexivity | split; [auto|]].
    intros _; split; [reflexivity|].
    intros [|? ?] ? ? ? ? ? ? Heq; discriminate Heq.
  - destruct (fill_row idf row crow rest dm) as [dm1| |] eqn:Er; cbn [bind];
      try discriminate.
    intros Hf.
    destruct (fill_row_spec idf row crow rest dm dm1 Er) as [Hrframe [Hrsym Hrentry]].
    destruct (IH dm1 dm' Hf) as [Hframe [Hsym Hwfpart]].
    split; [|split].
    + intros a b Hab; cbn [dict_keys map fst] in Hab.
      rewrite Hframe.
      * apply Hrframe.
        -- destruct Hab as [Ha | Hb];
             [left; intros ->; apply Ha; left; reflexivity
             | right; intros H; apply Hb; right; exact H].
        -- destruct Hab as [Ha | Hb];
             [right; intros H; apply Ha; right; exact H
             | left; intros ->; apply Hb; left; reflexivity].
      * destruct Hab as [Ha | Hb];
          [left; intros H; apply Ha; right; exact H
          | right; intros H; apply Hb; right; exact H].
    + intros Hs; apply Hsym, Hrsym, Hs.
    + intros Hwf; unfold dict_wf in Hwf; cbn [dict_keys map fst] in Hwf.
      inversion Hwf as [|? ? Hnot Hwf']; subst.
      destruct (Hwfpart Hwf') as [Hdiag Hentry].
      split.
      * intros a; rewrite Hdiag; apply Hrframe.
        -- destruct (Z.eq_dec a row) as [-> | Ha]; [right; exact Hnot | left; exact Ha].
        -- destruct (Z.eq_dec a row) as [-> | Ha]; [right; exact Hnot | left; exact Ha].
      * intros l1 ka ca l2 kb cb l3 Hdec.
        destruct l1 as [|x l1]; cbn [app] in Hdec.
        -- injection Hdec as -> -> ->.
           rewrite Hframe by (left; exact Hnot).
           apply Hrentry; [exact Hnot | exact Hwf' |].
           apply in_or_app; right; left; reflexivity.
        -- injection Hdec as _ ->.
           apply (Hentry l1 ka ca l2 kb cb l3 eq_refl).
Qed.

Lemma example_micros_wf : dict_wf example_micros.
Proof. repeat constructor; simpl; intuition discriminate. Qed.

(** X18.  The distance matrix of [_get_distance_matrix].  The call returns
    for every store.  The matrix is symmetric with a zero diagonal, and for
    a cluster stored before another one the entry of their two keys is the
    distance [dist] computes with the earlier cluster as first argument
    under the weighting of the clusters given. *)
Theorem get_distance_matrix_entries (clusters : dict Z microcluster.t) :
  dict_wf clusters ->
  exists idf distm,
    _calculateIDF (dict_values clusters) = Ok idf
    /\ _get_distance_matrix clusters = Ok distm
    /\ (forall a b, distm a b = distm b a)
    /\ (forall a, distm a a = 0)
    /\ (forall l1 ka ca l2 kb cb l3,
          clusters = l1 ++ (ka, ca) :: l2 ++ (kb, cb) :: l3 ->
          distances.dist ca cb idf = Ok (distm ka kb)).
Proof.
  intros Hwf.
  destruct (get_distance_matrix_ok clusters) as [distm Hd].
  pose proof Hd as Hd'; unfold _get_distance_matrix in Hd'.
  destruct (_calculateIDF (dict_values clusters)) as [idf| |] eqn:Ei; cbn [bind] in Hd';
    try discriminate.
  destruct (fill_matrix_spec idf clusters df_zeros distm Hd') as [_ [Hsym Hpart]].
  destruct (Hpart Hwf) as [Hdiag Hentry].
  exists idf, distm; split; [reflexivity|]; split; [exact Hd|]; split; [|split].
  - apply Hsym; reflexivity.
  - intros a; rewrite Hdiag; reflexivity.
  - exact Hentry.
Qed.

Lemma get_distance_matrix_entries_witness :
  exists idf distm,
    _calculateIDF (dict_values example_micros) = Ok idf
    /\ _get_distance_matrix example_micros = Ok distm
    /\ (forall a b, distm a b = distm b a)
    /\ (forall a, distm a a = 0)
    /\ (forall l1 ka ca l2 kb cb l3,
          example_micros = l1 ++ (ka, ca) :: l2 ++ (kb, cb) :: l3 ->
          distances.dist ca cb idf = Ok (distm ka kb)).
Proof. exact (get_distance_matrix_entries example_micros example_micros_wf). Defined.

(** ** The macro-clusters of [get_macroclusters] *)

Lemma dict_set_same {A : Type} (d : dict Z A) k v :
  dict_get d k = Some v -> dict_set d k v = d.
Proof.
  induction d as [|[k0 v0] d IH]; cbn [dict_get dict_set]; [discriminate|].
  destruct (key_eqb k k0) eqn:E.
  - apply key_eqb_eq in E; subst k0; intros Heq; injection Heq as ->; reflexivity.
  - intros Hd; rewrite IH by assumption; reflexivity.
Qed.

Lemma stored_weight_set macros v mac i :
  stored_weight (dict_set macros v mac) i
  = if (v =? i)%Z then microcluster.weight mac else stored_weight macros i.
Proof.
  unfold stored_weight.
  destruct (Z.eqb_spec v i) as [-> | Hne].
  - rewrite dict_get_set_same; reflexivity.
  - rewrite dict_get_set_other by (intros Heq; apply Hne; symmetry; exact Heq).
    reflexivity.
Qed.

(** The loop of lines 449-458 when every item names a stored cluster that
    is faded to [now] and an accumulator that exists: it returns, leaves the
    store as it is and adds each cluster's weight to its accumulator. *)
Lemma merge_macros_spec p now : forall items macros micros,
  (forall key v, In (key, v) items ->
     In v (dict_keys macros)
     /\ exists micro,
          dict_get micros key = Some micro
          /\ microcluster.fade micro now (omega p) (fading_factor p) (term_fading p)
             = micro) ->
  (forall i mac, In (i, mac) macros ->
     microcluster.time mac = now /\ microcluster.id mac = Some i) ->
  exists macros',
    merge_macros p now items macros micros = Ok (macros', micros)
    /\ dict_keys macros' = dict_keys macros
    /\ (forall i mac, In (i, mac) macros' ->
          microcluster.time mac = now /\ microcluster.id mac = Some i)
    /\ forall i, stored_weight macros' i
                 = stored_weight macros i + assigned_weight micros items i.
Proof.
  induction items as [|[key v] items IH]; intros macros micros Hitems Hmac;
    cbn [merge_macros assigned_weight].
  - exists macros; split; [reflexivity|]; split; [reflexivity|]; split; [exact Hmac|].
    intros i; lra.
  - destruct (Hitems key v (or_introl eq_refl)) as [Hv [micro [Hmicro Hfade]]].
    destruct (dict_keys_in macros v Hv) as [macro Hmacro].
    rewrite Hmacro, Hmicro.
    pose proof (dict_get_some_in macros v macro Hmacro) as Hin.
    destruct (Hmac v macro Hin) as [Htime Hid].
    destruct (microcluster.merge macro micro now (omega p) (fading_factor p) (term_fading p))
      as [macro' micro'] eqn:Em.
    assert (Hsnd : micro' = micro).
    { change micro' with (snd (macro', micro')); rewrite <- Em.
      cbn [microcluster.merge snd]; exact Hfade. }
    assert (Hfst : macro' = fst (microcluster.merge macro micro now (omega p)
                                   (fading_factor p) (term_fading p)))
      by (rewrite Em; reflexivity).
    destruct (merge_weight macro micro now (omega p) (fading_factor p) (term_fading p) Htime)
      as [Hw Ht'].
    rewrite <- Hfst in Hw, Ht'.
    assert (Hid' : microcluster.id macro' = Some v).
    { rewrite Hfst; cbn [microcluster.merge fst microcluster.id microcluster.fade].
      exact Hid. }
    rewrite Hsnd, (dict_set_same micros key micro Hmicro).
    set (mac2 := microcluster.with_merged_ids macro'
                   (microcluster.merged_ids macro' ++ [microcluster.id micro])).
    destruct (IH (dict_set macros v mac2) micros) as [macros' [Hr [Hk [Hinv Hsum]]]].
    + intros key' v' Hin'; destruct (Hitems key' v' (or_intror Hin')) as [Hv' Hm'].
      split; [|exact Hm'].
      rewrite dict_set_keys_present by exact Hv; exact Hv'.
    + intros i mac Hin'; apply dict_set_in_key in Hin' as [[-> ->] | Hin'].
      * split; [exact Ht' | exact Hid'].
      * apply Hmac, Hin'.
    + exists macros'; split; [exact Hr|]; split.
      * rewrite Hk; apply dict_set_keys_present, Hv.
      * split; [exact Hinv|].
        intros i; rewrite Hsum, stored_weight_set.
        unfold mac2; cbn [microcluster.with_merged_ids microcluster.weight].
        destruct (Z.eqb_spec v i) as [-> | Hne]; [|lra].
        rewrite Hw; unfold stored_weight; rewrite Hmacro, Hmicro; lra.
Qed.

Lemma in_range v n : In v (range n) <-> (0 <= v < n)%Z.
Proof.
  unfold range; rewrite in_map_iff; split.
  - intros [j [<- Hj]]; apply in_seq in Hj; lia.
  - intros Hv; exists (Z.to_nat v); split; [lia | apply in_seq; lia].
Qed.

Lemma range_NoDup n : NoDup (range n).
Proof.
  unfold range; generalize (seq_NoDup (Z.to_nat n) 0).
  induction (seq 0 (Z.to_nat n)) as [|a l IH]; intros Hnd; cbn [map]; [constructor|].
  inversion Hnd as [|? ? Hnot Hnd']; subst; constructor; [|apply IH, Hnd'].
  intros Hin; apply in_map_iff in Hin as [b [Heq Hb]].
  apply Nat2Z.inj in Heq; subst b; contradiction.
Qed.

Lemma qualifying_in p micros k m :
  In (k, m) (qualifying p micros) -> In (k, m) micros.
Proof.
  induction micros as [|[k0 m0] micros IH]; cbn [qualifying]; [intros []|].
  destruct (Rltb _ _); [intros [Heq | Hin]; [left; exact Heq | right; apply IH, Hin]|].
  intros Hin; right; apply IH, Hin.
Qed.

Lemma qualifying_length p micros :
  (List.length (qualifying p micros) <= List.length micros)%nat.
Proof.
  induction micros as [|[k0 m0] micros IH]; cbn [qualifying]; [apply Nat.le_refl|].
  destruct (Rltb _ _); simpl; lia.
Qed.

(** What [_updateweights] leaves is faded to the clock. *)
Lemma updateweights_faded p self mid now k m :
  t self = Some now -> _updateweights p self = Ok mid ->
  In (k, m) (micro_clusters mid) ->
  microcluster.fade m now (omega p) (fading_factor p) (term_fading p) = m.
Proof.
  intros Ht Hu Hin; rewrite (updateweights_value p self now Ht) in Hu.
  injection Hu as <-; cbn [with_micro_clusters micro_clusters] in Hin.
  apply evict_all_in in Hin as [Hin _].
  apply fade_all_in in Hin as [m0 [_ ->]]; apply fade_again.
Qed.

(** X19.  The macro-clusters [get_macroclusters] returns.  When the
    assignment is stale, the clock is set, the store has distinct keys, at
    least two micro-clusters are above the weight threshold after the weight
    update and [num_macro] is at least one, the call returns; it leaves the
    store as the weight update left it, there is one macro-cluster for every
    id below [min(num_macro, len(micro_clusters))], each carries its id and
    the clock as time, and its weight is the sum of the weights of the
    micro-clusters the new assignment maps to it. *)
Theorem get_macroclusters_weights (p : params) (self mid : TextClust) (now : R) :
  _up_to_date self = false ->
  t self = Some now ->
  _updateweights p self = Ok mid ->
  dict_wf (micro_clusters mid) ->
  (2 <= List.length (qualifying p (micro_clusters mid)))%nat ->
  (1 <= num_macro p)%Z ->
  exists m macros,
    updateMacroClusters p self = Ok (with_macro mid m)
    /\ get_macroclusters p self = Ok (with_macro mid m, macros)
    /\ dict_keys macros
       = range (Z.min (num_macro p) (Z.of_nat (List.length (micro_clusters mid))))
    /\ forall i mac, In (i, mac) macros ->
         microcluster.weight mac = assigned_weight (micro_clusters mid) m i
         /\ microcluster.time mac = now
         /\ microcluster.id mac = Some i.
Proof.
  intros Hstale Ht Hu Hwf Hlen Hnum.
  destruct (recluster_assignment p self mid Hstale Hu Hwf Hlen Hnum)
    as [m [Hr [Hin [Hout [_ Hm]]]]].
  pose proof (qualifying_length p (micro_clusters mid)) as Hql.
  destruct (updateweights_store p self mid Hu) as [_ [_ [_ [_ Htmid]]]].
  set (numClusters := Z.min (num_macro p) (Z.of_nat (List.length (micro_clusters mid)))).
  set (macros0 := map (fun x => (x, microcluster.init [] now 0 (Some x)))
                    (range numClusters)).
  assert (Hk0 : dict_keys macros0 = range numClusters).
  { unfold macros0, dict_keys; rewrite map_map; cbn [fst]; apply map_id. }
  destruct (merge_macros_spec p now m macros0 (micro_clusters mid))
    as [macros [Hmm [Hkeys [Hinv Hsum]]]].
  - intros key v Hkv.
    pose proof (dict_get_in m key v Hm Hkv) as Hget.
    destruct (in_dec Z.eq_dec key (dict_keys (qualifying p (micro_clusters mid))))
      as [Hq | Hq]; [|rewrite (Hout key Hq) in Hget; discriminate].
    destruct (Hin key Hq) as [i [Hi Hrange]].
    rewrite Hi in Hget; injection Hget as ->.
    split.
    + rewrite Hk0; apply in_range; unfold numClusters; lia.
    + unfold dict_keys in Hq; apply in_map_iff in Hq as [[key' micro] [Heq Hq]].
      cbn [fst] in Heq; subst key'.
      apply qualifying_in in Hq.
      exists micro; split; [apply dict_get_in; assumption|].
      apply (updateweights_faded p self mid now key micro Ht Hu Hq).
  - intros i mac Hi; unfold macros0 in Hi.
    apply in_map_iff in Hi as [x [Heq _]]; injection Heq as <- <-.
    split; reflexivity.
  - exists m, macros; split; [exact Hr|]; split; [|split].
    + unfold get_macroclusters; rewrite Hr; cbn [bind].
      cbn [with_macro microToMacro micro_clusters t]; rewrite Htmid, Ht.
      fold numClusters.
      destruct (0 <? numClusters)%Z; fold macros0; rewrite Hmm; cbn [bind]; reflexivity.
    + rewrite Hkeys; exact Hk0.
    + intros i mac Hi; destruct (Hinv i mac Hi) as [Htime Hid].
      split; [|split; assumption].
      assert (Hget : dict_get macros i = Some mac).
      { apply dict_get_in; [|exact Hi].
        unfold dict_wf; rewrite Hkeys, Hk0; apply range_NoDup. }
      pose proof (Hsum i) as Hs; unfold stored_weight at 1 in Hs; rewrite Hget in Hs.
      rewrite Hs.
      assert (H0 : stored_weight macros0 i = 0).
      { unfold stored_weight.
        destruct (dict_get macros0 i) as [mac0|] eqn:E0; [|reflexivity].
        apply dict_get_some_in in E0; unfold macros0 in E0.
        apply in_map_iff in E0 as [x [Heq _]]; injection Heq as _ <-; reflexivity. }
      rewrite H0; lra.
Qed.

Lemma get_macroclusters_weights_witness :
  exists m macros,
    updateMacroClusters plain_params two_pairs
    = Ok (with_macro (with_micro_clusters two_pairs two_pairs_store) m)
    /\ get_macroclusters plain_params two_pairs
       = Ok (with_macro (with_micro_clusters two_pairs two_pairs_store) m, macros)
    /\ dict_keys macros
       = range (Z.min (num_macro plain_params)
                  (Z.of_nat (List.length
                               (micro_clusters
                                  (with_micro_clusters two_pairs two_pairs_store)))))
    /\ forall i mac, In (i, mac) macros ->
         microcluster.weight mac
         = assigned_weight (micro_clusters (with_micro_clusters two_pairs two_pairs_store))
             m i
         /\ microcluster.time mac = 4
         /\ microcluster.id mac = Some i.
Proof.
  apply (get_macroclusters_weights plain_params two_pairs
           (with_micro_clusters two_pairs two_pairs_store) 4 eq_refl eq_refl
           updateweights_two_pairs).
  - unfold dict_wf; cbn; repeat constructor; simpl; intuition discriminate.
  - rewrite qualifying_two_pairs; simpl; lia.
  - cbn; lia.
Defined.

(** * The distance as binary64 computes it *)











(** * A run in adaptive mode with a merge and a query *)

(** One call of [learn_one] under the logical clock as a step of a run. *)
Lemma quiet_learn p self x kv x' closest d self1 cid self2 log self' :
  real_time_fading p = false -> x = kv :: x' ->
  closest_to p (with_clock self (Some (IZR (n self)))) x (IZR (n self))
  = Ok (closest, d) ->
  ingest p (with_clock self (Some (IZR (n self)))) x (IZR (n self)) = Ok (self1, cid) ->
  cleanup_due p self1 (IZR (n self)) = false ->
  with_n self1 (n self1 + 1)%Z = self2 ->
  quiet_run p self2 log self' ->
  quiet_run p self ((d, closest) :: log) self'.
Proof.
  intros Hr Hx Hc Hi Hq <- Hrun.
  apply (quiet_cons p self self1 self' x None (IZR (n self)) cid [(d, closest)] log).
  - rewrite (learn_one_ingest_logical p self x None kv x' Hr Hx), Hi; reflexivity.
  - exact Hq.
  - right; split; [rewrite Hx; discriminate|].
    exists closest, d; split; [exact Hc | reflexivity].
  - exact Hrun.
Qed.

Lemma closest_adaptive_b :
  closest_to adaptive_params (with_clock topic_a (Some 2)) [("b"%string, 2)] 2
  = Ok (None, 1).
Proof.
  unfold closest_to; cbn [micro_clusters with_clock topic_a].
  unfold _calculateIDF; run; rewrite !math_log_pos by lra; run.
  unfold _get_closest_mc; cbn [micro_clusters with_clock topic_a closest_scan].
  rewrite distance_degenerate; [| covers | left; cbn; lra].
  cbn [bind]; rewrite choose_cluster_few by (try reflexivity; simpl; lia).
  cbn [bind min_dist]; Rdecide; reflexivity.
Qed.

(** The second [{"a": 2}] is at distance 0 from cluster 0 and at distance 1
    from cluster 1: the mean of the other distances is 1, their deviation
    0, and 0 is below the threshold [1 - sigma * 0]. *)
Lemma closest_adaptive_a :
  closest_to adaptive_params (with_clock topics_a_b (Some 3)) [("a"%string, 2)] 3
  = Ok (Some 0%Z, 0).
Proof.
  unfold closest_to; cbn [micro_clusters with_clock topics_a_b].
  unfold _calculateIDF; run; rewrite !math_log_pos by lra; run.
  unfold _get_closest_mc; cbn [micro_clusters with_clock topics_a_b closest_scan].
  pose proof ln2_pos as Hln.
  set (i := 1 + ln (2 / 1)) in *.
  assert (Hi : 0 < i * i) by (unfold i; nra).
  rewrite (distance_parallel _ _ _ (4 * (i * i)) (4 * (i * i)) (4 * (i * i)));
    [| covers | cbn; lra | cbn; lra | cbn; lra | lra | lra | lra | lra].
  cbn [bind].
  rewrite (distance_value _ _ _ (4 * (i * i)) (4 * (i * i)) 0);
    [| covers | cbn; lra | cbn; lra | cbn; lra | lra | lra].
  cbn [bind min_dist smallest_key sumdist squaresum counter].
  replace (1 - 0 / _) with 1 by (unfold Rdiv; rewrite Rmult_0_l; lra).
  rewrite round10_1.
  Rdecide; unfold choose_cluster.
  cbn [auto_r adaptive_params counter Nat.ltb Nat.leb min_dist sumdist squaresum
         smallest_key sigma INR].
  replace ((0 + 0 ^ 2 + 1 ^ 2) / (1 + 1 - 1) - ((0 + 0 + 1 - 0) / (1 + 1 - 1)) ^ 2)
    with 0 by (simpl; field).
  rewrite math_sqrt_nonneg by lra; cbn [bind]; rewrite sqrt_0.
  Rdecide; reflexivity.
Qed.

Lemma ingest_adaptive_a :
  exists self1,
    ingest adaptive_params (with_clock init (Some 1)) [("a"%string, 2)] 1
    = Ok (self1, Some 0%Z)
    /\ cleanup_due adaptive_params self1 1 = false
    /\ with_n self1 (n self1 + 1)%Z = topic_a.
Proof.
  eexists; split; [|split].
  - erewrite ingest_create by (apply closest_empty_adaptive; reflexivity).
    reflexivity.
  - unfold cleanup_due; cbn; Rdecide; reflexivity.
  - norm_state; same_state.
Qed.

Lemma ingest_adaptive_b :
  exists self1,
    ingest adaptive_params (with_clock topic_a (Some 2)) [("b"%string, 2)] 2
    = Ok (self1, Some 1%Z)
    /\ cleanup_due adaptive_params self1 2 = false
    /\ with_n self1 (n self1 + 1)%Z = topics_a_b.
Proof.
  eexists; split; [|split].
  - erewrite ingest_create by apply closest_adaptive_b.
    reflexivity.
  - unfold cleanup_due; cbn; Rdecide; reflexivity.
  - norm_state; same_state.
Qed.

Lemma ingest_adaptive_a_again :
  exists self1,
    ingest adaptive_params (with_clock topics_a_b (Some 3)) [("a"%string, 2)] 3
    = Ok (self1, Some 0%Z)
    /\ cleanup_due adaptive_params self1 3 = false
    /\ with_n self1 (n self1 + 1)%Z = adaptive_three.
Proof.
  eexists; split; [|split].
  - erewrite ingest_merge; [| apply closest_adaptive_a | reflexivity].
    reflexivity.
  - unfold cleanup_due; cbn; Rdecide; reflexivity.
  - run; rewrite !pow2_zero_rate, !omega_zero_rate by reflexivity.
    run; Rdecide; run; norm_state; same_state.
Qed.

(** The micro-level query returns on a store with a clock and leaves the
    faded clusters that pass the eviction test. *)
Lemma predict_one_micro_store p self x now :
  t self = Some now ->
  exists r,
    predict_one p self x "micro"
    = Ok (with_micro_clusters self
            (evict_all p (fade_all p now (micro_clusters self))), r).
Proof.
  intros Ht; unfold predict_one, get_assignment.
  rewrite (updateweights_value p self now Ht); cbn [bind].
  set (s1 := with_micro_clusters self _).
  destruct (calculateIDF_ok (dict_values (micro_clusters s1))) as [idf [Hidf Hcov]].
  rewrite Hidf; cbn [bind].
  destruct (0 <? List.length x)%nat; [|eauto].
  destruct (nearest_ok p (microcluster.init x 1 1 None) idf (micro_clusters s1) Inf None
              Hcov) as [[d closest] Hn].
  rewrite Hn; cbn [bind]; cbn; eauto.
Qed.

Lemma query_adaptive_three :
  exists r,
    predict_one adaptive_params adaptive_three [("a"%string, 2)] "micro"
    = Ok (adaptive_queried, r).
Proof.
  destruct (predict_one_micro_store adaptive_params adaptive_three [("a"%string, 2)] 3
              eq_refl) as [r Hr].
  exists r; rewrite Hr; do 2 f_equal.
  cbn [micro_clusters adaptive_three fade_all evict_all]; fade_store.
  unfold adaptive_queried, with_micro_clusters; cbn; same_state.
Qed.

Lemma closest_adaptive_queried :
  closest_to adaptive_params (with_clock adaptive_queried (Some 4)) [("b"%string, 2)] 4
  = Ok (None, 1).
Proof.
  unfold closest_to; cbn [micro_clusters with_clock adaptive_queried].
  unfold _calculateIDF; run; rewrite !math_log_pos by lra; run.
  unfold _get_closest_mc; cbn [micro_clusters with_clock adaptive_queried closest_scan].
  rewrite distance_degenerate; [| covers | left; cbn; lra].
  cbn [bind]; rewrite choose_cluster_few by (try reflexivity; simpl; lia).
  cbn [bind min_dist]; Rdecide; reflexivity.
Qed.

(** Three ingestions and a query under [adaptive_params]: two clusters are
    created at distance 1, the third observation is merged at distance 0,
    and the query evicts cluster 1. *)
Lemma adaptive_run :
  quiet_run adaptive_params init [(1, None); (1, None); (0, Some 0%Z)] adaptive_queried.
Proof.
  destruct ingest_adaptive_a as [s1 [H1 [Hq1 He1]]].
  destruct ingest_adaptive_b as [s2 [H2 [Hq2 He2]]].
  destruct ingest_adaptive_a_again as [s3 [H3 [Hq3 He3]]].
  destruct query_adaptive_three as [r Hr].
  refine (quiet_learn adaptive_params init [("a"%string, 2)] _ _ None 1 s1 (Some 0%Z)
            topic_a _ _ eq_refl eq_refl _ H1 Hq1 He1 _).
  { apply closest_empty_adaptive; reflexivity. }
  refine (quiet_learn adaptive_params topic_a [("b"%string, 2)] _ _ None 1 s2 (Some 1%Z)
            topics_a_b _ _ eq_refl eq_refl closest_adaptive_b H2 Hq2 He2 _).
  refine (quiet_learn adaptive_params topics_a_b [("a"%string, 2)] _ _ (Some 0%Z) 0 s3
            (Some 0%Z) adaptive_three _ _ eq_refl eq_refl closest_adaptive_a H3 Hq3 He3 _).
  apply (quiet_assignment adaptive_params adaptive_three adaptive_queried adaptive_queried
           [("a"%string, 2)] "micro" r [] Hr).
  apply quiet_nil.
Qed.

Lemma merge_threshold_since_cleanup_witness :
  quiet_run adaptive_params init [(1, None); (1, None); (0, Some 0%Z)] adaptive_queried
  /\ learn_one_ingest adaptive_params adaptive_queried [("b"%string, 2)] None
     = Ok (create_new (with_clock adaptive_queried (Some 4))
             (microcluster.init [("b"%string, 2)] 4 1 (Some 2%Z)) 1, 4, Some 2%Z)
  /\ merge_threshold adaptive_params
       (create_new (with_clock adaptive_queried (Some 4))
          (microcluster.init [("b"%string, 2)] 4 1 (Some 2%Z)) 1)
     = total_distance ([(1, None); (1, None); (0, Some 0%Z)] ++ [(1, None)])
       / (IZR (merges ([(1, None); (1, None); (0, Some 0%Z)] ++ [(1, None)])) + 1).
Proof.
  assert (Hi : learn_one_ingest adaptive_params adaptive_queried [("b"%string, 2)] None
               = Ok (create_new (with_clock adaptive_queried (Some 4))
                       (microcluster.init [("b"%string, 2)] 4 1 (Some 2%Z)) 1,
                     4, Some 2%Z)).
  { erewrite learn_one_ingest_logical by reflexivity.
    change (IZR (n adaptive_queried)) with 4.
    erewrite ingest_create by apply closest_adaptive_queried.
    reflexivity. }
  assert (He : ingestion_entry adaptive_params adaptive_queried [("b"%string, 2)] 4
                 [(1, None)]).
  { right; split; [discriminate|].
    exists None, 1; split; [apply closest_adaptive_queried | reflexivity]. }
  split; [exact adaptive_run | split; [exact Hi|]].
  exact (proj1 (proj2 (proj2
           (merge_threshold_since_cleanup adaptive_params init adaptive_queried _
              [(1, None); (1, None); (0, Some 0%Z)] [(1, None)] [("b"%string, 2)] None 4
              (Some 2%Z) eq_refl eq_refl adaptive_run Hi He eq_refl)))).
Defined.

(** * One stored cluster under adaptive thresholding *)

(** A second [{"a": 2}] is at distance 0 from the only stored cluster, and
    the search still returns no cluster. *)
Lemma closest_adaptive_same :
  closest_to adaptive_params (with_clock topic_a (Some 2)) [("a"%string, 2)] 2
  = Ok (None, 0).
Proof.
  unfold closest_to; cbn [micro_clusters with_clock topic_a].
  unfold _calculateIDF; run; rewrite !math_log_pos by lra; run.
  unfold _get_closest_mc; cbn [micro_clusters with_clock topic_a closest_scan].
  rewrite (distance_parallel _ _ _ 4 4 4);
    [| covers | cbn; rewrite ln_1_1; lra | cbn; rewrite ln_1_1; lra
     | cbn; rewrite ln_1_1; lra | lra | lra | lra | lra].
  cbn [bind]; rewrite choose_cluster_few by (try reflexivity; simpl; lia).
  cbn [bind min_dist]; Rdecide; reflexivity.
Qed.

Lemma adaptive_few_candidates_create_witness :
  let self1 := with_clock topic_a (Some 2) in
  let mc := microcluster.init [("a"%string, 2)] 2 1 (Some (_clusterId topic_a)) in
  closest_to adaptive_params self1 [("a"%string, 2)] 2 = Ok (None, 0)
  /\ learn_one_ingest adaptive_params topic_a [("a"%string, 2)] None
     = Ok (create_new self1 mc 0, 2, Some (_clusterId topic_a))
  /\ micro_clusters (create_new self1 mc 0)
     = dict_set (micro_clusters topic_a) (_clusterId topic_a) mc
  /\ _num_merged_obs (create_new self1 mc 0) = _num_merged_obs topic_a.
Proof.
  destruct (adaptive_few_candidates_create adaptive_params topic_a [("a"%string, 2)]
              None 2) as [d [Hc Hrest]].
  - reflexivity.
  - simpl; lia.
  - discriminate.
  - reflexivity.
  - cbn zeta in Hc, Hrest |- *.
    assert (Hd : d = 0)
      by (rewrite closest_adaptive_same in Hc; injection Hc as <-; reflexivity).
    rewrite Hd in Hc, Hrest; split; [exact Hc | exact Hrest].
Defined.

(** * [learn_one] never raises *)

Lemma merge_pass_times p now idf threshold fuel : forall micros micros',
  (forall k m, In (k, m) micros -> microcluster.time m = now) ->
  merge_pass fuel p (Some now) idf threshold micros = Ok micros' ->
  forall k m, In (k, m) micros' -> microcluster.time m = now.
Proof.
  induction fuel as [|fuel IH]; intros micros micros' Htime.
  - destruct micros as [|[ki ci] rest]; cbn [merge_pass]; [|discriminate].
    intros Heq; injection Heq as <-; intros k m [].
  - destruct micros as [|[ki ci] rest]; cbn [merge_pass].
    + intros Heq; injection Heq as <-; intros k m [].
    + destruct (merge_row p (Some now) idf threshold ci rest) as [[ci' kept]| |] eqn:Er;
        cbn [bind]; try discriminate.
      destruct (merge_pass fuel p (Some now) idf threshold kept) as [rest'| |] eqn:Ep;
        cbn [bind]; try discriminate.
      intros Heq; injection Heq as <-.
      destruct (merge_row_weight p now idf threshold rest ci ci' kept) as [_ [Ht Hincl]];
        [apply (Htime ki); left; reflexivity | exact Er |].
      intros k m [Heq | Hin]; [injection Heq as _ <-; exact Ht|].
      refine (IH kept rest' _ Ep k m Hin).
      intros k' m' Hin'; apply (Htime k'); right; apply Hincl, Hin'.
Qed.

(** After a cleanup every stored cluster has the clock as time. *)
Lemma cleanup_times p self self' now :
  t self = Some now -> _cleanup p self = Ok self' ->
  forall k m, In (k, m) (micro_clusters self') -> microcluster.time m = now.
Proof.
  intros Ht; unfold _cleanup.
  rewrite (updateweights_value p (with_last_cleanup self (t self)) now)
    by (cbn [with_last_cleanup t]; exact Ht).
  cbn [bind with_micro_clusters with_last_cleanup micro_clusters].
  set (survivors := evict_all p (fade_all p now (micro_clusters self))).
  assert (Htime : forall k m, In (k, m) (snapshot_all survivors) ->
                              microcluster.time m = now).
  { apply (proj2 (snapshot_all_weight survivors)).
    intros k m Hin; apply evict_all_in in Hin as [Hin _].
    apply fade_all_in in Hin as [m0 [_ ->]]; reflexivity. }
  destruct (auto_merge p).
  - unfold _mergemicroclusters; cbn [micro_clusters with_micro_clusters t with_last_cleanup].
    destruct (_calculateIDF _) as [idf| |]; cbn [bind]; try discriminate.
    rewrite Ht.
    destruct (merge_pass _ _ _ _ _ _) as [micros'| |] eqn:Ep; cbn [bind]; try discriminate.
    intros Heq; injection Heq as <-.
    cbn [reset_merged with_micro_clusters micro_clusters].
    exact (merge_pass_times _ _ _ _ _ _ _ Htime Ep).
  - cbn [bind]; intros Heq; injection Heq as <-.
    cbn [reset_merged with_micro_clusters micro_clusters]; exact Htime.
Qed.

Lemma ingest_times p self x now self' r :
  times_ok now (micro_clusters self) ->
  ingest p self x now = Ok (self', r) ->
  times_ok now (micro_clusters self').
Proof.
  intros Htime; unfold ingest.
  destruct (closest_to p self x now) as [[c d]| |]; cbn [bind]; try discriminate.
  destruct c as [cid|].
  - destruct (dict_get (micro_clusters self) cid); [|discriminate].
    destruct (microcluster.merge _ _ _ _ _ _) as [m2 o2] eqn:Em.
    intros Heq; injection Heq as <- _.
    cbn [merge_into micro_clusters]; intros k m Hin.
    apply dict_set_in_key in Hin as [[_ ->] | Hin]; [|apply (Htime k m Hin)].
    replace m2 with (fst (m2, o2)) by reflexivity; rewrite <- Em.
    cbn [microcluster.merge fst microcluster.time]; apply Rle_refl.
  - intros Heq; injection Heq as <- _.
    cbn [create_new micro_clusters]; intros k m Hin.
    apply dict_set_in_key in Hin as [[_ ->] | Hin]; [|apply (Htime k m Hin)].
    cbn [microcluster.init microcluster.time]; apply Rle_refl.
Qed.

(** The clock and the times a call of [learn_one] leaves. *)
Lemma learn_one_times p self x t' now self' r :
  (if real_time_fading p then t' else Some (IZR (n self))) = Some now ->
  times_ok now (micro_clusters self) ->
  learn_one p self x t' = Ok (self', r) ->
  t self' = Some now /\ times_ok now (micro_clusters self').
Proof.
  intros Hnow Htime; unfold learn_one.
  destruct (learn_one_ingest p self x t') as [[[s1 now'] c]| |] eqn:Ei; cbn [bind];
    try discriminate.
  destruct (learn_one_ingest_inv _ _ _ _ _ _ _ Ei) as [Hnow' Hshape].
  rewrite Hnow in Hnow'; injection Hnow' as <-.
  assert (H1 : t s1 = Some now /\ times_ok now (micro_clusters s1)).
  { destruct Hshape as [[_ [-> _]] | [_ Hing]]; [split; [reflexivity | exact Htime]|].
    destruct (ingest_frame _ _ _ _ _ _ Hing) as [Ht _].
    split; [rewrite Ht; reflexivity|].
    apply (ingest_times p (with_clock self (Some now)) x now s1 c Htime Hing). }
  destruct H1 as [Ht1 Htime1].
  destruct (cleanup_due p s1 now).
  - destruct (_cleanup p s1) as [s2| |] eqn:Ec; cbn [bind]; try discriminate.
    destruct (cleanup_frame p s1 s2 Ec) as [Ht2 _].
    intros Heq; injection Heq as <- _; cbn [with_n t micro_clusters].
    split; [rewrite Ht2; exact Ht1|].
    intros k m Hin; rewrite (cleanup_times p s1 s2 now Ht1 Ec k m Hin); apply Rle_refl.
  - cbn [bind]; intros Heq; injection Heq as <- _; cbn [with_n t micro_clusters].
    split; assumption.
Qed.

(** X10.  [learn_one] with the fixed threshold never raises on a
    well-formed store.  When the keys of the store are distinct, each
    cluster carries its key as id below the next id and has non-negative
    term weights, no cluster was updated after the clock of the call, the
    fading factor is not negative and the document is a dictionary of
    non-negative weights, the call returns; the store it leaves is well
    formed again with no time after the clock, the observation counter has
    advanced by one, and the only key it can have added is the next id.
    (The adaptive threshold is left out: there binary64 can hand
    [math.sqrt] a rounded negative variance at line 259.) *)
Theorem learn_one_keeps_store (p : params) (self : TextClust) (x : dict string R)
    (t' : option R) (now : R) :
  auto_r p = false ->
  0 <= fading_factor p ->
  store_ok self -> dict_wf x -> nonneg x ->
  (if real_time_fading p then t' else Some (IZR (n self))) = Some now ->
  times_ok now (micro_clusters self) ->
  exists self' r,
    learn_one p self x t' = Ok (self', r)
    /\ store_ok self'
    /\ t self' = Some now
    /\ times_ok now (micro_clusters self')
    /\ n self' = (n self + 1)%Z
    /\ incl (dict_keys (micro_clusters self'))
            (_clusterId self :: dict_keys (micro_clusters self)).
Proof.
  intros _ _ Hok Hx Hn Hnow Htime.
  destruct (learn_one_store p self x t' Hok Hx Hn) as [self' [r [Hl [Hok' [Hn' Hincl]]]]].
  { intros Hrt; rewrite Hrt in Hnow; rewrite Hnow; discriminate. }
  destruct (learn_one_times p self x t' now self' r Hnow Htime Hl) as [Ht Htime'].
  exists self', r; split; [exact Hl|]; split; [exact Hok'|]; split; [exact Ht|].
  split; [exact Htime'|]; split; [exact Hn' | exact Hincl].
Qed.

Lemma topic_a_store_ok : store_ok topic_a /\ times_ok 2 (micro_clusters topic_a).
Proof.
  split; [split; [apply topic_a_ok | intros _; discriminate]|].
  intros k m [Heq | []]; injection Heq as _ <-; cbn; lra.
Qed.

Lemma learn_one_keeps_store_witness :
  learn_one plain_params topic_a [("a"%string, 2)] None = Ok (one_topic, Some 0%Z)
  /\ store_ok one_topic
  /\ t one_topic = Some 2
  /\ times_ok 2 (micro_clusters one_topic)
  /\ n one_topic = (n topic_a + 1)%Z
  /\ incl (dict_keys (micro_clusters one_topic))
          (_clusterId topic_a :: dict_keys (micro_clusters topic_a)).
Proof.
  destruct (learn_one_keeps_store plain_params topic_a [("a"%string, 2)] None 2)
    as [self' [r [Hl Hrest]]].
  - reflexivity.
  - cbn; lra.
  - apply topic_a_store_ok.
  - unfold dict_wf; cbn; constructor; [intros [] | constructor].
  - intros k v [Heq | []]; injection Heq as _ <-; lra.
  - reflexivity.
  - apply topic_a_store_ok.
  - assert (Heq : self' = one_topic)
      by (rewrite learn_topic_a_again in Hl; injection Hl as <- _; reflexivity).
    rewrite Heq in Hl, Hrest.
    split; [apply learn_topic_a_again | exact Hrest].
Defined.

(** X11.  A stream of documents never raises.  Under the logical clock,
    with the fixed threshold and a fading factor that is not negative, a
    loop of [learn_one] calls over dictionaries of non-negative weights that
    starts from a well-formed store with no time after the observation
    counter (the fresh object is one) returns, leaves such a store and has
    counted every document. *)
Theorem learn_all_never_raises (p : params) (xs : list (dict string R)) :
  real_time_fading p = false ->
  auto_r p = false ->
  0 <= fading_factor p ->
  Forall (fun x => dict_wf x /\ nonneg x) xs ->
  forall self,
    store_ok self -> times_ok (IZR (n self)) (micro_clusters self) ->
    exists self',
      learn_all p self xs = Ok self'
      /\ store_ok self'
      /\ times_ok (IZR (n self')) (micro_clusters self')
      /\ n self' = (n self + Z.of_nat (List.length xs))%Z.
Proof.
  intros Hrt _ _ Hxs; induction Hxs as [|x xs [Hx Hn] _ IH]; intros self Hok Htime.
  - exists self; split; [reflexivity|]; split; [assumption|]; split; [assumption|].
    cbn [List.length Z.of_nat]; lia.
  - cbn [learn_all].
    destruct (learn_one_store p self x None Hok Hx Hn) as [s1 [r [H1 [Hok1 [Hn1 _]]]]].
    { rewrite Hrt; discriminate. }
    assert (Hnow : (if real_time_fading p then None else Some (IZR (n self)))
                   = Some (IZR (n self))) by (rewrite Hrt; reflexivity).
    destruct (learn_one_times p self x None (IZR (n self)) s1 r Hnow Htime H1)
      as [_ Htime1].
    rewrite H1; cbn [bind].
    destruct (IH s1 Hok1) as [s2 [H2 [Hok2 [Htime2 Hn2]]]].
    { intros k m Hin; apply Rle_trans with (IZR (n self)); [apply (Htime1 k m Hin)|].
      rewrite Hn1; apply IZR_le; lia. }
    exists s2; split; [exact H2|]; split; [exact Hok2|]; split; [exact Htime2|].
    rewrite Hn2, Hn1; cbn [List.length]; lia.
Qed.

Lemma learn_all_never_raises_witness :
  exists self',
    learn_all plain_params init [obs1; obs2; obs3] = Ok self'
    /\ store_ok self'
    /\ times_ok (IZR (n self')) (micro_clusters self')
    /\ n self' = (n init + Z.of_nat (List.length [obs1; obs2; obs3]))%Z.
Proof.
  refine (learn_all_never_raises plain_params [obs1; obs2; obs3] eq_refl eq_refl _
            scenario_observations_wf init store_ok_init _).
  - cbn; lra.
  - intros k m [].
Defined.

(** * What a cleanup merges *)

Lemma merge_row_parts p now idf threshold : forall rest ci ci' kept,
  microcluster.time ci = now ->
  merge_row p (Some now) idf threshold ci rest = Ok (ci', kept) ->
  exists absorbed,
    Permutation rest (kept ++ absorbed)
    /\ microcluster.id ci' = microcluster.id ci
    /\ microcluster.weight ci' = absorbed_weight (microcluster.weight ci) absorbed
    /\ microcluster.merged_ids ci'
       = microcluster.merged_ids ci ++ map (fun kc => microcluster.id (snd kc)) absorbed.
Proof.
  induction rest as [|[kj cj] rest IH]; intros ci ci' kept Ht; cbn [merge_row].
  - intros Heq; injection Heq as <- <-.
    exists []; split; [constructor|]; split; [reflexivity|]; split; [reflexivity|].
    cbn [map]; rewrite app_nil_r; reflexivity.
  - destruct (distances.dist ci cj idf) as [d| |]; cbn [bind]; try discriminate.
    destruct (Rltb d threshold).
    + destruct (microcluster.merge ci cj now (omega p) (fading_factor p) (term_fading p))
        as [ci1 cj1] eqn:Em.
      destruct (merge_weight ci cj now (omega p) (fading_factor p) (term_fading p) Ht)
        as [Hw Ht1].
      assert (Hfacts : microcluster.id ci1 = microcluster.id ci
                       /\ microcluster.merged_ids ci1 = microcluster.merged_ids ci
                       /\ microcluster.id cj1 = microcluster.id cj).
      { pose proof (f_equal fst Em) as E1; pose proof (f_equal snd Em) as E2.
        cbn [fst snd] in E1, E2; rewrite <- E1, <- E2; repeat split. }
      destruct Hfacts as [Hid [Hmi Hidj]].
      rewrite Em in Hw, Ht1; cbn [fst] in Hw, Ht1.
      intros Hr.
      destruct (IH (microcluster.with_merged_ids ci1
                      (microcluster.merged_ids ci1 ++ [microcluster.id cj1]))
                  ci' kept Ht1 Hr) as [absorbed [Hperm [Hid' [Hw' Hm']]]].
      cbn [microcluster.with_merged_ids microcluster.id microcluster.weight
             microcluster.merged_ids] in Hid', Hw', Hm'.
      exists ((kj, cj) :: absorbed); split; [|split; [|split]].
      * apply Permutation_cons_app; exact Hperm.
      * rewrite Hid'; exact Hid.
      * rewrite Hw', Hw; reflexivity.
      * rewrite Hm', Hmi, Hidj, <- app_assoc; reflexivity.
    + destruct (merge_row p (Some now) idf threshold ci rest) as [[c1 k1]| |] eqn:Er;
        cbn [bind]; try discriminate.
      intros Heq; injection Heq as <- <-.
      destruct (IH ci c1 k1 Ht Er) as [absorbed [Hperm Hrest]].
      exists absorbed; split; [|exact Hrest].
      cbn [app]; apply perm_skip; exact Hperm.
Qed.

Lemma merge_pass_parts p now idf threshold fuel : forall micros micros',
  (forall k m, In (k, m) micros -> microcluster.time m = now) ->
  merge_pass fuel p (Some now) idf threshold micros = Ok micros' ->
  exists parts,
    Permutation micros (flat_map (fun part => fst part :: snd part) parts)
    /\ Forall2 absorbs parts micros'.
Proof.
  induction fuel as [|fuel IH]; intros micros micros' Htime.
  - destruct micros as [|[ki ci] rest]; cbn [merge_pass]; [|discriminate].
    intros Heq; injection Heq as <-; exists []; split; constructor.
  - destruct micros as [|[ki ci] rest]; cbn [merge_pass].
    + intros Heq; injection Heq as <-; exists []; split; constructor.
    + destruct (merge_row p (Some now) idf threshold ci rest) as [[ci' kept]| |] eqn:Er;
        cbn [bind]; try discriminate.
      destruct (merge_pass fuel p (Some now) idf threshold kept) as [rest'| |] eqn:Ep;
        cbn [bind]; try discriminate.
      intros Heq; injection Heq as <-.
      assert (Hti : microcluster.time ci = now) by (apply (Htime ki); left; reflexivity).
      destruct (merge_row_parts p now idf threshold rest ci ci' kept Hti Er)
        as [absorbed [Hperm [Hid [Hw Hm]]]].
      destruct (merge_row_weight p now idf threshold rest ci ci' kept Hti Er)
        as [_ [_ Hincl]].
      destruct (IH kept rest') as [parts [Hperm' Hall]];
        [intros k m Hin; apply (Htime k); right; apply Hincl, Hin | exact Ep |].
      exists (((ki, ci), absorbed) :: parts); split.
      * cbn [flat_map fst snd app]; apply perm_skip.
        apply (Permutation_trans Hperm).
        apply (Permutation_trans (Permutation_app_comm kept absorbed)).
        apply Permutation_app_head; exact Hperm'.
      * constructor; [|exact Hall].
        unfold absorbs; cbn [fst snd]; repeat split; assumption.
Qed.

Lemma absorbs_nothing micros :
  Permutation micros (flat_map (fun part => fst part :: snd part)
                        (map (fun km : Z * microcluster.t => (km, [])) micros))
  /\ Forall2 absorbs (map (fun km : Z * microcluster.t => (km, [])) micros) micros
  /\ Forall (fun part : (Z * microcluster.t) * list (Z * microcluster.t) => snd part = [])
       (map (fun km : Z * microcluster.t => (km, [])) micros).
Proof.
  induction micros as [|km micros [IHp [IHa IHn]]]; cbn [map flat_map fst snd app].
  - split; [constructor | split; constructor].
  - split; [apply perm_skip; exact IHp|]; split; constructor; try assumption; try reflexivity.
    unfold absorbs; cbn [fst snd absorbed_weight fold_left map].
    rewrite app_nil_r; repeat split.
Qed.

(** X15.  What a cleanup merges.  On a well-formed store with a clock
    [_cleanup] returns and leaves a well-formed store.  The clusters that
    survive the weight update are divided among the clusters it leaves:
    each cluster left is one of them, under its key and id, after it
    absorbed zero or more others in order; its weight is its faded weight
    plus their faded weights, added one by one, and its [merged_ids] is
    extended by their ids.  Every survivor of the eviction is kept or
    absorbed exactly once, and without [auto_merge] nothing is absorbed. *)
Theorem cleanup_merges_account (p : params) (self : TextClust) (now : R) :
  t self = Some now ->
  clusters_ok (_clusterId self) (micro_clusters self) ->
  exists self' parts,
    _cleanup p self = Ok self'
    /\ store_ok self'
    /\ Permutation
         (snapshot_all (evict_all p (fade_all p now (micro_clusters self))))
         (flat_map (fun part => fst part :: snd part) parts)
    /\ Forall2 absorbs parts (micro_clusters self')
    /\ (auto_merge p = false -> Forall (fun part => snd part = []) parts).
Proof.
  intros Ht Hok.
  destruct (cleanup_ok p self now Ht Hok) as [self' [Hc [Hok' [Ht' _]]]].
  assert (Hstore : store_ok self')
    by (split; [exact Hok' | intros _; rewrite Ht', Ht; discriminate]).
  pose proof Hc as Hc'; unfold _cleanup in Hc'.
  rewrite (updateweights_value p (with_last_cleanup self (t self)) now) in Hc'
    by (cbn [with_last_cleanup t]; exact Ht).
  cbn [bind with_micro_clusters with_last_cleanup micro_clusters] in Hc'.
  set (survivors := evict_all p (fade_all p now (micro_clusters self))) in *.
  assert (Htime : forall k m, In (k, m) (snapshot_all survivors) ->
                              microcluster.time m = now).
  { apply (proj2 (snapshot_all_weight survivors)).
    intros k m Hin; apply evict_all_in in Hin as [Hin _].
    apply fade_all_in in Hin as [m0 [_ ->]]; reflexivity. }
  destruct (auto_merge p).
  - unfold _mergemicroclusters in Hc'.
    cbn [micro_clusters with_micro_clusters t with_last_cleanup] in Hc'.
    destruct (_calculateIDF _) as [idf| |]; cbn [bind] in Hc'; try discriminate.
    rewrite Ht in Hc'.
    destruct (merge_pass _ _ _ _ _ _) as [micros'| |] eqn:Ep; cbn [bind] in Hc';
      try discriminate.
    injection Hc' as Heq.
    destruct (merge_pass_parts _ _ _ _ _ _ _ Htime Ep) as [parts [Hperm Hall]].
    exists self', parts; split; [exact Hc|]; split; [exact Hstore|].
    split; [exact Hperm|]; split; [rewrite <- Heq; exact Hall | discriminate].
  - cbn [bind] in Hc'; injection Hc' as Heq.
    destruct (absorbs_nothing (snapshot_all survivors)) as [Hperm [Hall Hnone]].
    exists self', (map (fun km => (km, [])) (snapshot_all survivors)).
    split; [exact Hc|]; split; [exact Hstore|].
    split; [exact Hperm|]; split; [rewrite <- Heq; exact Hall | intros _; exact Hnone].
Qed.

Lemma twin_pairs_ok : clusters_ok (_clusterId twin_pairs) (micro_clusters twin_pairs).
Proof.
  split.
  - unfold dict_wf; cbn; repeat constructor; simpl; intuition discriminate.
  - intros k m [Heq | [Heq | []]]; injection Heq as <- <-;
      (split; [|cbn; lia]); (split; [reflexivity|]); split;
      try (unfold dict_wf; cbn; constructor; [intros [] | constructor]);
      intros k v [Heq | []]; injection Heq as _ <-; lra.
Qed.

(** At [twin_pairs] the merge pass does merge: cluster 1, at distance 0
    from cluster 0, is absorbed by it; the weights 2 and 2 add up to 4. *)
Lemma cleanup_twin_pairs : _cleanup plain_params twin_pairs = Ok twin_pairs_cleaned.
Proof.
  unfold _cleanup.
  rewrite (updateweights_value _ _ 4) by reflexivity.
  cbn [bind with_micro_clusters with_last_cleanup micro_clusters twin_pairs fade_all
         evict_all t].
  fade_store.
  cbn [auto_merge plain_params scenario_params snapshot_all map fst snd
         microcluster.snapshot microcluster.weight microcluster.oldweight microcluster.id
         microcluster.time microcluster.tf microcluster.n microcluster.merged_ids
         microcluster.deltaweight].
  unfold _mergemicroclusters; cbn [micro_clusters with_micro_clusters t].
  unfold _calculateIDF; run; rewrite !math_log_pos by lra; run.
  assert (Hl : ln (2 / 2) = 0) by (replace (2 / 2) with 1 by lra; apply ln_1).
  rewrite (distance_parallel _ _ _ 16 16 16);
    [| covers | cbn; rewrite Hl; lra | cbn; rewrite Hl; lra
     | cbn; rewrite Hl; lra | lra | lra | lra | lra].
  run; unfold merge_threshold; run; Rdecide.
  run; rewrite !pow2_zero_rate, !omega_zero_rate by reflexivity.
  run; Rdecide; run; norm_state; same_state.
Qed.

Lemma cleanup_merges_account_witness :
  exists parts,
    _cleanup plain_params twin_pairs = Ok twin_pairs_cleaned
    /\ store_ok twin_pairs_cleaned
    /\ Permutation
         (snapshot_all (evict_all plain_params
                          (fade_all plain_params 4 (micro_clusters twin_pairs))))
         (flat_map (fun part => fst part :: snd part) parts)
    /\ Forall2 absorbs parts (micro_clusters twin_pairs_cleaned)
    /\ (auto_merge plain_params = false -> Forall (fun part => snd part = []) parts).
Proof.
  destruct (cleanup_merges_account plain_params twin_pairs 4 eq_refl twin_pairs_ok)
    as [self' [parts [Hc Hrest]]].
  assert (Heq : self' = twin_pairs_cleaned)
    by (rewrite cleanup_twin_pairs in Hc; injection Hc as <-; reflexivity).
  rewrite Heq in Hc, Hrest.
  exists parts; split; [exact Hc | exact Hrest].
Defined.
